(** * Random number generator interface ([random.c])

    A shallow embedding of the linear-congruential backend ([RANDOM_LCG]) and
    of the Box-Muller batch samplers of [random.c], together with the
    properties of the generator that the simulation relies on.

    Conventions of the embedding:
    - [uint64_t] is a [Z] reduced modulo [2^64] after every operation;
    - [int] is a [Z] that must stay within [INT_MIN .. INT_MAX]; an
      operation that leaves the range is undefined behaviour and is reported
      as the outcome [Undefined];
    - [double] is IEEE-754 binary64, given by the standard library's
      [spec_float] with [prec = 53] and [emax = 1024] (round to nearest,
      ties to even);
    - the output buffer [double* r] is a finite map from indices to doubles,
      so that a store outside the caller's range stays visible;
    - every double operation rounds once, to nearest (no contraction of a
      product and a sum into one operation);
    - loops are read sequentially (the [omp simd] and accelerator pragmas
      are annotations, not part of the semantics).  *)

From Stdlib Require Import ZArith Lia Bool List.
From Stdlib Require Import Floats.SpecFloat.
From stdpp Require Import gmap.

Local Open Scope Z_scope.

(** ** Binary64 arithmetic *)

Module Binary64.

Definition double : Type := spec_float.

Definition prec : Z := 53.
Definition emax : Z := 1024.

Definition dadd : double -> double -> double := SFadd prec emax.
Definition dsub : double -> double -> double := SFsub prec emax.
Definition dmul : double -> double -> double := SFmul prec emax.
Definition ddiv : double -> double -> double := SFdiv prec emax.
Definition dsqrt : double -> double := SFsqrt prec emax.
Definition dopp : double -> double := SFopp.

(** [x < y], [x <= y] and [x == y] of C on doubles (all false on NaN). *)
Definition dlt : double -> double -> bool := SFltb.
Definition dle : double -> double -> bool := SFleb.
Definition deq : double -> double -> bool := SFeqb.

(** Conversion of an integer value to [double]: the nearest double, ties
    to even.  This is the cast [(double) x] and the usual arithmetic
    conversion of an integer operand of a double operation. *)
Definition double_of_Z (z : Z) : double := binary_normalize prec emax z 0 false.

(** The literals [0.0], [0.5], [1.0] and [2.0]. *)
Definition dbl_zero : double := S754_zero false.
Definition dbl_half : double := S754_finite false 4503599627370496 (-53).
Definition dbl_one : double := S754_finite false 4503599627370496 (-52).
Definition dbl_two : double := S754_finite false 4503599627370496 (-51).

End Binary64.

Import Binary64.

(** ** Outcomes of a call *)

Inductive outcome (A : Type) : Type :=
| Returns (a : A)      (* the call returns normally *)
| Undefined            (* undefined behaviour: signed overflow, access
                          outside an object *)
| Diverges.            (* the iteration budget ran out before the loop ended *)

Arguments Returns {A} a.
Arguments Undefined {A}.
Arguments Diverges {A}.

#[global] Instance outcome_ret : MRet outcome := fun A a => Returns a.

#[global] Instance outcome_bind : MBind outcome := fun A B k m =>
  match m with
  | Returns a => k a
  | Undefined => Undefined
  | Diverges => Diverges
  end.

(** A call is fatal when it does not return to its caller. *)
Definition is_fatal {A : Type} (m : outcome A) : Prop :=
  forall a, m <> Returns a.

(** ** Machine integers *)

Definition UINT64_MAX : Z := 18446744073709551615.
Definition INT_MAX : Z := 2147483647.
Definition INT_MIN : Z := -2147483648.

Definition wrap64 (z : Z) : Z := z mod 2 ^ 64.

(** The value of an [int] expression, or [Undefined] on overflow. *)
Definition int_val (z : Z) : outcome Z :=
  if (INT_MIN <=? z) && (z <=? INT_MAX) then Returns z else Undefined.

(** ** The linear-congruential engine *)

(** Modelled from the spec: the type [random_data] of [random.h], a header
    that is not among the sources.  For the linear-congruential backend the
    engine state is a single unsigned 64-bit integer, the current state
    word; [random.c] reads and writes it as [rdata->r]. *)
Record random_data : Type := { r : Z }.

(** [void random_lcg_init(random_data* rdata, uint64_t seed)] *)
Definition random_lcg_init (rdata : random_data) (seed : Z) : random_data :=
  {| r := seed |}.

Definition lcg_a : Z := 2862933555777941757.
Definition lcg_b : Z := 3037000493.

(** [uint64_t random_lcg_integer(random_data* rdata)] *)
Definition random_lcg_integer (rdata : random_data) : Z * random_data :=
  let a := lcg_a in
  let b := lcg_b in
  let r' := wrap64 (a * r rdata + b) in
  (r', {| r := r' |}).

(** The body of the loop of [random_lcg_uniform_simd]:
    [for(int i = 0; i < n; i++) r[i] = (double) random_lcg_integer(rdata) / UINT64_MAX;]
    The counter [steps] bounds the number of iterations; [n - i] of them are
    enough. *)
Fixpoint uniform_loop (steps : nat) (n i : Z) (rdata : random_data)
    (out : gmap Z double) : outcome (random_data * gmap Z double) :=
  if i <? n then
    match steps with
    | O => Diverges
    | S steps' =>
        let '(x, rdata') := random_lcg_integer rdata in
        let out' := <[i := ddiv (double_of_Z x) (double_of_Z UINT64_MAX)]> out in
        i' ← int_val (i + 1);
        uniform_loop steps' n i' rdata' out'
    end
  else Returns (rdata, out).

(** [void random_lcg_uniform_simd(random_data* rdata, int n, double* r)] *)
Definition random_lcg_uniform_simd (rdata : random_data) (n : Z)
    (out : gmap Z double) : outcome (random_data * gmap Z double) :=
  uniform_loop (Z.to_nat n) n 0 rdata out.

(** [double random_lcg_uniform(random_data* rdata)]: a batch of one value
    drawn into a local variable, which is then returned. *)
Definition random_lcg_uniform (rdata : random_data) : outcome (double * random_data) :=
  '(rdata', loc) ← random_lcg_uniform_simd rdata 1 ∅;
  match loc !! 0 with
  | Some x => Returns (x, rdata')
  | None => Undefined
  end.

(** *** Sequential scalar draws

    [uniform_seq k rdata] is the k-fold sequential use of the scalar sampler:
    the values returned by [k] successive calls of [random_lcg_uniform], in
    call order, and the engine after the last call. *)
Fixpoint uniform_seq (k : nat) (rdata : random_data) : outcome (list double * random_data) :=
  match k with
  | O => Returns ([], rdata)
  | S k' =>
      '(x, rdata') ← random_lcg_uniform rdata;
      '(xs, rdata'') ← uniform_seq k' rdata';
      Returns (x :: xs, rdata'')
  end.

(** The state word after [k] steps of the recurrence, without the engine
    around it, and the double that the sampler derives from a state word. *)
Definition lcg_next (s : Z) : Z := wrap64 (lcg_a * s + lcg_b).

Definition lcg_iter (k : nat) (s : Z) : Z := Nat.iter k lcg_next s.

Definition uniform_of_word (x : Z) : double :=
  ddiv (double_of_Z x) (double_of_Z UINT64_MAX).

(** ** Normal deviates: the two Box-Muller forms

    The batch samplers of the linear-congruential and of the [drand48]
    backend have the same loops of the geometric form up to the call that
    draws a uniform deviate, so the loops are written once over that call;
    the common form is that of the linear-congruential backend (that of the
    [drand48] backend is no C text, see [random_drand48_normal_simd]).
    [log] and [cos] are the
    functions of [libm], [CONST_2PI] comes from [consts.h] and
    [A5_CCOL_USE_GEOBM] is the build option that selects the form. *)

Section BoxMuller.

Variables log cos : double -> double.
Variable CONST_2PI : double.
Variable A5_CCOL_USE_GEOBM : Z.

Context {St : Type}.
Variable uniform : St -> outcome (double * St).

(** [while( w >= 1.0 ) { x1 = 2*uniform-1; x2 = 2*uniform-1; w = x1*x1 + x2*x2; }]
    [fuel] bounds the number of rejected pairs. *)
Fixpoint geobm_while (fuel : nat) (x1 x2 w : double) (st : St)
    : outcome (double * double * double * St) :=
  if dle dbl_one w then
    match fuel with
    | O => Diverges
    | S fuel' =>
        '(u1, st1) ← uniform st;
        let x1 := dsub (dmul (double_of_Z 2) u1) (double_of_Z 1) in
        '(u2, st2) ← uniform st1;
        let x2 := dsub (dmul (double_of_Z 2) u2) (double_of_Z 1) in
        let w := dadd (dmul x1 x1) (dmul x2 x2) in
        geobm_while fuel' x1 x2 w st2
    end
  else Returns (x1, x2, w, st).

(** The geometric form: [for(int i = 0; i < n; i=i+2) { w = 2.0; while ...}].
    [x1] and [x2] are assigned in the first pass of the inner loop, which
    [w = 2.0] forces, before they are read; their value on entry is
    immaterial and is given as NaN. *)
Fixpoint geobm_for (steps fuel : nat) (n isEven i : Z) (st : St)
    (out : gmap Z double) : outcome (St * gmap Z double) :=
  if i <? n then
    match steps with
    | O => Diverges
    | S steps' =>
        '(x1, x2, w, st') ← geobm_while fuel S754_nan S754_nan dbl_two st;
        let w := dsqrt (ddiv (dmul (double_of_Z (-2)) (log w)) w) in
        let out := <[i := dmul x1 w]> out in
        nm2 ← int_val (n - 2);
        out ← (if (i <? nm2) || (0 <? isEven)
               then i1 ← int_val (i + 1); mret (<[i1 := dmul x2 w]> out)
               else mret out);
        i' ← int_val (i + 2);
        geobm_for steps' fuel n isEven i' st' out
    end
  else Returns (st, out).

(** The common (trigonometric) form. *)
Fixpoint common_for (steps : nat) (n isEven i : Z) (st : St)
    (out : gmap Z double) : outcome (St * gmap Z double) :=
  if i <? n then
    match steps with
    | O => Diverges
    | S steps' =>
        '(x1, st1) ← uniform st;
        '(x2, st2) ← uniform st1;
        let w := dsqrt (dmul (double_of_Z (-2)) (log x1)) in
        let s := cos (dmul CONST_2PI x2) in
        let out := <[i := dmul w s]> out in
        nm2 ← int_val (n - 2);
        out ← (if (i <? nm2) || (0 <? isEven)
               then i1 ← int_val (i + 1);
                    if dlt x2 dbl_half
                    then mret (<[i1 := dmul w (dsqrt (dsub (double_of_Z 1) (dmul s s)))]> out)
                    else mret (<[i1 := dmul (dopp w) (dsqrt (dsub (double_of_Z 1) (dmul s s)))]> out)
               else mret out);
        i' ← int_val (i + 2);
        common_for steps' n isEven i' st2 out
    end
  else Returns (st, out).

(** The body of [random_lcg_normal_simd], over the call that draws a
    uniform deviate:
    [int isEven = (n+1) % 2;] followed by the loop of the selected form. *)
Definition normal_simd (fuel : nat) (st : St) (n : Z) (out : gmap Z double)
    : outcome (St * gmap Z double) :=
  np1 ← int_val (n + 1);
  let isEven := Z.rem np1 2 in
  if A5_CCOL_USE_GEOBM =? 1
  then geobm_for (Z.to_nat n) fuel n isEven 0 st out
  else common_for (Z.to_nat n) n isEven 0 st out.

End BoxMuller.

Section Backends.

Variables log cos : double -> double.
Variable CONST_2PI : double.
Variable A5_CCOL_USE_GEOBM : Z.

(** [void random_lcg_normal_simd(random_data* rdata, int n, double* r)] *)
Definition random_lcg_normal_simd (fuel : nat) (rdata : random_data) (n : Z)
    (out : gmap Z double) : outcome (random_data * gmap Z double) :=
  normal_simd log cos CONST_2PI A5_CCOL_USE_GEOBM random_lcg_uniform fuel rdata n out.

(** [double random_lcg_normal(random_data* rdata)] *)
Definition random_lcg_normal (fuel : nat) (rdata : random_data)
    : outcome (double * random_data) :=
  '(rdata', loc) ← random_lcg_normal_simd fuel rdata 1 ∅;
  match loc !! 0 with
  | Some x => Returns (x, rdata')
  | None => Undefined
  end.

(** The [drand48] backend draws from the generator of the C library, whose
    state is global to the process: [drand48] maps that state to the value
    returned and the next state. *)
Context {rand48 : Type}.
Variable drand48 : rand48 -> double * rand48.

(** [void random_drand48_normal_simd(int n, double* r)], the text under
    [#if A5_CCOL_USE_GEOBM == 1].  The text of the other branch reads
    [x1 = drand48(rdata);] in a function that declares no [rdata]: it is
    not a C function, and only the build with the geometric form has
    [random_drand48_normal_simd]. *)
Definition random_drand48_normal_simd (fuel : nat) (g : rand48) (n : Z)
    (out : gmap Z double) : outcome (rand48 * gmap Z double) :=
  np1 ← int_val (n + 1);
  let isEven := Z.rem np1 2 in
  geobm_for log (fun g => Returns (drand48 g)) (Z.to_nat n) fuel n isEven 0 g out.

End Backends.

(** ** Vocabulary of the statements *)

(** *** Stores into the buffer *)

(** A call that was given [out] and left [out'] has stored exactly the
    cells [0 .. n-1]: each of them holds a value, every other cell is as
    the caller left it, and the cells added to the buffer are those of
    [0 .. n-1]. *)
Definition writes_exactly (n : Z) (out out' : gmap Z double) : Prop :=
  (forall j, 0 <= j < n -> is_Some (out' !! j)) /\
  (forall j, ~ (0 <= j < n) -> out' !! j = out !! j) /\
  dom out' = dom out ∪ list_to_set (seqZ 0 n).

(** A loop that has come to [i] stores nothing below [i] and, when it
    returns, has stored every cell of [i .. n-1]. *)
Definition fills (n i : Z) (out out' : gmap Z double) : Prop :=
  forall j : Z, ((i <= j < n) -> is_Some (out' !! j)) /\
                (~ (i <= j < n) -> out' !! j = out !! j).

(** What one pass of either loop does to the buffer, given the two values
    of the pair: the first is stored at [i], the second at [i + 1] if that
    cell is inside the request. *)
Definition store_pair (n i : Z) (v1 v2 : double) (out : gmap Z double) : gmap Z double :=
  if i + 1 <? n then <[i + 1 := v2]> (<[i := v1]> out) else <[i := v1]> out.

(** *** The two transforms *)

Section Transforms.

Variables log cos : double -> double.
Variable CONST_2PI : double.

(** The trigonometric form as the specification words it: from the
    uniforms [x1] and [x2], [w = sqrt(-2 ln x1)] and [s = cos(2 pi x2)];
    the pair is [(w s, +- w sqrt(1 - s^2))], the sign being [+] when
    [x2 < 0.5] and [-] otherwise. *)
Definition trig_pair (x1 x2 : double) : double * double :=
  let w := dsqrt (dmul (double_of_Z (-2)) (log x1)) in
  let s := cos (dmul CONST_2PI x2) in
  let t := dsqrt (dsub (double_of_Z 1) (dmul s s)) in
  (dmul w s, if dlt x2 dbl_half then dmul w t else dmul (dopp w) t).

(** The geometric form: an accepted point [(x1, x2)] of radius [w] is
    scaled by [sqrt(-2 ln(w) / w)]. *)
Definition polar_pair (x1 x2 w : double) : double * double :=
  let f := dsqrt (ddiv (dmul (double_of_Z (-2)) (log w)) w) in
  (dmul x1 f, dmul x2 f).

End Transforms.

(** A point of the geometric form and its squared radius, from the two
    uniform deviates: [x = 2*u - 1] and [w = x1*x1 + x2*x2]. *)
Definition polar_coordinate (u : double) : double :=
  dsub (dmul (double_of_Z 2) u) (double_of_Z 1).

Definition polar_radius (u1 u2 : double) : double :=
  let x1 := polar_coordinate u1 in
  let x2 := polar_coordinate u2 in
  dadd (dmul x1 x1) (dmul x2 x2).

(** The radius that the rejection loop may hand on: a positive finite
    double below [1.0]. *)
Definition accepted (w : double) : Prop :=
  dlt w dbl_one = true /\ deq w dbl_zero = false /\
  exists m e, w = S754_finite false m e.

(** *** Rounding *)

(** [m / 2^k] rounded to the nearest integer, ties to even. *)
Definition rnd_ne (m k : Z) : Z :=
  let q := m / 2 ^ k in
  let rem := m mod 2 ^ k in
  let h := 2 ^ (k - 1) in
  if rem <? h then q
  else if rem =? h then (if Z.even q then q else q + 1)
  else q + 1.

(** The outcome of an operation whose exact result is not zero and falls in
    the normal range: a finite double of sign [s] with a 53-bit significand
    and an exponent between [lo] and [hi]. *)
Definition normal_result (s : bool) (lo hi : Z) (x : spec_float) : Prop :=
  exists m e, x = S754_finite s m e /\ Zpos (digits2_pos m) = 53 /\ lo <= e <= hi.

(** A deviate of the closed unit interval in the form the samplers produce
    it: [+0], or a normal double of exponent between [-116] and [-52]. *)
Definition unit_deviate (u : double) : Prop :=
  u = S754_zero false \/
  exists m e, u = S754_finite false m e /\ Zpos (digits2_pos m) = 53 /\ -116 <= e <= -52.

(** The state words whose deviate is [0.5]. *)
Definition half_window (x : Z) : bool :=
  (2 ^ 63 - 512 <=? x) && (x <=? 2 ^ 63 + 1024).

(** *** The generator behind [drand48] *)

(** [drand48] of the C library, as POSIX defines it: the 48-bit state moves
    by [X' = (0x5DEECE66D * X + 0xB) mod 2^48] and the value returned is
    [X' * 2^-48].  [posix_drand48 drand48 X] says that the function
    [drand48], whose generator state [g] holds the 48-bit value [X g], is
    that generator. *)
Definition rand48_next (x : Z) : Z := (25214903917 * x + 11) mod 2 ^ 48.

Definition double_of_rand48 (x : Z) : double := binary_normalize prec emax x (-48) false.

Definition posix_drand48 {rand48 : Type}
    (drand48 : rand48 -> double * rand48) (X : rand48 -> Z) : Prop :=
  forall g, X (snd (drand48 g)) = rand48_next (X g) /\
            fst (drand48 g) = double_of_rand48 (X (snd (drand48 g))).

(** ** The backends over a library generator

    The uniform batch of the [drand48] backend and both batches of the
    [RANDOM_GSL] backend are one loop over a scalar call of the library:
    [for(int i = 0; i < n; i++) r[i] = draw;].  The generator of the library
    is a parameter: [draw] maps its state to the value returned and the
    state after the call. *)

Section ScalarLoop.

Context {St : Type}.
Variable draw : St -> double * St.

Fixpoint scalar_loop (steps : nat) (n i : Z) (st : St)
    (out : gmap Z double) : outcome (St * gmap Z double) :=
  if i <? n then
    match steps with
    | O => Diverges
    | S steps' =>
        let '(x, st') := draw st in
        let out' := <[i := x]> out in
        i' ← int_val (i + 1);
        scalar_loop steps' n i' st' out'
    end
  else Returns (st, out).

(** [k] successive scalar calls: the values in call order and the state
    after the last call. *)
Fixpoint draw_seq (k : nat) (st : St) : list double * St :=
  match k with
  | O => ([], st)
  | S k' =>
      let '(x, st') := draw st in
      let '(xs, st'') := draw_seq k' st' in
      (x :: xs, st'')
  end.

End ScalarLoop.

Section LibraryBackends.

Variables log cos : double -> double.
Variable CONST_2PI : double.
Variable A5_CCOL_USE_GEOBM : Z.

(** [RANDOM_GSL]: [rdata->r] is the generator of the library. *)
Context {gsl_rng : Type}.
Variable gsl_rng_uniform : gsl_rng -> double * gsl_rng.
Variable gsl_ran_gaussian : gsl_rng -> double -> double * gsl_rng.

(** [double random_gsl_uniform(random_data* rdata)] *)
Definition random_gsl_uniform (rdata : gsl_rng) : double * gsl_rng :=
  gsl_rng_uniform rdata.

(** [double random_gsl_normal(random_data* rdata)] *)
Definition random_gsl_normal (rdata : gsl_rng) : double * gsl_rng :=
  gsl_ran_gaussian rdata dbl_one.

(** [void random_gsl_uniform_simd(random_data* rdata, int n, double* r)] *)
Definition random_gsl_uniform_simd (rdata : gsl_rng) (n : Z) (out : gmap Z double)
    : outcome (gsl_rng * gmap Z double) :=
  scalar_loop gsl_rng_uniform (Z.to_nat n) n 0 rdata out.

(** [void random_gsl_normal_simd(random_data* rdata, int n, double* r)] *)
Definition random_gsl_normal_simd (rdata : gsl_rng) (n : Z) (out : gmap Z double)
    : outcome (gsl_rng * gmap Z double) :=
  scalar_loop (fun g => gsl_ran_gaussian g dbl_one) (Z.to_nat n) n 0 rdata out.

(** The [drand48] backend. *)
Context {rand48 : Type}.
Variable drand48 : rand48 -> double * rand48.

(** [void random_drand48_uniform_simd(int n, double* r)] *)
Definition random_drand48_uniform_simd (g : rand48) (n : Z) (out : gmap Z double)
    : outcome (rand48 * gmap Z double) :=
  scalar_loop drand48 (Z.to_nat n) n 0 g out.

(** [double random_drand48_normal()], in the build that has
    [random_drand48_normal_simd]. *)
Definition random_drand48_normal (fuel : nat) (g : rand48) : outcome (double * rand48) :=
  '(g', loc) ← random_drand48_normal_simd log drand48 fuel g 1 ∅;
  match loc !! 0 with
  | Some x => Returns (x, g')
  | None => Undefined
  end.

End LibraryBackends.

(** ** The accelerator path of the [drand48] backend

    [random_drand48_normal_cuda] has the generator of cuRAND fill a buffer
    of the device with [n] uniform deviates and then pairs the cells of that
    buffer.  The engine holds the generator and the buffer; the buffer is
    the map of its cells, with the number of doubles it was allocated for.
    A cell holds a value from the allocation on: first the one that the
    storage returned by [malloc] happens to hold, then the one last stored.
    The library is a parameter: the call
    [curandGenerateUniformDouble(gen, ptr, n)] yields the [n] deviates, by
    index, and the generator after the call. *)

Record random_cuda (curand_gen : Type) : Type :=
  { gen : curand_gen; r_cuda : gmap Z double; r_cuda_size : Z }.

Arguments gen {curand_gen} _.
Arguments r_cuda {curand_gen} _.
Arguments r_cuda_size {curand_gen} _.

(** The cells [0 .. count-1] after the bulk call has stored its values. *)
Definition fill_cells (vals : Z -> double) (count : Z) (cells : gmap Z double)
    : gmap Z double :=
  foldr (fun i c => <[i := vals i]> c) cells (seqZ 0 count).

(** [data->r_cuda[i]]: a read outside the allocation is undefined; inside
    it the read yields the value of the cell.  An engine made by
    [random_drand48_normal_cuda_init] has a value in every cell of its
    allocation and keeps one; a map that lacks such a cell describes no
    buffer, and the read has no value to yield. *)
Definition cuda_read {curand_gen : Type} (data : random_cuda curand_gen) (i : Z)
    : outcome double :=
  if (0 <=? i) && (i <? r_cuda_size data) then
    match r_cuda data !! i with
    | Some x => Returns x
    | None => Undefined
    end
  else Undefined.

Section Accelerator.

Variables log cos : double -> double.
Variable CONST_2PI : double.
Variable A5_CCOL_USE_GEOBM : Z.

Context {curand_gen : Type}.
Variable curandCreateGenerator : curand_gen.
Variable curandSetPseudoRandomGeneratorSeed : curand_gen -> Z -> curand_gen.
Variable curandGenerateUniformDouble : curand_gen -> Z -> (Z -> double) * curand_gen.

(** The content of the storage that [malloc] returns is not specified:
    [malloc_content] is what its cells happen to hold. *)
Variable malloc_content : Z -> double.

(** [while( w >= 1.0 ) { x1 = 2*data->r_cuda[i]-1; x2 = 2*data->r_cuda[i+1]-1;
    w = x1*x1 + x2*x2; }] *)
Fixpoint cuda_while (fuel : nat) (data : random_cuda curand_gen) (i : Z)
    (x1 x2 w : double) : outcome (double * double * double) :=
  if dle dbl_one w then
    match fuel with
    | O => Diverges
    | S fuel' =>
        u1 ← cuda_read data i;
        let x1 := dsub (dmul (double_of_Z 2) u1) (double_of_Z 1) in
        i1 ← int_val (i + 1);
        u2 ← cuda_read data i1;
        let x2 := dsub (dmul (double_of_Z 2) u2) (double_of_Z 1) in
        let w := dadd (dmul x1 x1) (dmul x2 x2) in
        cuda_while fuel' data i x1 x2 w
    end
  else Returns (x1, x2, w).

(** The geometric form over the buffer. *)
Fixpoint cuda_geobm_for (steps fuel : nat) (data : random_cuda curand_gen)
    (n isEven i : Z) (out : gmap Z double) : outcome (gmap Z double) :=
  if i <? n then
    match steps with
    | O => Diverges
    | S steps' =>
        '(x1, x2, w) ← cuda_while fuel data i S754_nan S754_nan dbl_two;
        let w := dsqrt (ddiv (dmul (double_of_Z (-2)) (log w)) w) in
        let out := <[i := dmul x1 w]> out in
        nm2 ← int_val (n - 2);
        out ← (if (i <? nm2) || (0 <? isEven)
               then i1 ← int_val (i + 1); mret (<[i1 := dmul x2 w]> out)
               else mret out);
        i' ← int_val (i + 2);
        cuda_geobm_for steps' fuel data n isEven i' out
    end
  else Returns out.

(** The common form over the buffer. *)
Fixpoint cuda_common_for (steps : nat) (data : random_cuda curand_gen)
    (n isEven i : Z) (out : gmap Z double) : outcome (gmap Z double) :=
  if i <? n then
    match steps with
    | O => Diverges
    | S steps' =>
        x1 ← cuda_read data i;
        i1 ← int_val (i + 1);
        x2 ← cuda_read data i1;
        let w := dsqrt (dmul (double_of_Z (-2)) (log x1)) in
        let s := cos (dmul CONST_2PI x2) in
        let out := <[i := dmul w s]> out in
        nm2 ← int_val (n - 2);
        out ← (if (i <? nm2) || (0 <? isEven)
               then i1 ← int_val (i + 1);
                    if dlt x2 dbl_half
                    then mret (<[i1 := dmul w (dsqrt (dsub (double_of_Z 1) (dmul s s)))]> out)
                    else mret (<[i1 := dmul (dopp w) (dsqrt (dsub (double_of_Z 1) (dmul s s)))]> out)
               else mret out);
        i' ← int_val (i + 2);
        cuda_common_for steps' data n isEven i' out
    end
  else Returns out.

(** [void random_drand48_normal_cuda(random_data* data, int n, double* r)]:
    [n] is converted to [size_t] for the bulk call, which stores [n]
    deviates from the start of the buffer; storing beyond the allocation is
    undefined. *)
Definition random_drand48_normal_cuda (fuel : nat) (data : random_cuda curand_gen)
    (n : Z) (out : gmap Z double) : outcome (random_cuda curand_gen * gmap Z double) :=
  np1 ← int_val (n + 1);
  let isEven := Z.rem np1 2 in
  let count := n mod 2 ^ 64 in
  if count <=? r_cuda_size data then
    let '(vals, gen') := curandGenerateUniformDouble (gen data) count in
    let data' := {| gen := gen';
                    r_cuda := fill_cells vals count (r_cuda data);
                    r_cuda_size := r_cuda_size data |} in
    out' ← (if A5_CCOL_USE_GEOBM =? 1
            then cuda_geobm_for (Z.to_nat n) fuel data' n isEven 0 out
            else cuda_common_for (Z.to_nat n) data' n isEven 0 out);
    Returns (data', out')
  else Undefined.

(** [void random_drand48_normal_cuda_init(random_data* data, int n)]: a
    buffer of [n] doubles, with the content that [malloc] left in it, and a
    generator seeded with 1234. *)
Definition random_drand48_normal_cuda_init (data : random_cuda curand_gen) (n : Z)
    : random_cuda curand_gen :=
  {| gen := curandSetPseudoRandomGeneratorSeed curandCreateGenerator 1234;
     r_cuda := fill_cells malloc_content n ∅;
     r_cuda_size := n |}.


End Accelerator.

(** ** Vocabulary of the further statements *)

(** The step back of the recurrence: [lcg_a_inv] is the inverse of [lcg_a]
    modulo [2^64]. *)
Definition lcg_a_inv : Z := 16133697096952638549.

Definition lcg_prev (t : Z) : Z := wrap64 (lcg_a_inv * (t - lcg_b)).

(** [1 + a + ... + a^(k-1)], the multiplier of [lcg_b] after [k] steps. *)
Fixpoint lcg_geom (k : nat) : Z :=
  match k with
  | O => 0
  | S k' => lcg_a * lcg_geom k' + 1
  end.

Section ScalarNormals.

Variables log cos : double -> double.
Variable CONST_2PI : double.
Variable A5_CCOL_USE_GEOBM : Z.

(** [k] successive calls of [random_lcg_normal]: the values in call order
    and the engine after the last call. *)
Fixpoint normal_seq (k : nat) (fuel : nat) (rdata : random_data)
    : outcome (list double * random_data) :=
  match k with
  | O => Returns ([], rdata)
  | S k' =>
      '(x, rdata') ← random_lcg_normal log cos CONST_2PI A5_CCOL_USE_GEOBM fuel rdata;
      '(xs, rdata'') ← normal_seq k' fuel rdata';
      Returns (x :: xs, rdata'')
  end.

End ScalarNormals.

(** The buffer [out'] is [out] with the list [xs] stored from cell 0 on. *)
Definition stores_list (xs : list double) (out out' : gmap Z double) : Prop :=
  forall j : Z, out' !! j =
    if decide (0 <= j < Z.of_nat (length xs)) then xs !! Z.to_nat j else out !! j.


(** ** Vocabulary of the rejection loop *)

(** The affine recurrence [s' = (a s + b) mod 2^N] of which
    [random_lcg_integer] ([N = 64]) and [drand48] ([N = 48]) are instances,
    and [1 + a + ... + a^(k-1)]. *)
Section AffineRecurrence.

Variables a b : Z.
Variable N : nat.

Definition affine_next (s : Z) : Z := (a * s + b) mod 2 ^ Z.of_nat N.

Definition affine_iter (k : nat) (s : Z) : Z := Nat.iter k affine_next s.

Fixpoint affine_geom (k : nat) : Z :=
  match k with
  | O => 0
  | S k' => a * affine_geom k' + 1
  end.

End AffineRecurrence.

(** One pass of the rejection loop over a source of deviates [draw]: the
    state after the two draws of the pass and the radius of the point that
    they make. *)
Section RejectionLoop.

Context {St : Type}.
Variable draw : St -> double * St.

Definition two_draws (st : St) : St := snd (draw (snd (draw st))).

Definition pair_radius (st : St) : double :=
  polar_radius (fst (draw st)) (fst (draw (snd (draw st)))).

(** The point of the pass, scaled as the geometric form stores it. *)
Definition pair_point (log : double -> double) (st : St) : double * double :=
  polar_pair log (polar_coordinate (fst (draw st)))
    (polar_coordinate (fst (draw (snd (draw st))))) (pair_radius st).

(** The pass [j] from [st] is the first that the test [w >= 1.0] lets
    through. *)
Definition first_accepted (st : St) (j : nat) : Prop :=
  (forall i : nat, (i < j)%nat ->
     dle dbl_one (pair_radius (Nat.iter i two_draws st)) = true) /\
  dle dbl_one (pair_radius (Nat.iter j two_draws st)) = false.

End RejectionLoop.

(** What one call of [random_lcg_uniform] yields. *)
Definition lcg_draw (rdata : random_data) : double * random_data :=
  (uniform_of_word (lcg_next (r rdata)), {| r := lcg_next (r rdata) |}).

(** The radius of the point made of the two draws that follow the state
    word [s]. *)
Definition lcg_pair_radius (s : Z) : double :=
  polar_radius (uniform_of_word (lcg_next s)) (uniform_of_word (lcg_next (lcg_next s))).
(** * Properties *)

(** ** Machine integers *)

Lemma int_val_in_range z :
  INT_MIN <= z <= INT_MAX -> int_val z = Returns z.
Proof.
  intros [Hlo Hhi]. unfold int_val.
  apply Z.leb_le in Hlo. apply Z.leb_le in Hhi. now rewrite Hlo, Hhi.
Qed.

(** Rewrites an [int] expression that stays in range to its value. *)
Ltac int_in_range :=
  rewrite !int_val_in_range by (unfold INT_MIN, INT_MAX in *; lia).

(** ** Rounding to 53 bits *)

Lemma digits2_pos_bounds (m : positive) :
  2 ^ (Zpos (digits2_pos m) - 1) <= Zpos m < 2 ^ Zpos (digits2_pos m).
Proof.
  induction m as [m IH|m IH|]; cbn [digits2_pos].
  - rewrite Pos2Z.inj_succ, (Pos2Z.inj_xI m).
    remember (Zpos (digits2_pos m)) as d eqn:Hd. assert (0 < d) by lia.
    replace (Z.succ d - 1) with (Z.succ (d - 1)) by lia.
    rewrite (Z.pow_succ_r 2 (d - 1)), (Z.pow_succ_r 2 d) by lia. lia.
  - rewrite Pos2Z.inj_succ, (Pos2Z.inj_xO m).
    remember (Zpos (digits2_pos m)) as d eqn:Hd. assert (0 < d) by lia.
    replace (Z.succ d - 1) with (Z.succ (d - 1)) by lia.
    rewrite (Z.pow_succ_r 2 (d - 1)), (Z.pow_succ_r 2 d) by lia. lia.
  - cbn. lia.
Qed.

Lemma digits2_pos_unique (m : positive) (d : Z) :
  2 ^ (d - 1) <= Zpos m < 2 ^ d -> Zpos (digits2_pos m) = d.
Proof.
  intros [Hlo Hhi]. pose proof (digits2_pos_bounds m) as [Hlo' Hhi'].
  set (d' := Zpos (digits2_pos m)) in *.
  assert (0 < d) by (destruct (Z_lt_le_dec 0 d) as [|Hd]; [assumption|];
                    assert (2 ^ d <= 2 ^ 0) by (apply Z.pow_le_mono_r; lia);
                    change (2 ^ 0) with 1 in *; lia).
  destruct (Z.lt_trichotomy d' d) as [Hlt|[Heq|Hgt]]; [|assumption|].
  - assert (2 ^ d' <= 2 ^ (d - 1)) by (apply Z.pow_le_mono_r; lia). lia.
  - assert (2 ^ d <= 2 ^ (d' - 1)) by (apply Z.pow_le_mono_r; lia). lia.
Qed.

Lemma iter_pos_nat {A : Type} (f : A -> A) (p : positive) : forall x,
  SpecFloat.iter_pos f p x = Nat.iter (Pos.to_nat p) f x.
Proof.
  induction p as [p IH|p IH|]; intros x; cbn [SpecFloat.iter_pos].
  - rewrite !IH, Pos2Nat.inj_xI.
    replace (S (2 * Pos.to_nat p)) with (Pos.to_nat p + S (Pos.to_nat p))%nat by lia.
    rewrite Nat.iter_add, Nat.iter_succ_r. reflexivity.
  - rewrite !IH, Pos2Nat.inj_xO.
    replace (2 * Pos.to_nat p)%nat with (Pos.to_nat p + Pos.to_nat p)%nat by lia.
    rewrite Nat.iter_add. reflexivity.
  - reflexivity.
Qed.

Lemma shr_1_nonneg (m : Z) (r s : bool) :
  0 <= m ->
  shr_1 {| shr_m := m; shr_r := r; shr_s := s |} =
    {| shr_m := m / 2; shr_r := Z.odd m; shr_s := r || s |}.
Proof.
  intros Hm. rewrite <- Z.div2_div.
  destruct m as [|[p|p|]|p]; try reflexivity. lia.
Qed.

(** [n + 1] right shifts keep the quotient, the last bit shifted out and
    whether any bit below it was set. *)
Lemma shr_iter (n : nat) (m : Z) :
  0 <= m ->
  Nat.iter (S n) shr_1 {| shr_m := m; shr_r := false; shr_s := false |} =
    {| shr_m := m / 2 ^ Z.of_nat (S n);
       shr_r := Z.odd (m / 2 ^ Z.of_nat n);
       shr_s := negb (m mod 2 ^ Z.of_nat n =? 0) |}.
Proof.
  intros Hm. induction n as [|n IH].
  - cbn [Nat.iter]. rewrite shr_1_nonneg by assumption.
    change (2 ^ Z.of_nat 1) with 2. change (2 ^ Z.of_nat 0) with 1.
    rewrite Z.div_1_r, Z.mod_1_r. reflexivity.
  - change (Nat.iter (S (S n)) shr_1 ?x) with (shr_1 (Nat.iter (S n) shr_1 x)).
    rewrite IH. rewrite shr_1_nonneg by (apply Z.div_pos; lia).
    f_equal.
    + rewrite Z.div_div by lia. f_equal.
      rewrite (Nat2Z.inj_succ (S n)), Z.pow_succ_r by lia. lia.
    + rewrite !Nat2Z.inj_succ, Z.pow_succ_r by lia.
      rewrite (Z.mul_comm 2), Z.rem_mul_r by lia.
      rewrite Zmod_odd.
      pose proof (Z.mod_pos_bound m (2 ^ Z.of_nat n) ltac:(lia)).
      destruct (Z.odd (m / 2 ^ Z.of_nat n)); cbn [orb].
      * symmetry. apply negb_true_iff, Z.eqb_neq. lia.
      * rewrite Z.mul_0_r, Z.add_0_r. reflexivity.
Qed.

Lemma round_shr (k : positive) (m : Z) :
  0 <= m ->
  let R := SpecFloat.iter_pos shr_1 k {| shr_m := m; shr_r := false; shr_s := false |} in
  round_nearest_even (shr_m R) (loc_of_shr_record R) = rnd_ne m (Zpos k).
Proof.
  intros Hm R. subst R. rewrite iter_pos_nat.
  destruct (Pos2Nat.is_succ k) as [n Hn]. rewrite Hn, shr_iter by assumption.
  assert (Hk : Z.of_nat (S n) = Zpos k) by (rewrite <- Hn; apply positive_nat_Z).
  rewrite Hk. assert (Hk' : Z.of_nat n = Zpos k - 1) by lia. rewrite Hk'.
  unfold rnd_ne. cbn [shr_m loc_of_shr_record].
  set (h := 2 ^ (Zpos k - 1)).
  assert (Hh : 0 < h) by (apply Z.pow_pos_nonneg; lia).
  assert (Hpow : 2 ^ Zpos k = h * 2).
  { unfold h. replace (Zpos k) with (Z.succ (Zpos k - 1)) at 1 by lia.
    rewrite Z.pow_succ_r by lia. lia. }
  rewrite Hpow, Z.rem_mul_r by lia. rewrite Zmod_odd.
  pose proof (Z.mod_pos_bound m h Hh) as Hlow.
  destruct (Z.odd (m / h)) eqn:Hodd, (Z.eqb_spec (m mod h) 0) as [Hz|Hz];
    cbn [negb round_nearest_even].
  - rewrite Hz. replace (0 + h * 1) with h by lia.
    rewrite Z.ltb_irrefl, Z.eqb_refl. reflexivity.
  - replace (m mod h + h * 1 <? h) with false by (symmetry; apply Z.ltb_ge; lia).
    replace (m mod h + h * 1 =? h) with false by (symmetry; apply Z.eqb_neq; lia).
    reflexivity.
  - replace (m mod h + h * 0 <? h) with true by (symmetry; apply Z.ltb_lt; lia).
    reflexivity.
  - replace (m mod h + h * 0 <? h) with true by (symmetry; apply Z.ltb_lt; lia).
    reflexivity.
Qed.

Lemma fexp_normal (e : Z) : -1021 <= e -> fexp 53 1024 e = e - 53.
Proof. intros He. unfold fexp, emin. lia. Qed.

Lemma shr_fexp_53 (m : positive) (e : Z) :
  Zpos (digits2_pos m) = 53 -> -1074 <= e ->
  shr_fexp 53 1024 (Zpos m) e loc_Exact =
    ({| shr_m := Zpos m; shr_r := false; shr_s := false |}, e).
Proof.
  intros Hd He. unfold shr_fexp. cbn [Zdigits2 shr_record_of_loc].
  rewrite Hd, fexp_normal by lia.
  replace (53 + e - 53 - e) with 0 by lia. reflexivity.
Qed.

Lemma shr_fexp_wide (m : positive) (e : Z) (k : positive) :
  Zpos (digits2_pos m) = 53 + Zpos k -> -1074 <= e + Zpos k ->
  shr_fexp 53 1024 (Zpos m) e loc_Exact =
    (SpecFloat.iter_pos shr_1 k {| shr_m := Zpos m; shr_r := false; shr_s := false |}, e + Zpos k).
Proof.
  intros Hd He. unfold shr_fexp. cbn [Zdigits2 shr_record_of_loc].
  rewrite Hd, fexp_normal by lia.
  replace (53 + Zpos k + e - 53 - e) with (Zpos k) by lia. reflexivity.
Qed.

(** A 53-bit significand in the normal range is kept as it is. *)
Lemma binary_round_aux_53 (s : bool) (m : positive) (e : Z) :
  Zpos (digits2_pos m) = 53 -> -1074 <= e ->
  binary_round_aux 53 1024 s (Zpos m) e loc_Exact =
    if e <=? 971 then S754_finite s m e else S754_infinity s.
Proof.
  intros Hd He. unfold binary_round_aux.
  rewrite shr_fexp_53 by assumption. cbn [shr_m loc_of_shr_record round_nearest_even].
  rewrite shr_fexp_53 by assumption. cbn [shr_m]. reflexivity.
Qed.

(** The quotient of a [(53+k)]-bit number by [2^k] has 53 bits; rounding
    can push it up to [2^53]. *)
Lemma rnd_ne_bounds (m : positive) (k : positive) :
  Zpos (digits2_pos m) = 53 + Zpos k ->
  2 ^ 52 <= rnd_ne (Zpos m) (Zpos k) <= 2 ^ 53.
Proof.
  intros Hd. pose proof (digits2_pos_bounds m) as [Hlo Hhi]. rewrite Hd in Hlo, Hhi.
  replace (53 + Zpos k - 1) with (52 + Zpos k) in Hlo by lia.
  rewrite Z.pow_add_r in Hlo, Hhi by lia.
  assert (Hp : 0 < 2 ^ Zpos k) by (apply Z.pow_pos_nonneg; lia).
  assert (Hq : 2 ^ 52 <= Zpos m / 2 ^ Zpos k < 2 ^ 53).
  { split.
    - apply Z.div_le_lower_bound; lia.
    - apply Z.div_lt_upper_bound; lia. }
  unfold rnd_ne.
  destruct (_ <? _); [lia|]. destruct (_ =? _); [destruct (Z.even _); lia|lia].
Qed.

(** Rounding of a wider significand in the normal range. *)
Lemma binary_round_aux_wide (s : bool) (m : positive) (e : Z) (k : positive) :
  Zpos (digits2_pos m) = 53 + Zpos k -> -1074 <= e + Zpos k ->
  binary_round_aux 53 1024 s (Zpos m) e loc_Exact =
    let q := rnd_ne (Zpos m) (Zpos k) in
    if q =? 2 ^ 53
    then (if e + Zpos k + 1 <=? 971
          then S754_finite s 4503599627370496 (e + Zpos k + 1) else S754_infinity s)
    else (if e + Zpos k <=? 971
          then S754_finite s (Z.to_pos q) (e + Zpos k) else S754_infinity s).
Proof.
  intros Hd He. unfold binary_round_aux.
  rewrite (shr_fexp_wide m e k) by assumption.
  rewrite round_shr by lia.
  pose proof (rnd_ne_bounds m k Hd) as Hq.
  set (q := rnd_ne (Zpos m) (Zpos k)) in *. cbv zeta.
  destruct (Z.eqb_spec q (2 ^ 53)) as [Heq|Hne].
  - rewrite Heq. change (2 ^ 53) with (Zpos 9007199254740992).
    rewrite (shr_fexp_wide 9007199254740992 (e + Zpos k) 1) by (reflexivity || lia).
    reflexivity.
  - destruct q as [|q|q]; try (change (2 ^ 52) with 4503599627370496 in Hq; lia).
    assert (Hdq : Zpos (digits2_pos q) = 53).
    { apply digits2_pos_unique. change (53 - 1) with 52. lia. }
    rewrite shr_fexp_53 by (assumption || lia). cbn [shr_m]. reflexivity.
Qed.

Lemma pos_iter_xO (m n : positive) : Zpos (Pos.iter xO m n) = Zpos m * 2 ^ Zpos n.
Proof.
  induction n as [|n IH] using Pos.peano_ind.
  - cbn [Pos.iter]. rewrite Pos2Z.inj_xO. change (2 ^ 1) with 2. lia.
  - rewrite Pos.iter_succ, Pos2Z.inj_xO, IH, Pos2Z.inj_succ, Z.pow_succ_r by lia. lia.
Qed.

Lemma digits2_pos_shift (m n : positive) :
  Zpos (digits2_pos (Pos.iter xO m n)) = Zpos (digits2_pos m) + Zpos n.
Proof.
  apply digits2_pos_unique. rewrite pos_iter_xO.
  pose proof (digits2_pos_bounds m) as [Hlo Hhi].
  replace (Zpos (digits2_pos m) + Zpos n - 1) with ((Zpos (digits2_pos m) - 1) + Zpos n) by lia.
  rewrite !Z.pow_add_r by lia.
  assert (0 < 2 ^ Zpos n) by (apply Z.pow_pos_nonneg; lia). nia.
Qed.

Lemma binary_round_aux_normal (s : bool) (m : positive) (e : Z) :
  let d := Zpos (digits2_pos m) in
  53 <= d -> -1074 <= d + e - 53 -> d + e - 52 <= 971 ->
  normal_result s (d + e - 53) (d + e - 52) (binary_round_aux 53 1024 s (Zpos m) e loc_Exact).
Proof.
  intros d Hd Hlo Hhi. unfold normal_result.
  destruct (Z.eq_dec d 53) as [H53|H53].
  - rewrite binary_round_aux_53 by (fold d; lia).
    replace (e <=? 971) with true by (symmetry; apply Z.leb_le; lia).
    exists m, e. split; [reflexivity|]. fold d. lia.
  - assert (Hk : d = 53 + Zpos (Z.to_pos (d - 53))) by (rewrite Z2Pos.id; lia).
    rewrite (binary_round_aux_wide s m e (Z.to_pos (d - 53))) by (fold d; lia).
    pose proof (rnd_ne_bounds m (Z.to_pos (d - 53)) Hk) as Hq.
    cbv zeta. set (q := rnd_ne _ _) in *. rewrite Z2Pos.id by lia.
    destruct (Z.eqb_spec q (2 ^ 53)) as [Heq|Hne].
    + replace (e + (d - 53) + 1 <=? 971) with true by (symmetry; apply Z.leb_le; lia).
      eexists _, _. split; [reflexivity|]. split; [reflexivity|lia].
    + replace (e + (d - 53) <=? 971) with true by (symmetry; apply Z.leb_le; lia).
      eexists _, _. split; [reflexivity|]. split; [|lia].
      apply digits2_pos_unique. rewrite Z2Pos.id by (change (2 ^ 52) with 4503599627370496 in Hq; lia).
      change (53 - 1) with 52. lia.
Qed.

Lemma binary_round_normal (s : bool) (m : positive) (e : Z) :
  let d := Zpos (digits2_pos m) in
  -1074 <= d + e - 53 -> d + e - 52 <= 971 ->
  normal_result s (d + e - 53) (d + e - 52) (binary_round 53 1024 s m e).
Proof.
  intros d Hlo Hhi. unfold binary_round. fold d.
  rewrite fexp_normal by lia. unfold shl_align.
  destruct (d + e - 53 - e) as [|k|k] eqn:Hk.
  - apply binary_round_aux_normal; fold d; lia.
  - apply binary_round_aux_normal; fold d; lia.
  - pose proof (digits2_pos_shift m k) as Hd. fold d in Hd.
    assert (Hd' : Zpos (digits2_pos (Pos.iter xO m k)) = 53) by lia.
    rewrite binary_round_aux_53 by (assumption || lia).
    replace (d + e - 53 <=? 971) with true by (symmetry; apply Z.leb_le; lia).
    eexists _, _. split; [reflexivity|]. split; [assumption|lia].
Qed.

Lemma digits2_pos_le (m : positive) (D : Z) : Zpos m < 2 ^ D -> Zpos (digits2_pos m) <= D.
Proof.
  intros Hm. pose proof (digits2_pos_bounds m) as [Hlo _].
  destruct (Z_le_gt_dec (Zpos (digits2_pos m)) D) as [|Hgt]; [assumption|].
  assert (2 ^ D <= 2 ^ (Zpos (digits2_pos m) - 1)).
  { destruct (Z_lt_le_dec D 0).
    - rewrite Z.pow_neg_r by assumption. apply Z.pow_nonneg. lia.
    - apply Z.pow_le_mono_r; lia. }
  lia.
Qed.

(** ** Operations on normal doubles *)

Lemma div_eucl_exact (q b : Z) : 0 < b -> Z.div_eucl (q * b) b = (q, 0).
Proof.
  intros Hb. destruct (Z.div_eucl (q * b) b) as [q' r'] eqn:E.
  assert (Hq : q' = q * b / b) by (unfold Z.div; now rewrite E).
  assert (Hr : r' = (q * b) mod b) by (unfold Z.modulo; now rewrite E).
  rewrite Z.div_mul in Hq by lia. rewrite Z.mod_mul in Hr by lia.
  now subst.
Qed.

Lemma rnd_ne_exact (q : Z) (k : positive) : rnd_ne (q * 2 ^ Zpos k) (Zpos k) = q.
Proof.
  unfold rnd_ne.
  assert (0 < 2 ^ Zpos k) by (apply Z.pow_pos_nonneg; lia).
  assert (0 < 2 ^ (Zpos k - 1)) by (apply Z.pow_pos_nonneg; lia).
  rewrite Z.div_mul, Z.mod_mul by lia.
  replace (0 <? 2 ^ (Zpos k - 1)) with true by (symmetry; apply Z.ltb_lt; lia).
  reflexivity.
Qed.

(** A product of a normal significand by a power of two is rounded back to
    that significand. *)
Lemma binary_round_aux_scaled (s : bool) (m : positive) (k : positive) (e : Z) :
  Zpos (digits2_pos m) = 53 -> -1074 <= e + Zpos k -> e + Zpos k <= 971 ->
  binary_round_aux 53 1024 s (Zpos (Pos.iter xO m k)) e loc_Exact =
    S754_finite s m (e + Zpos k).
Proof.
  intros Hd Hlo Hhi.
  rewrite (binary_round_aux_wide s _ e k)
    by (rewrite ?digits2_pos_shift; lia).
  cbv zeta. rewrite pos_iter_xO, rnd_ne_exact.
  pose proof (digits2_pos_bounds m) as Hm. rewrite Hd in Hm.
  replace (Zpos m =? 2 ^ 53) with false by (symmetry; apply Z.eqb_neq; lia).
  replace (e + Zpos k <=? 971) with true by (symmetry; apply Z.leb_le; lia).
  reflexivity.
Qed.

(** Division by [2^64] only lowers the exponent. *)
Lemma ddiv_by_two64 (s : bool) (m : positive) (e : Z) :
  Zpos (digits2_pos m) = 53 -> -1009 <= e <= 1035 ->
  ddiv (S754_finite s m e) (S754_finite false 4503599627370496 12) =
    S754_finite s m (e - 64).
Proof.
  intros Hd He. unfold ddiv, prec, emax, SFdiv, SFdiv_core_binary.
  cbn [Zdigits2]. rewrite Hd. change (Zpos (digits2_pos 4503599627370496)) with 53.
  rewrite fexp_normal by lia.
  replace (Z.min (53 + e - (53 + 12) - 53) (e - 12)) with (e - 65) by lia.
  replace (e - 12 - (e - 65)) with 53 by lia.
  rewrite Z.shiftl_mul_pow2 by lia.
  replace (Zpos m * 2 ^ 53) with ((2 * Zpos m) * 4503599627370496) by lia.
  rewrite div_eucl_exact by lia.
  change (new_location 4503599627370496 0) with loc_Exact.
  rewrite xorb_false_r.
  change (2 * Zpos m) with (Zpos (Pos.iter xO m 1)).
  rewrite binary_round_aux_scaled by (assumption || lia).
  f_equal. lia.
Qed.

(** Multiplication by [2.0] only raises the exponent. *)
Lemma dmul_two (s : bool) (m : positive) (e : Z) :
  Zpos (digits2_pos m) = 53 -> -1075 <= e <= 970 ->
  dmul (double_of_Z 2) (S754_finite s m e) = S754_finite s m (e + 1).
Proof.
  intros Hd He. change (double_of_Z 2) with dbl_two.
  unfold dmul, prec, emax, dbl_two, SFmul. rewrite xorb_false_l.
  replace (Zpos (4503599627370496 * m)) with (Zpos (Pos.iter xO m 52))
    by (rewrite pos_iter_xO; lia).
  rewrite binary_round_aux_scaled by (assumption || lia).
  f_equal. lia.
Qed.

Lemma digits2_pos_ge (m : positive) (D : Z) : 2 ^ (D - 1) <= Zpos m -> D <= Zpos (digits2_pos m).
Proof.
  intros Hm. pose proof (digits2_pos_bounds m) as [_ Hhi].
  destruct (Z_le_gt_dec D (Zpos (digits2_pos m))) as [|Hgt]; [assumption|].
  assert (2 ^ Zpos (digits2_pos m) <= 2 ^ (D - 1)) by (apply Z.pow_le_mono_r; lia).
  lia.
Qed.

Lemma shl_align_fst (m : positive) (e ez : Z) :
  ez <= e -> Zpos (fst (shl_align m e ez)) = Zpos m * 2 ^ (e - ez).
Proof.
  intros He. unfold shl_align.
  destruct (ez - e) as [|k|k] eqn:Hk; cbn [fst]; try lia.
  - replace (e - ez) with 0 by lia. lia.
  - rewrite pos_iter_xO. f_equal. f_equal. lia.
Qed.

Lemma normal_result_weaken (s : bool) (lo hi lo' hi' : Z) (x : spec_float) :
  lo' <= lo -> hi <= hi' -> normal_result s lo hi x -> normal_result s lo' hi' x.
Proof.
  intros Hlo Hhi (m & e & -> & Hd & He). exists m, e. repeat split; (assumption || lia).
Qed.

(** The sum or difference of two aligned significands, when it is not zero,
    is rounded to a normal double. *)
Lemma binary_normalize_normal (z ez D : Z) :
  z <> 0 -> Z.abs z < 2 ^ D -> -1020 <= ez -> D + ez <= 1023 ->
  normal_result (z <? 0) (ez - 52) (D + ez - 52) (binary_normalize 53 1024 z ez false).
Proof.
  intros Hz Habs Hlo Hhi.
  destruct z as [|p|p]; [congruence| |]; cbn [binary_normalize];
    change (Z.abs _) with (Zpos p) in Habs;
    pose proof (digits2_pos_le p D Habs);
    assert (0 < Zpos (digits2_pos p)) by lia;
    (eapply normal_result_weaken; [| |apply binary_round_normal]; lia).
Qed.

(** [t - 1] for a normal [t >= 0] below [4]: zero only for [t = 1]. *)
Lemma dsub_one (m : positive) (e : Z) :
  Zpos (digits2_pos m) = 53 -> -115 <= e <= -51 ->
  (m = 4503599627370496%positive /\ e = -52 /\
   dsub (S754_finite false m e) (double_of_Z 1) = S754_zero false) \/
  (exists s, normal_result s (-167) 13 (dsub (S754_finite false m e) (double_of_Z 1))).
Proof.
  intros Hd He. change (double_of_Z 1) with dbl_one.
  unfold dsub, prec, emax, dbl_one, SFsub, cond_Zopp.
  set (ez := Z.min e (-52)).
  rewrite !shl_align_fst by (unfold ez; lia).
  pose proof (digits2_pos_bounds m) as Hm. rewrite Hd in Hm.
  change (2 ^ (53 - 1)) with 4503599627370496 in Hm.
  change (2 ^ 53) with 9007199254740992 in Hm.
  set (z := Zpos m * 2 ^ (e - ez) - 4503599627370496 * 2 ^ (-52 - ez)).
  assert (Ha : 0 < 2 ^ (e - ez) <= 2 ^ 64).
  { split; [apply Z.pow_pos_nonneg; unfold ez; lia|].
    apply Z.pow_le_mono_r; unfold ez; lia. }
  assert (Hb : 0 < 2 ^ (-52 - ez) <= 2 ^ 63).
  { split; [apply Z.pow_pos_nonneg; unfold ez; lia|].
    apply Z.pow_le_mono_r; unfold ez; lia. }
  change (2 ^ 64) with 18446744073709551616 in Ha.
  change (2 ^ 63) with 9223372036854775808 in Hb.
  destruct (Z.eq_dec z 0) as [Hz|Hz].
  - left. rewrite Hz. cbn [binary_normalize].
    destruct (Z_le_gt_dec (-52) e) as [Hge|Hlt].
    + assert (Hez : ez = -52) by (unfold ez; lia).
      unfold z in Hz. rewrite Hez in Hz.
      replace (-52 - -52) with 0 in Hz by lia. change (2 ^ 0) with 1 in Hz.
      destruct (Z.eq_dec e (-52)) as [->|Hne].
      * change (2 ^ (-52 - -52)) with 1 in Hz.
        repeat split. apply Pos2Z.inj. lia.
      * assert (2 ^ 1 <= 2 ^ (e - -52)) by (apply Z.pow_le_mono_r; lia).
        change (2 ^ 1) with 2 in *. nia.
    + assert (Hez : ez = e) by (unfold ez; lia).
      unfold z in Hz. rewrite Hez in Hz.
      replace (e - e) with 0 in Hz by lia. change (2 ^ 0) with 1 in Hz.
      assert (2 ^ 1 <= 2 ^ (-52 - e)) by (apply Z.pow_le_mono_r; lia).
      change (2 ^ 1) with 2 in *. nia.
  - right. exists (z <? 0).
    eapply normal_result_weaken; [| |apply (binary_normalize_normal z ez 117)];
      try (unfold ez; lia); try assumption.
    change (2 ^ 117) with (9007199254740992 * 18446744073709551616).
    unfold z. nia.
Qed.

(** The square of a normal double of moderate exponent is a positive
    normal double. *)
Lemma dmul_square (s : bool) (x : spec_float) :
  normal_result s (-167) 13 x -> normal_result false (-282) 80 (dmul x x).
Proof.
  intros (m & e & -> & Hd & He).
  unfold dmul, prec, emax, SFmul. rewrite xorb_nilpotent.
  pose proof (digits2_pos_bounds m) as Hm. rewrite Hd in Hm.
  change (2 ^ (53 - 1)) with 4503599627370496 in Hm.
  change (2 ^ 53) with 9007199254740992 in Hm.
  assert (Hlo : 105 <= Zpos (digits2_pos (m * m))).
  { apply digits2_pos_ge. rewrite Pos2Z.inj_mul.
    change (2 ^ (105 - 1)) with (4503599627370496 * 4503599627370496). nia. }
  assert (Hhi : Zpos (digits2_pos (m * m)) <= 106).
  { apply digits2_pos_le. rewrite Pos2Z.inj_mul.
    change (2 ^ 106) with (9007199254740992 * 9007199254740992). nia. }
  eapply normal_result_weaken; [| |apply binary_round_aux_normal]; lia.
Qed.

(** The sum of two positive normal doubles of moderate exponent is a
    positive normal double. *)
Lemma dadd_positive (x y : spec_float) :
  normal_result false (-282) 80 x -> normal_result false (-282) 80 y ->
  normal_result false (-334) 500 (dadd x y).
Proof.
  intros (mx & ex & -> & Hdx & Hex) (my & ey & -> & Hdy & Hey).
  unfold dadd, prec, emax, SFadd, cond_Zopp.
  set (ez := Z.min ex ey).
  rewrite !shl_align_fst by (unfold ez; lia).
  pose proof (digits2_pos_bounds mx) as Hmx. rewrite Hdx in Hmx.
  pose proof (digits2_pos_bounds my) as Hmy. rewrite Hdy in Hmy.
  change (2 ^ 53) with 9007199254740992 in *.
  assert (Ha : 0 < 2 ^ (ex - ez) <= 2 ^ 362).
  { split; [apply Z.pow_pos_nonneg; unfold ez; lia|].
    apply Z.pow_le_mono_r; unfold ez; lia. }
  assert (Hb : 0 < 2 ^ (ey - ez) <= 2 ^ 362).
  { split; [apply Z.pow_pos_nonneg; unfold ez; lia|].
    apply Z.pow_le_mono_r; unfold ez; lia. }
  set (z := Zpos mx * 2 ^ (ex - ez) + Zpos my * 2 ^ (ey - ez)).
  assert (Hz : 0 < z) by (unfold z; nia).
  replace false with (z <? 0) at 1 by (apply Z.ltb_ge; lia).
  eapply normal_result_weaken; [| |apply (binary_normalize_normal z ez 416)];
    try (unfold ez; lia).
  rewrite Z.abs_eq by lia.
  replace (2 ^ 416) with (2 * (9007199254740992 * 2 ^ 362)).
  - unfold z. nia.
  - change 9007199254740992 with (2 ^ 53). rewrite <- Z.pow_add_r by lia.
    rewrite <- Z.pow_succ_r by lia. reflexivity.
Qed.

(** ** Conversion of a state word *)

Lemma binary_round_wide (s : bool) (p k : positive) :
  Zpos (digits2_pos p) = 53 + Zpos k -> Zpos k <= 971 ->
  binary_round 53 1024 s p 0 =
    let q := rnd_ne (Zpos p) (Zpos k) in
    if q =? 2 ^ 53
    then (if Zpos k + 1 <=? 971
          then S754_finite s 4503599627370496 (Zpos k + 1) else S754_infinity s)
    else (if Zpos k <=? 971
          then S754_finite s (Z.to_pos q) (Zpos k) else S754_infinity s).
Proof.
  intros Hd Hk. unfold binary_round. rewrite Hd, fexp_normal by lia.
  unfold shl_align. replace (53 + Zpos k + 0 - 53 - 0) with (Zpos k) by lia.
  rewrite (binary_round_aux_wide s p 0 k) by (assumption || lia).
  reflexivity.
Qed.

(** The three facts about rounding that the sampler depends on: which words
    round up to [2^64], and which words round to [2^63]. *)
Lemma rnd_ne_11_carry (x : Z) :
  2 ^ 63 <= x < 2 ^ 64 -> (rnd_ne x 11 = 2 ^ 53 <-> 2 ^ 64 - 1024 <= x).
Proof.
  intros Hx. unfold rnd_ne. change (2 ^ 11) with 2048. change (2 ^ (11 - 1)) with 1024.
  change (2 ^ 63) with 9223372036854775808 in Hx.
  change (2 ^ 64) with 18446744073709551616 in *.
  change (2 ^ 53) with 9007199254740992.
  pose proof (Z.div_mod x 2048 ltac:(lia)) as Hdm.
  pose proof (Z.mod_pos_bound x 2048 ltac:(lia)) as Hrem.
  set (q := x / 2048) in *. set (rem := x mod 2048) in *.
  destruct (Z.ltb_spec rem 1024); [lia|].
  destruct (Z.eqb_spec rem 1024); [|lia].
  destruct (Z.even q) eqn:Hev; [|lia].
  split; [lia|]. intros Hx'. assert (q = 9007199254740991) by lia.
  subst q. rewrite H0 in Hev. discriminate Hev.
Qed.

Lemma rnd_ne_11_low (x : Z) :
  2 ^ 63 <= x < 2 ^ 64 -> rnd_ne x 11 = 2 ^ 52 -> x <= 2 ^ 63 + 1024.
Proof.
  intros Hx. unfold rnd_ne. change (2 ^ 11) with 2048. change (2 ^ (11 - 1)) with 1024.
  change (2 ^ 63) with 9223372036854775808 in *.
  change (2 ^ 64) with 18446744073709551616 in *.
  change (2 ^ 52) with 4503599627370496.
  pose proof (Z.div_mod x 2048 ltac:(lia)) as Hdm.
  pose proof (Z.mod_pos_bound x 2048 ltac:(lia)) as Hrem.
  set (q := x / 2048) in *. set (rem := x mod 2048) in *.
  destruct (Z.ltb_spec rem 1024); [lia|].
  destruct (Z.eqb_spec rem 1024); [|lia].
  destruct (Z.even q) eqn:Hev; lia.
Qed.

Lemma rnd_ne_10_carry (x : Z) :
  2 ^ 62 <= x < 2 ^ 63 -> rnd_ne x 10 = 2 ^ 53 -> 2 ^ 63 - 512 <= x.
Proof.
  intros Hx. unfold rnd_ne. change (2 ^ 10) with 1024. change (2 ^ (10 - 1)) with 512.
  change (2 ^ 62) with 4611686018427387904 in *.
  change (2 ^ 63) with 9223372036854775808 in *.
  change (2 ^ 53) with 9007199254740992.
  pose proof (Z.div_mod x 1024 ltac:(lia)) as Hdm.
  pose proof (Z.mod_pos_bound x 1024 ltac:(lia)) as Hrem.
  set (q := x / 1024) in *. set (rem := x mod 1024) in *.
  destruct (Z.ltb_spec rem 512); [lia|].
  destruct (Z.eqb_spec rem 512); [|lia].
  destruct (Z.even q) eqn:Hev; lia.
Qed.

Lemma double_of_UINT64_MAX :
  double_of_Z UINT64_MAX = S754_finite false 4503599627370496 12.
Proof. reflexivity. Qed.

Lemma uniform_of_word_0 : uniform_of_word 0 = dbl_zero.
Proof. reflexivity. Qed.

(** The deviate of a non-zero state word: a normal double of exponent at
    most [-52]; the exponent [-52] is that of [1.0] and is reached by the
    topmost 1024 words, and [0.5] comes from the words around [2^63]. *)
Lemma uniform_of_word_pos (x : Z) :
  0 < x < 2 ^ 64 ->
  exists m e,
    uniform_of_word x = S754_finite false m e /\
    Zpos (digits2_pos m) = 53 /\ -116 <= e <= -52 /\
    (e = -52 -> m = 4503599627370496%positive) /\
    (e = -52 <-> 2 ^ 64 - 1024 <= x) /\
    (m = 4503599627370496%positive -> e = -53 -> 2 ^ 63 - 512 <= x <= 2 ^ 63 + 1024).
Proof.
  intros Hx. destruct x as [|p|p]; try lia.
  unfold uniform_of_word. rewrite double_of_UINT64_MAX.
  unfold double_of_Z, prec, emax, binary_normalize.
  pose proof (digits2_pos_bounds p) as Hp.
  pose proof (digits2_pos_le p 64 ltac:(lia)) as Hd64.
  change (2 ^ 64) with 18446744073709551616 in *.
  change (2 ^ 63) with 9223372036854775808 in *.
  destruct (Z.eq_dec (Zpos (digits2_pos p)) 64) as [Hd|Hd];
    [|destruct (Z.eq_dec (Zpos (digits2_pos p)) 63) as [Hd'|Hd']].
  - rewrite Hd in Hp. change (2 ^ (64 - 1)) with 9223372036854775808 in Hp.
    rewrite (binary_round_wide false p 11) by (assumption || lia). cbv zeta.
    pose proof (rnd_ne_bounds p 11 Hd) as Hq.
    pose proof (rnd_ne_11_carry (Zpos p) ltac:(change (2 ^ 63) with 9223372036854775808;
      change (2 ^ 64) with 18446744073709551616; lia)) as Hcarry.
    pose proof (rnd_ne_11_low (Zpos p) ltac:(change (2 ^ 63) with 9223372036854775808;
      change (2 ^ 64) with 18446744073709551616; lia)) as Hlow.
    change (2 ^ 64) with 18446744073709551616 in *.
    change (2 ^ 63) with 9223372036854775808 in *.
    change (2 ^ 53) with 9007199254740992 in *.
    change (2 ^ 52) with 4503599627370496 in *.
    set (q := rnd_ne (Zpos p) 11) in *.
    destruct (Z.eqb_spec q 9007199254740992) as [Hq53|Hq53].
    + change (11 + 1 <=? 971) with true. cbv iota.
      rewrite ddiv_by_two64 by (reflexivity || lia).
      eexists _, _. split; [reflexivity|]. split; [reflexivity|].
      change (12 - 64) with (-52). intuition lia.
    + change (11 <=? 971) with true. cbv iota.
      assert (Hdq : Zpos (digits2_pos (Z.to_pos q)) = 53).
      { apply digits2_pos_unique. rewrite Z2Pos.id by lia.
        change (2 ^ (53 - 1)) with 4503599627370496.
        change (2 ^ 53) with 9007199254740992. lia. }
      rewrite ddiv_by_two64 by (assumption || lia).
      eexists _, _. split; [reflexivity|]. split; [assumption|].
      change (11 - 64) with (-53). split; [lia|]. split; [lia|]. split; [lia|].
      intros Hm _. split; [lia|]. apply Hlow.
      rewrite <- (Z2Pos.id q) by lia. now rewrite Hm.
  - rewrite Hd' in Hp. change (2 ^ (63 - 1)) with 4611686018427387904 in Hp.
    change (2 ^ 63) with 9223372036854775808 in Hp.
    rewrite (binary_round_wide false p 10) by (assumption || lia). cbv zeta.
    pose proof (rnd_ne_bounds p 10 Hd') as Hq.
    pose proof (rnd_ne_10_carry (Zpos p) ltac:(change (2 ^ 62) with 4611686018427387904;
      change (2 ^ 63) with 9223372036854775808; lia)) as Hcarry.
    change (2 ^ 63) with 9223372036854775808 in *.
    change (2 ^ 53) with 9007199254740992 in *.
    change (2 ^ 52) with 4503599627370496 in *.
    set (q := rnd_ne (Zpos p) 10) in *.
    destruct (Z.eqb_spec q 9007199254740992) as [Hq53|Hq53].
    + change (10 + 1 <=? 971) with true. cbv iota.
      rewrite ddiv_by_two64 by (reflexivity || lia).
      eexists _, _. split; [reflexivity|]. split; [reflexivity|].
      change (10 + 1 - 64) with (-53). intuition lia.
    + change (10 <=? 971) with true. cbv iota.
      assert (Hdq : Zpos (digits2_pos (Z.to_pos q)) = 53).
      { apply digits2_pos_unique. rewrite Z2Pos.id by lia.
        change (2 ^ (53 - 1)) with 4503599627370496.
        change (2 ^ 53) with 9007199254740992. lia. }
      rewrite ddiv_by_two64 by (assumption || lia).
      eexists _, _. split; [reflexivity|]. split; [assumption|].
      change (10 - 64) with (-54). intuition lia.
  - assert (Hd62 : Zpos (digits2_pos p) <= 62) by lia.
    assert (Hx62 : Zpos p < 2 ^ 62).
    { eapply Z.lt_le_trans; [apply Hp|]. apply Z.pow_le_mono_r; lia. }
    change (2 ^ 62) with 4611686018427387904 in Hx62.
    destruct (binary_round_normal false p 0 ltac:(lia) ltac:(lia))
      as (m & e & -> & Hm & He).
    rewrite ddiv_by_two64 by (assumption || lia).
    eexists _, _. split; [reflexivity|]. split; [assumption|].
    intuition lia.
Qed.

(** ** The uniform sampler *)

Lemma lcg_iter_S k s : lcg_iter (S k) s = lcg_next (lcg_iter k s).
Proof. reflexivity. Qed.

Lemma lcg_iter_next k s : lcg_iter k (lcg_next s) = lcg_iter (S k) s.
Proof.
  induction k as [|k IH]; [reflexivity|].
  now rewrite !lcg_iter_S, IH.
Qed.

Lemma random_lcg_integer_eq rdata :
  random_lcg_integer rdata = (lcg_next (r rdata), {| r := lcg_next (r rdata) |}).
Proof. reflexivity. Qed.

(** One unfolding of the loop of the uniform batch. *)
Lemma uniform_loop_step steps n i rdata out :
  i < n ->
  uniform_loop (S steps) n i rdata out =
    (i' ← int_val (i + 1);
     uniform_loop steps n i' {| r := lcg_next (r rdata) |}
       (<[i := uniform_of_word (lcg_next (r rdata))]> out)).
Proof.
  intros Hi. cbn [uniform_loop].
  apply Z.ltb_lt in Hi. rewrite Hi. reflexivity.
Qed.

Lemma uniform_loop_exit steps n i rdata out :
  n <= i -> uniform_loop steps n i rdata out = Returns (rdata, out).
Proof.
  intros Hi. apply Z.ltb_ge in Hi.
  destruct steps; cbn [uniform_loop]; now rewrite Hi.
Qed.

(** The loop of the uniform batch always returns; it leaves the state word
    [n - i] steps further and fills [out[i..n)] with the deviates of the
    successive state words. *)
Lemma uniform_loop_spec steps : forall n i rdata (out : gmap Z double),
  0 <= i -> n <= INT_MAX -> (Z.to_nat (n - i) <= steps)%nat ->
  exists out' : gmap Z double,
    uniform_loop steps n i rdata out =
      Returns ({| r := lcg_iter (Z.to_nat (n - i)) (r rdata) |}, out') /\
    forall j, out' !! j =
      if decide (i <= j < n)
      then Some (uniform_of_word (lcg_iter (S (Z.to_nat (j - i))) (r rdata)))
      else out !! j.
Proof.
  induction steps as [|steps IH]; intros n i rdata out Hi Hn Hsteps.
  - assert (n <= i) by lia.
    exists out. rewrite uniform_loop_exit by lia.
    replace (Z.to_nat (n - i)) with 0%nat by lia.
    destruct rdata as [s]. split; [reflexivity|].
    intros j. case_decide; [lia|reflexivity].
  - destruct (Z_lt_le_dec i n) as [Hlt|Hge].
    + rewrite uniform_loop_step by assumption.
      int_in_range.
      cbn [mbind outcome_bind].
      destruct (IH n (i + 1) {| r := lcg_next (r rdata) |}
                  (<[i := uniform_of_word (lcg_next (r rdata))]> out))
        as (out' & Hrun & Hout); [lia|lia|lia|].
      exists out'. split.
      * rewrite Hrun. cbn [r]. rewrite lcg_iter_next.
        replace (S (Z.to_nat (n - (i + 1)))) with (Z.to_nat (n - i)) by lia.
        reflexivity.
      * intros j. rewrite Hout. cbn [r].
        destruct (decide (i + 1 <= j < n)) as [Hj|Hj].
        -- rewrite decide_True by lia. rewrite lcg_iter_next.
           replace (S (Z.to_nat (j - (i + 1)))) with (Z.to_nat (j - i)) by lia.
           reflexivity.
        -- destruct (decide (j = i)) as [->|Hne].
           ++ rewrite lookup_insert_eq, decide_True by lia.
              replace (Z.to_nat (i - i)) with 0%nat by lia. reflexivity.
           ++ rewrite lookup_insert_ne by congruence.
              rewrite decide_False by lia. reflexivity.
    + exists out. rewrite uniform_loop_exit by lia.
      replace (Z.to_nat (n - i)) with 0%nat by lia.
      destruct rdata as [s]. split; [reflexivity|].
      intros j. case_decide; [lia|reflexivity].
Qed.

Lemma random_lcg_uniform_simd_spec rdata n (out : gmap Z double) :
  n <= INT_MAX ->
  exists out' : gmap Z double,
    random_lcg_uniform_simd rdata n out =
      Returns ({| r := lcg_iter (Z.to_nat n) (r rdata) |}, out') /\
    forall j, out' !! j =
      if decide (0 <= j < n)
      then Some (uniform_of_word (lcg_iter (S (Z.to_nat j)) (r rdata)))
      else out !! j.
Proof.
  intros Hn. unfold random_lcg_uniform_simd.
  destruct (uniform_loop_spec (Z.to_nat n) n 0 rdata out) as (out' & Hrun & Hout);
    [lia|lia|lia|].
  exists out'. rewrite Hrun, Z.sub_0_r. split; [reflexivity|].
  intros j. rewrite Hout, Z.sub_0_r. reflexivity.
Qed.

(** The scalar sampler in closed form. *)
Lemma random_lcg_uniform_eq rdata :
  random_lcg_uniform rdata =
    Returns (uniform_of_word (lcg_next (r rdata)), {| r := lcg_next (r rdata) |}).
Proof.
  unfold random_lcg_uniform.
  destruct (random_lcg_uniform_simd_spec rdata 1 ∅) as (out' & Hrun & Hout);
    [unfold INT_MAX; lia|].
  rewrite Hrun. cbn [mbind outcome_bind].
  rewrite Hout, decide_True by lia. reflexivity.
Qed.

(** C1: every call of the scalar uniform sampler of the linear-congruential
    backend moves the state word one step along
    [state' = a * state + b mod 2^64], with [a = 2862933555777941757] and
    [b = 3037000493], and returns the double quotient of the new state word
    by [2^64 - 1], both converted to [double]. *)
Theorem uniform_advances_one_step (rdata : random_data) :
  let state' := (2862933555777941757 * r rdata + 3037000493) mod 2 ^ 64 in
  random_lcg_uniform rdata =
    Returns (ddiv (double_of_Z state') (double_of_Z (2 ^ 64 - 1)), {| r := state' |}).
Proof. intros state'. apply random_lcg_uniform_eq. Qed.

(** [k] sequential scalar draws always return: the [i]-th value depends on
    the initial state word and on [i] alone. *)
Lemma uniform_seq_spec k : forall rdata,
  uniform_seq k rdata =
    Returns (map (fun i => uniform_of_word (lcg_iter (S i) (r rdata))) (seq 0 k),
             {| r := lcg_iter k (r rdata) |}).
Proof.
  induction k as [|k IH]; intros rdata.
  - destruct rdata as [s]. reflexivity.
  - cbn [uniform_seq]. rewrite random_lcg_uniform_eq.
    cbn [mbind outcome_bind]. rewrite IH. cbn [mbind outcome_bind r].
    rewrite lcg_iter_next. f_equal. f_equal.
    cbn [seq map]. f_equal.
    rewrite <- seq_shift, map_map.
    apply map_ext. intros i. now rewrite lcg_iter_next.
Qed.

(** C6 as stated fails: from seed 1 the first state word is not
    2862933555780979250. *)
Lemma first_state_of_seed_1_is_not_spec_value :
  ~ (fst (random_lcg_integer (random_lcg_init {| r := 0 |} 1)) = 2862933555780979250).
Proof. vm_compute. discriminate. Qed.

(** C6, amended: an engine initialised with seed 1 moves, at its first
    transition, to the state word
    [(2862933555777941757 * 1 + 3037000493) mod 2^64 = 2862933558814942250],
    and its first scalar uniform draw returns the double quotient of that
    word by [2^64 - 1]. *)
Theorem first_state_of_seed_1 (rdata : random_data) :
  (2862933555777941757 * 1 + 3037000493) mod 2 ^ 64 = 2862933558814942250 /\
  random_lcg_integer (random_lcg_init rdata 1) =
    (2862933558814942250, {| r := 2862933558814942250 |}) /\
  random_lcg_uniform (random_lcg_init rdata 1) =
    Returns (ddiv (double_of_Z 2862933558814942250) (double_of_Z (2 ^ 64 - 1)),
             {| r := 2862933558814942250 |}).
Proof.
  split; [reflexivity|]. split; [reflexivity|].
  rewrite random_lcg_uniform_eq. reflexivity.
Qed.

(** C7: two engines initialised with the same seed, whatever they held
    before, return the same values, bit for bit, over any number of scalar
    uniform draws and end in the same state; the [i]-th value is a function
    of the seed and of [i] alone. *)
Theorem same_seed_same_uniform_sequence (seed : Z) (rdata1 rdata2 : random_data) (k : nat) :
  uniform_seq k (random_lcg_init rdata1 seed) =
    Returns (map (fun i => uniform_of_word (lcg_iter (S i) seed)) (seq 0 k),
             {| r := lcg_iter k seed |}) /\
  uniform_seq k (random_lcg_init rdata2 seed) = uniform_seq k (random_lcg_init rdata1 seed).
Proof.
  split.
  - rewrite uniform_seq_spec. reflexivity.
  - rewrite !uniform_seq_spec. reflexivity.
Qed.

(** ** The normal batch: which cells are stored *)

Lemma bind_returns {A B : Type} (m : outcome A) (k : A -> outcome B) (b : B) :
  mbind k m = Returns b -> exists a, m = Returns a /\ k a = Returns b.
Proof.
  destruct m as [a| |]; cbn [mbind outcome_bind]; intros H; try discriminate.
  exists a. split; [reflexivity|assumption].
Qed.

(** [isEven] is positive exactly for an even request. *)
Lemma isEven_positive n :
  0 <= n -> (0 <? Z.rem (n + 1) 2) = Z.even n.
Proof.
  intros Hn. rewrite Z.rem_mod_nonneg by lia.
  rewrite <- Z.negb_odd.
  destruct (Z.odd n) eqn:Hodd; cbn [negb].
  - apply Z.ltb_ge. apply Z.odd_spec in Hodd. destruct Hodd as [q ->].
    replace (2 * q + 1 + 1) with ((q + 1) * 2) by lia.
    rewrite Z.mod_mul by lia. lia.
  - apply Z.ltb_lt. rewrite <- Z.negb_even in Hodd.
    apply negb_false_iff, Z.even_spec in Hodd. destruct Hodd as [q ->].
    replace (2 * q + 1) with (1 + q * 2) by lia.
    rewrite Z.mod_add by lia. reflexivity.
Qed.

(** The guard [(i < n-2) || (isEven > 0)] of the second store holds exactly
    when [i + 1] is still inside the request. *)
Lemma second_store_guard n i :
  0 <= i < n -> Z.even i = true ->
  ((i <? n - 2) || (0 <? Z.rem (n + 1) 2)) = (i + 1 <? n).
Proof.
  intros Hi Hev. rewrite isEven_positive by lia.
  apply Z.even_spec in Hev. destruct Hev as [q ->].
  destruct (Z.even n) eqn:Hn.
  - apply Z.even_spec in Hn. destruct Hn as [p ->].
    rewrite orb_true_r. symmetry. apply Z.ltb_lt. lia.
  - rewrite orb_false_r.
    rewrite <- Z.negb_odd in Hn. apply negb_false_iff, Z.odd_spec in Hn.
    destruct Hn as [p ->].
    destruct (Z.ltb_spec (2 * q) (2 * p + 1 - 2)), (Z.ltb_spec (2 * q + 1) (2 * p + 1));
      try reflexivity; lia.
Qed.

Lemma store_pair_lookup n i v1 v2 (out : gmap Z double) j :
  store_pair n i v1 v2 out !! j =
    if decide (j = i) then Some v1
    else if decide (j = i + 1 /\ i + 1 < n) then Some v2
    else out !! j.
Proof.
  unfold store_pair. destruct (Z.ltb_spec (i + 1) n).
  - destruct (decide (j = i + 1)) as [->|Hne].
    + rewrite lookup_insert_eq, decide_False by lia.
      rewrite decide_True by lia. reflexivity.
    + rewrite lookup_insert_ne by congruence.
      rewrite (decide_False (P := j = i + 1 /\ _)) by lia.
      destruct (decide (j = i)) as [->|Hne'].
      * now rewrite lookup_insert_eq.
      * now rewrite lookup_insert_ne by congruence.
  - rewrite (decide_False (P := j = i + 1 /\ _)) by lia.
    destruct (decide (j = i)) as [->|Hne'].
    + now rewrite lookup_insert_eq.
    + now rewrite lookup_insert_ne by congruence.
Qed.

Section LoopSteps.

Variables log cos : double -> double.
Variable CONST_2PI : double.
Context {St : Type}.
Variable uniform : St -> outcome (double * St).

(** One pass of the loop of the geometric form. *)
Lemma geobm_for_step steps fuel n i st (out : gmap Z double) :
  0 <= i < n -> Z.even i = true -> n < INT_MAX ->
  geobm_for log uniform (S steps) fuel n (Z.rem (n + 1) 2) i st out =
    ('(x1, x2, w, st') ← geobm_while uniform fuel S754_nan S754_nan dbl_two st;
     let p := polar_pair log x1 x2 w in
     geobm_for log uniform steps fuel n (Z.rem (n + 1) 2) (i + 2) st'
       (store_pair n i (fst p) (snd p) out)).
Proof.
  intros Hi Hev Hn. cbn [geobm_for].
  replace (i <? n) with true by (symmetry; apply Z.ltb_lt; lia).
  destruct (geobm_while uniform fuel S754_nan S754_nan dbl_two st)
    as [[[[x1 x2] w] st']| |]; cbn [mbind outcome_bind]; try reflexivity.
  rewrite (int_val_in_range (n - 2)) by (unfold INT_MIN, INT_MAX in *; lia).
  cbn [mbind outcome_bind].
  rewrite second_store_guard by assumption.
  unfold store_pair, polar_pair. cbn [fst snd].
  destruct (i + 1 <? n);
    rewrite ?(int_val_in_range (i + 1)) by (unfold INT_MIN, INT_MAX in *; lia);
    cbn [mbind outcome_bind mret outcome_ret];
    rewrite (int_val_in_range (i + 2)) by (unfold INT_MIN, INT_MAX in *; lia);
    reflexivity.
Qed.

(** One pass of the loop of the common form. *)
Lemma common_for_step steps n i st (out : gmap Z double) :
  0 <= i < n -> Z.even i = true -> n < INT_MAX ->
  common_for log cos CONST_2PI uniform (S steps) n (Z.rem (n + 1) 2) i st out =
    ('(x1, st1) ← uniform st;
     '(x2, st2) ← uniform st1;
     let p := trig_pair log cos CONST_2PI x1 x2 in
     common_for log cos CONST_2PI uniform steps n (Z.rem (n + 1) 2) (i + 2) st2
       (store_pair n i (fst p) (snd p) out)).
Proof.
  intros Hi Hev Hn. cbn [common_for].
  replace (i <? n) with true by (symmetry; apply Z.ltb_lt; lia).
  destruct (uniform st) as [[x1 st1]| |]; cbn [mbind outcome_bind]; try reflexivity.
  destruct (uniform st1) as [[x2 st2]| |]; cbn [mbind outcome_bind]; try reflexivity.
  rewrite (int_val_in_range (n - 2)) by (unfold INT_MIN, INT_MAX in *; lia).
  cbn [mbind outcome_bind].
  rewrite second_store_guard by assumption.
  unfold store_pair, trig_pair. cbn [fst snd].
  destruct (i + 1 <? n);
    rewrite ?(int_val_in_range (i + 1)) by (unfold INT_MIN, INT_MAX in *; lia);
    cbn [mbind outcome_bind mret outcome_ret];
    [destruct (dlt x2 dbl_half); cbn [mbind outcome_bind mret outcome_ret]|];
    rewrite (int_val_in_range (i + 2)) by (unfold INT_MIN, INT_MAX in *; lia);
    reflexivity.
Qed.

Lemma geobm_for_exit steps fuel n e i st (out : gmap Z double) :
  n <= i -> geobm_for log uniform steps fuel n e i st out = Returns (st, out).
Proof.
  intros Hi. apply Z.ltb_ge in Hi.
  destruct steps; cbn [geobm_for]; now rewrite Hi.
Qed.

Lemma common_for_exit steps n e i st (out : gmap Z double) :
  n <= i -> common_for log cos CONST_2PI uniform steps n e i st out = Returns (st, out).
Proof.
  intros Hi. apply Z.ltb_ge in Hi.
  destruct steps; cbn [common_for]; now rewrite Hi.
Qed.

Lemma fills_refl n i (out : gmap Z double) : n <= i -> fills n i out out.
Proof. intros Hi j. split; [lia|reflexivity]. Qed.

Lemma fills_store_pair n i v1 v2 (out out' : gmap Z double) :
  0 <= i < n ->
  fills n (i + 2) (store_pair n i v1 v2 out) out' -> fills n i out out'.
Proof.
  intros Hi Hfill j. destruct (Hfill j) as [Hin Hout].
  rewrite store_pair_lookup in Hout. split.
  - intros Hj. destruct (decide (i + 2 <= j)) as [Hge|Hlt]; [apply Hin; lia|].
    rewrite Hout by lia.
    destruct (decide (j = i)); [eauto|].
    rewrite decide_True by lia. eauto.
  - intros Hj. rewrite Hout by lia.
    rewrite decide_False by lia. rewrite decide_False by lia. reflexivity.
Qed.

Lemma even_plus_2 i : Z.even i = true -> Z.even (i + 2) = true.
Proof.
  intros H. replace (i + 2) with (i + 2 * 1) by lia.
  now rewrite Z.even_add_mul_2.
Qed.

Lemma geobm_for_fills steps : forall fuel n i st (out : gmap Z double) st' out',
  0 <= i -> Z.even i = true -> n < INT_MAX ->
  geobm_for log uniform steps fuel n (Z.rem (n + 1) 2) i st out = Returns (st', out') ->
  fills n i out out'.
Proof.
  induction steps as [|steps IH]; intros fuel n i st out st' out' Hi Hev Hn Hrun;
    destruct (Z_lt_le_dec i n) as [Hlt|Hge];
    try (rewrite geobm_for_exit in Hrun by assumption;
         injection Hrun as <- <-; now apply fills_refl).
  - cbn [geobm_for] in Hrun.
    replace (i <? n) with true in Hrun by (symmetry; apply Z.ltb_lt; lia).
    discriminate.
  - rewrite geobm_for_step in Hrun by (assumption || lia).
    apply bind_returns in Hrun. destruct Hrun as ([[[x1 x2] w] st1] & _ & Hrun).
    apply fills_store_pair with (v1 := fst (polar_pair log x1 x2 w))
                                (v2 := snd (polar_pair log x1 x2 w)); [lia|].
    apply (IH fuel n (i + 2) st1 _ st' out'); [lia|now apply even_plus_2|lia|exact Hrun].
Qed.

Lemma common_for_fills steps : forall n i st (out : gmap Z double) st' out',
  0 <= i -> Z.even i = true -> n < INT_MAX ->
  common_for log cos CONST_2PI uniform steps n (Z.rem (n + 1) 2) i st out
    = Returns (st', out') ->
  fills n i out out'.
Proof.
  induction steps as [|steps IH]; intros n i st out st' out' Hi Hev Hn Hrun;
    destruct (Z_lt_le_dec i n) as [Hlt|Hge];
    try (rewrite common_for_exit in Hrun by assumption;
         injection Hrun as <- <-; now apply fills_refl).
  - cbn [common_for] in Hrun.
    replace (i <? n) with true in Hrun by (symmetry; apply Z.ltb_lt; lia).
    discriminate.
  - rewrite common_for_step in Hrun by (assumption || lia).
    apply bind_returns in Hrun. destruct Hrun as ([x1 st1] & _ & Hrun).
    apply bind_returns in Hrun. destruct Hrun as ([x2 st2] & _ & Hrun).
    apply fills_store_pair with (v1 := fst (trig_pair log cos CONST_2PI x1 x2))
                                (v2 := snd (trig_pair log cos CONST_2PI x1 x2)); [lia|].
    apply (IH n (i + 2) st2 _ st' out'); [lia|now apply even_plus_2|lia|exact Hrun].
Qed.

Lemma fills_writes_exactly n (out out' : gmap Z double) :
  fills n 0 out out' -> writes_exactly n out out'.
Proof.
  intros Hfill. split; [|split].
  - intros j Hj. now apply (Hfill j).
  - intros j Hj. now apply (Hfill j).
  - apply set_eq. intros j.
    rewrite elem_of_union, elem_of_list_to_set, elem_of_seqZ, !elem_of_dom.
    destruct (Hfill j) as [Hin Hout].
    destruct (decide (0 <= j < n)) as [Hj|Hj].
    + split; [intros _; right; lia|intros _; now apply Hin].
    + rewrite (Hout Hj). split; [now left|intros [H|H]; [exact H|lia]].
Qed.

(** Either form, over any source of uniform deviates: a call of the
    normal batch that returns has stored exactly [out[0..n)]. *)
Lemma normal_simd_writes_exactly geobm fuel st n (out : gmap Z double) st' out' :
  0 <= n < INT_MAX ->
  normal_simd log cos CONST_2PI geobm uniform fuel st n out = Returns (st', out') ->
  writes_exactly n out out'.
Proof.
  intros Hn Hrun. unfold normal_simd in Hrun.
  rewrite int_val_in_range in Hrun by (unfold INT_MIN, INT_MAX in *; lia).
  cbn [mbind outcome_bind] in Hrun.
  apply fills_writes_exactly.
  destruct (geobm =? 1).
  - eapply geobm_for_fills; [| | |exact Hrun]; [lia|reflexivity|lia].
  - eapply common_for_fills; [| | |exact Hrun]; [lia|reflexivity|lia].
Qed.

End LoopSteps.

(** ** The common form over the linear-congruential engine *)

Section CommonFormLcg.

Variables log cos : double -> double.
Variable CONST_2PI : double.

#[local] Abbreviation trig := (trig_pair log cos CONST_2PI).
#[local] Abbreviation U := uniform_of_word.

Lemma no_pair_left n i : n <= i -> Z.to_nat ((n - i + 1) / 2) = 0%nat.
Proof.
  intros H. apply Z2Nat.nonpos.
  assert ((n - i + 1) / 2 < 1) by (apply Z.div_lt_upper_bound; lia). lia.
Qed.

(** The loop of the common form always returns over this engine.  Pair
    number [k] of the loop is made from the draws [2k+1] and [2k+2]; the
    engine ends two draws further for every pair, stored or not. *)
Lemma common_for_lcg_spec steps : forall n i rdata (out : gmap Z double),
  0 <= i -> Z.even i = true -> n < INT_MAX -> (Z.to_nat (n - i) <= steps)%nat ->
  exists out' : gmap Z double,
    common_for log cos CONST_2PI random_lcg_uniform steps n (Z.rem (n + 1) 2) i rdata out =
      Returns ({| r := lcg_iter (2 * Z.to_nat ((n - i + 1) / 2)) (r rdata) |}, out') /\
    forall k : nat,
      let p := trig (U (lcg_iter (2 * k + 1) (r rdata))) (U (lcg_iter (2 * k + 2) (r rdata))) in
      (i + 2 * Z.of_nat k < n -> out' !! (i + 2 * Z.of_nat k) = Some (fst p)) /\
      (i + 2 * Z.of_nat k + 1 < n -> out' !! (i + 2 * Z.of_nat k + 1) = Some (snd p)).
Proof.
  induction steps as [|steps IH]; intros n i rdata out Hi Hev Hn Hsteps;
    destruct (Z_lt_le_dec i n) as [Hlt|Hge]; try lia;
    try (exists out; rewrite common_for_exit by assumption;
         rewrite no_pair_left by assumption;
         destruct rdata as [s]; split; [reflexivity|]; intros k p; split; lia).
  rewrite common_for_step by (assumption || lia).
  rewrite random_lcg_uniform_eq. cbn [mbind outcome_bind].
  rewrite random_lcg_uniform_eq. cbn [mbind outcome_bind r].
  set (s1 := lcg_next (r rdata)). set (s2 := lcg_next s1).
  set (p0 := trig (U s1) (U s2)).
  destruct (IH n (i + 2) {| r := s2 |} (store_pair n i (fst p0) (snd p0) out))
    as (out' & Hrun & Hval); [lia|now apply even_plus_2|lia|lia|].
  exists out'. split.
  - cbn [r] in Hrun. rewrite Hrun. f_equal. f_equal. f_equal.
    unfold s2, s1. rewrite !lcg_iter_next. f_equal.
    replace (n - i + 1) with ((n - (i + 2) + 1) + 1 * 2) by lia.
    rewrite Z.div_add by lia.
    rewrite Z2Nat.inj_add; [lia| |lia].
    apply Z.div_pos; lia.
  - pose proof (common_for_fills log cos CONST_2PI random_lcg_uniform steps
                  n (i + 2) {| r := s2 |} _ _ out'
                  ltac:(lia) (even_plus_2 i Hev) Hn Hrun) as Hfill.
    intros k. destruct k as [|k]; cbv zeta.
    + change (2 * 0 + 1)%nat with 1%nat. change (2 * 0 + 2)%nat with 2%nat.
      change (lcg_iter 1 (r rdata)) with s1. change (lcg_iter 2 (r rdata)) with s2.
      fold p0. change (Z.of_nat 0) with 0. rewrite Z.mul_0_r, Z.add_0_r. split; intros Hk.
      * rewrite (proj2 (Hfill i)) by lia.
        rewrite store_pair_lookup, decide_True by reflexivity. reflexivity.
      * rewrite (proj2 (Hfill (i + 1))) by lia.
        rewrite store_pair_lookup, decide_False by lia.
        rewrite decide_True by lia. reflexivity.
    + specialize (Hval k). cbn [r] in Hval. cbv zeta in Hval.
      unfold s2, s1 in Hval. rewrite !lcg_iter_next in Hval.
      replace (2 * S k + 1)%nat with (S (S (2 * k + 1))) by lia.
      replace (2 * S k + 2)%nat with (S (S (2 * k + 2))) by lia.
      replace (i + 2 * Z.of_nat (S k)) with (i + 2 + 2 * Z.of_nat k) by lia.
      exact Hval.
Qed.

End CommonFormLcg.

(** ** The batch samplers of the backends *)

Section Batches.

Variables log cos : double -> double.
Variable CONST_2PI : double.
Variable A5_CCOL_USE_GEOBM : Z.

#[local] Abbreviation lcg_normal_simd :=
  (random_lcg_normal_simd log cos CONST_2PI A5_CCOL_USE_GEOBM).
#[local] Abbreviation lcg_normal :=
  (random_lcg_normal log cos CONST_2PI A5_CCOL_USE_GEOBM).

(** With the common form compiled in, the normal batch of the
    linear-congruential backend always returns, after [2 * ceil(n/2)]
    draws. *)
Lemma random_lcg_normal_simd_common fuel rdata n (out : gmap Z double) :
  A5_CCOL_USE_GEOBM <> 1 -> 0 <= n < INT_MAX ->
  exists out' : gmap Z double,
    lcg_normal_simd fuel rdata n out =
      Returns ({| r := lcg_iter (2 * Z.to_nat ((n + 1) / 2)) (r rdata) |}, out') /\
    forall k : nat,
      let p := trig_pair log cos CONST_2PI
                 (uniform_of_word (lcg_iter (2 * k + 1) (r rdata)))
                 (uniform_of_word (lcg_iter (2 * k + 2) (r rdata))) in
      (2 * Z.of_nat k < n -> out' !! (2 * Z.of_nat k) = Some (fst p)) /\
      (2 * Z.of_nat k + 1 < n -> out' !! (2 * Z.of_nat k + 1) = Some (snd p)).
Proof.
  intros Hform Hn. unfold random_lcg_normal_simd, normal_simd.
  int_in_range.
  cbn [mbind outcome_bind].
  replace (A5_CCOL_USE_GEOBM =? 1) with false by (symmetry; apply Z.eqb_neq; assumption).
  destruct (common_for_lcg_spec log cos CONST_2PI (Z.to_nat n) n 0 rdata out)
    as (out' & Hrun & Hval); [lia|reflexivity|lia|lia|].
  exists out'. rewrite Z.sub_0_r in Hrun. split; [exact Hrun|].
  intros k. specialize (Hval k). cbv zeta in Hval. rewrite !Z.add_0_l in Hval.
  exact Hval.
Qed.

(** The scalar normal sampler is the batch of one value. *)
Lemma random_lcg_normal_is_batch_of_one fuel rdata x rdata' :
  lcg_normal fuel rdata = Returns (x, rdata') <->
  lcg_normal_simd fuel rdata 1 ∅ = Returns (rdata', {[0 := x]}).
Proof.
  unfold random_lcg_normal. split.
  - intros H. apply bind_returns in H. destruct H as ([rd loc] & Hrun & Hret).
    destruct (loc !! 0) as [y|] eqn:Hy; [|discriminate].
    injection Hret as -> ->. rewrite Hrun. f_equal. f_equal.
    apply normal_simd_writes_exactly in Hrun; [|unfold INT_MAX; lia].
    destruct Hrun as (_ & Hframe & _).
    apply map_eq. intros j. destruct (decide (j = 0)) as [->|Hne].
    + now rewrite lookup_singleton_eq.
    + rewrite lookup_singleton_ne by congruence.
      rewrite Hframe by lia. apply lookup_empty.
  - intros ->. cbn [mbind outcome_bind]. now rewrite lookup_singleton_eq.
Qed.

End Batches.

Lemma random_lcg_uniform_is_batch_of_one rdata x rdata' :
  random_lcg_uniform rdata = Returns (x, rdata') <->
  random_lcg_uniform_simd rdata 1 ∅ = Returns (rdata', {[0 := x]}).
Proof.
  unfold random_lcg_uniform.
  destruct (random_lcg_uniform_simd_spec rdata 1 ∅) as (out' & Hrun & Hout);
    [unfold INT_MAX; lia|].
  rewrite Hrun. cbn [mbind outcome_bind].
  assert (Hmap : out' = {[0 := uniform_of_word (lcg_iter 1 (r rdata))]}).
  { apply map_eq. intros j. rewrite Hout.
    destruct (decide (j = 0)) as [->|Hne].
    - rewrite decide_True by lia. now rewrite lookup_singleton_eq.
    - rewrite decide_False by lia. rewrite lookup_singleton_ne by congruence.
      apply lookup_empty. }
  rewrite Hmap, lookup_singleton_eq. clear Hmap Hout Hrun.
  generalize (uniform_of_word (lcg_iter 1 (r rdata))) as u.
  generalize ({| r := lcg_iter (Z.to_nat 1) (r rdata) |}) as rd.
  intros rd u. split.
  - intros H. assert (u = x) as -> by congruence.
    assert (rd = rdata') as -> by congruence. reflexivity.
  - intros H. assert (rd = rdata') as -> by congruence.
    assert (Hm : ({[0 := u]} : gmap Z double) !! 0 = ({[0 := x]} : gmap Z double) !! 0)
      by congruence.
    rewrite !lookup_singleton_eq in Hm. congruence.
Qed.

(** C3 as stated fails at the largest [int]: with [n = INT_MAX] the
    expression [(n+1) % 2] overflows, and the call does not return with
    [out[0..n)] stored. *)
Lemma normal_batch_overflows_at_INT_MAX :
  ~ exists (fuel : nat) rdata' out',
      random_lcg_normal_simd (fun x => x) (fun x => x) dbl_one 0 fuel
        {| r := 1 |} 2147483647 ∅ = Returns (rdata', out') /\
      writes_exactly 2147483647 ∅ out'.
Proof.
  intros (fuel & rdata' & out' & Hrun & _).
  unfold random_lcg_normal_simd, normal_simd in Hrun.
  change (int_val (2147483647 + 1)) with (@Undefined Z) in Hrun.
  discriminate Hrun.
Qed.

(** C4: with the common form compiled in, the normal batch of the
    linear-congruential backend takes the uniforms two by two in the order
    the scalar sampler returns them; from the pair [x1], [x2] it stores
    [w * s] first, with [w = sqrt(-2 ln x1)] and [s = cos(2 pi x2)], and
    then [w * sqrt(1 - s^2)] if [x2 < 0.5] and [-w * sqrt(1 - s^2)]
    otherwise. *)
Theorem common_form_pairs
    (log cos : double -> double) (CONST_2PI : double) (A5_CCOL_USE_GEOBM : Z)
    (fuel : nat) (rdata : random_data) (n : Z) (out : gmap Z double) :
  A5_CCOL_USE_GEOBM <> 1 -> 0 <= n < INT_MAX ->
  exists us rdata' out',
    uniform_seq (2 * Z.to_nat ((n + 1) / 2)) rdata = Returns (us, rdata') /\
    random_lcg_normal_simd log cos CONST_2PI A5_CCOL_USE_GEOBM fuel rdata n out
      = Returns (rdata', out') /\
    forall (k : nat) (x1 x2 : double),
      us !! (2 * k)%nat = Some x1 -> us !! (2 * k + 1)%nat = Some x2 ->
      let w := dsqrt (dmul (double_of_Z (-2)) (log x1)) in
      let s := cos (dmul CONST_2PI x2) in
      (2 * Z.of_nat k < n -> out' !! (2 * Z.of_nat k) = Some (dmul w s)) /\
      (2 * Z.of_nat k + 1 < n ->
       out' !! (2 * Z.of_nat k + 1) =
         Some (if dlt x2 dbl_half
               then dmul w (dsqrt (dsub (double_of_Z 1) (dmul s s)))
               else dmul (dopp w) (dsqrt (dsub (double_of_Z 1) (dmul s s))))).
Proof.
  intros Hform Hn.
  destruct (random_lcg_normal_simd_common log cos CONST_2PI A5_CCOL_USE_GEOBM
              fuel rdata n out Hform Hn) as (out' & Hrun & Hval).
  eexists _, _, out'. split; [apply uniform_seq_spec|]. split; [exact Hrun|].
  intros k x1 x2 H1 H2.
  rewrite list_lookup_fmap in H1, H2.
  destruct (seq 0 _ !! (2 * k)%nat) as [j1|] eqn:E1; [|discriminate].
  destruct (seq 0 _ !! (2 * k + 1)%nat) as [j2|] eqn:E2; [|discriminate].
  apply lookup_seq in E1, E2. destruct E1 as [-> _], E2 as [-> _].
  cbn [fmap option_fmap option_map] in H1, H2.
  replace (S (0 + 2 * k)) with (2 * k + 1)%nat in H1 by lia.
  replace (S (0 + (2 * k + 1))) with (2 * k + 2)%nat in H2 by lia.
  assert (x1 = uniform_of_word (lcg_iter (2 * k + 1) (r rdata))) as -> by congruence.
  assert (x2 = uniform_of_word (lcg_iter (2 * k + 2) (r rdata))) as -> by congruence.
  exact (Hval k).
Qed.

(** C8 as stated fails: a uniform batch of [-1] values is not fatal, it
    returns to the caller. *)
Lemma negative_batch_is_not_fatal :
  ~ is_fatal (random_lcg_uniform_simd {| r := 1 |} (-1) ∅).
Proof. intros Hfatal. apply (Hfatal ({| r := 1 |}, ∅)). reflexivity. Qed.

(** C8, amended: a batch request with [n = 0] returns at once: the uniform
    and the normal batch store nothing and leave the engine as it was; a
    request with a negative [n] does the same, it is not reported. *)
Theorem empty_or_negative_batch_is_noop
    (log cos : double -> double) (CONST_2PI : double) (A5_CCOL_USE_GEOBM : Z)
    (fuel : nat) (rdata : random_data) (n : Z) (out : gmap Z double) :
  INT_MIN <= n <= 0 ->
  random_lcg_uniform_simd rdata n out = Returns (rdata, out) /\
  random_lcg_normal_simd log cos CONST_2PI A5_CCOL_USE_GEOBM fuel rdata n out
    = Returns (rdata, out).
Proof.
  intros Hn. split.
  - unfold random_lcg_uniform_simd. apply uniform_loop_exit. lia.
  - unfold random_lcg_normal_simd, normal_simd.
    int_in_range.
    cbn [mbind outcome_bind].
    destruct (A5_CCOL_USE_GEOBM =? 1).
    + apply geobm_for_exit. lia.
    + apply common_for_exit. lia.
Qed.

(** C10: for every [0 <= n <= INT_MAX] and every engine, the uniform batch
    stores in [out[0..n)] the very values that [n] successive scalar draws
    return from the same state, in the same order, and leaves the engine in
    the state those draws leave it in; the scalar uniform and the scalar
    normal sampler return the one value of the batch of one. *)
Theorem uniform_batch_is_n_scalar_draws
    (log cos : double -> double) (CONST_2PI : double) (A5_CCOL_USE_GEOBM : Z)
    (rdata : random_data) (n : Z) (out : gmap Z double) :
  0 <= n <= INT_MAX ->
  (exists xs rdata' out',
     uniform_seq (Z.to_nat n) rdata = Returns (xs, rdata') /\
     random_lcg_uniform_simd rdata n out = Returns (rdata', out') /\
     length xs = Z.to_nat n /\
     (forall j : nat, (j < Z.to_nat n)%nat -> out' !! Z.of_nat j = xs !! j) /\
     (forall j : Z, ~ (0 <= j < n) -> out' !! j = out !! j)) /\
  (forall x rdata',
     random_lcg_uniform rdata = Returns (x, rdata') <->
     random_lcg_uniform_simd rdata 1 ∅ = Returns (rdata', {[0 := x]})) /\
  (forall fuel x rdata',
     random_lcg_normal log cos CONST_2PI A5_CCOL_USE_GEOBM fuel rdata = Returns (x, rdata') <->
     random_lcg_normal_simd log cos CONST_2PI A5_CCOL_USE_GEOBM fuel rdata 1 ∅
       = Returns (rdata', {[0 := x]})).
Proof.
  intros Hn. split; [|split].
  - destruct (random_lcg_uniform_simd_spec rdata n out) as (out' & Hrun & Hout); [lia|].
    eexists _, _, out'. split; [apply uniform_seq_spec|]. split; [exact Hrun|].
    split; [now rewrite length_map, length_seq|]. split.
    + intros j Hj. rewrite Hout, decide_True by lia.
      rewrite list_lookup_fmap, lookup_seq_lt by assumption.
      cbn [fmap option_fmap option_map]. now rewrite Nat2Z.id.
    + intros j Hj. rewrite Hout, decide_False by assumption. reflexivity.
  - intros x rdata'. apply random_lcg_uniform_is_batch_of_one.
  - intros fuel x rdata'. apply random_lcg_normal_is_batch_of_one.
Qed.

(** ** The range of the uniform sampler *)

Lemma lcg_next_range (s : Z) : 0 <= lcg_next s < 2 ^ 64.
Proof. unfold lcg_next, wrap64. apply Z.mod_pos_bound. reflexivity. Qed.

Lemma compare_with_one (m : positive) (e : Z) :
  e <= -52 -> (e = -52 -> m = 4503599627370496%positive) ->
  dle dbl_zero (S754_finite false m e) = true /\
  dle (S754_finite false m e) dbl_one = true /\
  (dlt (S754_finite false m e) dbl_one = true <-> e < -52).
Proof.
  intros He Hm. split; [reflexivity|].
  unfold dle, dlt, SFleb, SFltb, dbl_one, SFcompare.
  destruct (Z.compare_spec e (-52)) as [Heq|Hlt|Hgt]; [|split; [reflexivity|tauto]|lia].
  rewrite (Hm Heq). cbn. split; [reflexivity|]. split; [discriminate|lia].
Qed.

(** C2 as stated fails: after [random_lcg_init] with the seed
    1161856439546075578 the first uniform draw is [1.0], which is not below
    [1]. *)
Lemma uniform_draw_of_one :
  ~ exists u rdata',
      random_lcg_uniform (random_lcg_init {| r := 0 |} 1161856439546075578)
        = Returns (u, rdata') /\
      dle dbl_zero u = true /\ dlt u dbl_one = true.
Proof.
  intros (u & rdata' & Hrun & _ & Hlt).
  rewrite random_lcg_uniform_eq in Hrun.
  assert (Hu : u = dbl_one) by (vm_compute in Hrun; unfold dbl_one; congruence).
  subst u. vm_compute in Hlt. discriminate Hlt.
Qed.

(** C2, amended: from every engine state the scalar uniform sampler returns
    a value [u] with [0 <= u <= 1]; [u < 1] holds exactly when the new state
    word is below [2^64 - 1024], and the 1024 words from there on give
    [u = 1.0]. *)
Theorem uniform_in_closed_unit_interval (rdata : random_data) :
  exists u rdata',
    random_lcg_uniform rdata = Returns (u, rdata') /\
    dle dbl_zero u = true /\ dle u dbl_one = true /\
    (dlt u dbl_one = true <-> r rdata' < 2 ^ 64 - 1024) /\
    (2 ^ 64 - 1024 <= r rdata' -> u = dbl_one).
Proof.
  rewrite random_lcg_uniform_eq. eexists _, _. split; [reflexivity|]. cbn [r].
  pose proof (lcg_next_range (r rdata)) as Hx.
  set (x := lcg_next (r rdata)) in *.
  destruct (Z.eq_dec x 0) as [->|Hnz].
  - rewrite uniform_of_word_0. repeat split; try reflexivity; try discriminate.
    intros H. change (2 ^ 64) with 18446744073709551616 in H. lia.
  - destruct (uniform_of_word_pos x ltac:(lia)) as (m & e & -> & Hd & He & Hm & Htop & _).
    destruct (compare_with_one m e ltac:(lia) Hm) as (H0 & H1 & Hlt).
    split; [exact H0|]. split; [exact H1|]. split.
    + rewrite Hlt. split; intros H; [|lia].
      destruct (Z_lt_le_dec x (2 ^ 64 - 1024)) as [|Hge]; [assumption|].
      apply Htop in Hge. lia.
    + intros Hge. apply Htop in Hge. subst e. now rewrite (Hm eq_refl).
Qed.

(** ** The rejection loop of the geometric form *)

(** The coordinate [2*u - 1] of a deviate of the unit interval is zero only
    for [u = 0.5], and a normal double otherwise. *)
Lemma coordinate_of_deviate (u : double) :
  unit_deviate u ->
  (polar_coordinate u = S754_zero false /\ u = dbl_half) \/
  (exists sg, normal_result sg (-167) 13 (polar_coordinate u)).
Proof.
  intros [->|(m & e & -> & Hd & He)].
  - right. exists true. exists 4503599627370496%positive, (-52).
    split; [reflexivity|]. split; [reflexivity|lia].
  - unfold polar_coordinate. rewrite dmul_two by (assumption || lia).
    destruct (dsub_one m (e + 1) Hd ltac:(lia)) as [(Hm & He1 & Hz)|Hn].
    + left. split; [exact Hz|]. unfold dbl_half. f_equal; [exact Hm|lia].
    + right. exact Hn.
Qed.

(** The squared radius of the point of two deviates of the unit interval is
    a positive normal double, unless both deviates are [0.5]. *)
Lemma radius_of_deviates (u1 u2 : double) :
  unit_deviate u1 -> unit_deviate u2 ->
  (u1 = dbl_half /\ u2 = dbl_half) \/
  (exists m e, polar_radius u1 u2 = S754_finite false m e).
Proof.
  intros H1 H2. unfold polar_radius. cbv zeta.
  destruct (coordinate_of_deviate u1 H1) as [[Hz1 Hu1]|(sg1 & Hn1)];
    destruct (coordinate_of_deviate u2 H2) as [[Hz2 Hu2]|(sg2 & Hn2)].
  - left. split; assumption.
  - right. rewrite Hz1.
    destruct (dmul_square _ _ Hn2) as (m & e & -> & _). exists m, e. reflexivity.
  - right. rewrite Hz2.
    destruct (dmul_square _ _ Hn1) as (m & e & -> & _). exists m, e. reflexivity.
  - right.
    destruct (dadd_positive _ _ (dmul_square _ _ Hn1) (dmul_square _ _ Hn2))
      as (m & e & Hw & _).
    exists m, e. exact Hw.
Qed.

(** A positive double that is not [>= 1.0] is [< 1.0] and is not zero. *)
Lemma accepted_finite (m : positive) (e : Z) :
  dle dbl_one (S754_finite false m e) = false ->
  dlt (S754_finite false m e) dbl_one = true /\ deq (S754_finite false m e) dbl_zero = false.
Proof.
  intros Hle. split; [|reflexivity].
  unfold dle, dlt, SFleb, SFltb, dbl_one, SFcompare in *.
  rewrite (Z.compare_antisym e (-52)) in Hle.
  destruct (e ?= -52) eqn:He; cbn [CompOpp] in Hle; try reflexivity; try discriminate.
  assert (Hanti : Pos.compare_cont Eq 4503599627370496 m =
                  CompOpp (Pos.compare_cont Eq m 4503599627370496))
    by (rewrite Pos.compare_cont_antisym; reflexivity).
  rewrite Hanti in Hle.
  destruct (Pos.compare_cont Eq m 4503599627370496); cbn [CompOpp] in Hle;
    try reflexivity; discriminate.
Qed.

Lemma accepted_radius (u1 u2 : double) :
  unit_deviate u1 -> unit_deviate u2 -> ~ (u1 = dbl_half /\ u2 = dbl_half) ->
  dle dbl_one (polar_radius u1 u2) = false ->
  accepted (polar_radius u1 u2).
Proof.
  intros H1 H2 Hhalf Hexit.
  destruct (radius_of_deviates u1 u2 H1 H2) as [Hboth|(m & e & Hw)]; [tauto|].
  rewrite Hw in Hexit |- *.
  destruct (accepted_finite m e Hexit) as [Hlt Hnz].
  split; [exact Hlt|]. split; [exact Hnz|]. exists m, e. reflexivity.
Qed.

(** What the rejection loop returns, over any source of deviates: either it
    was not entered, or the point of two successive draws, whose radius
    fails the test [w >= 1.0]. *)
Lemma geobm_while_returns {St : Type} (uniform : St -> outcome (double * St)) fuel :
  forall x1 x2 w st x1' x2' w' st',
  geobm_while uniform fuel x1 x2 w st = Returns (x1', x2', w', st') ->
  dle dbl_one w' = false /\
  ((x1', x2', w', st') = (x1, x2, w, st) \/
   exists st0 u1 st1 u2 st2,
     uniform st0 = Returns (u1, st1) /\ uniform st1 = Returns (u2, st2) /\
     w' = polar_radius u1 u2).
Proof.
  induction fuel as [|fuel IH]; intros x1 x2 w st x1' x2' w' st' Hrun;
    cbn [geobm_while] in Hrun;
    destruct (dle dbl_one w) eqn:Hw; try discriminate Hrun;
    try (injection Hrun as <- <- <- <-; split; [exact Hw|left; reflexivity]).
  apply bind_returns in Hrun. destruct Hrun as ([u1 st1] & Hu1 & Hrun).
  apply bind_returns in Hrun. destruct Hrun as ([u2 st2] & Hu2 & Hrun).
  apply IH in Hrun. destruct Hrun as [Hexit [Heq|Hs]].
  - split; [exact Hexit|]. right. exists st, u1, st1, u2, st2.
    injection Heq as _ _ -> _. repeat split; assumption.
  - split; [exact Hexit|]. right. exact Hs.
Qed.

(** *** Over the linear-congruential engine *)

Lemma uniform_of_word_deviate (s : Z) :
  0 <= s < 2 ^ 64 ->
  unit_deviate (uniform_of_word s) /\
  (uniform_of_word s = dbl_half -> half_window s = true).
Proof.
  intros Hs. destruct (Z.eq_dec s 0) as [->|Hnz].
  - split; [left; reflexivity|]. intros H. discriminate H.
  - destruct (uniform_of_word_pos s ltac:(lia)) as (m & e & -> & Hd & He & _ & _ & Hhalf).
    split.
    + right. exists m, e. repeat split; (assumption || lia).
    + intros H. unfold dbl_half in H. injection H as Hm He'.
      specialize (Hhalf Hm He'). unfold half_window.
      apply andb_true_iff. split; apply Z.leb_le; lia.
Qed.

(** No state word of deviate [0.5] is followed by another one: checked on
    each of the 1537 words of the window. *)
Lemma half_window_not_twice (s : Z) :
  half_window s = true -> half_window (lcg_next s) = false.
Proof.
  intros Hs.
  assert (Hall : forallb (fun i => negb (half_window (lcg_next (2 ^ 63 - 512 + Z.of_nat i))))
                   (seq 0 1537) = true) by (vm_compute; reflexivity).
  rewrite forallb_forall in Hall.
  unfold half_window in Hs. apply andb_true_iff in Hs. destruct Hs as [Hlo Hhi].
  apply Z.leb_le in Hlo, Hhi.
  specialize (Hall (Z.to_nat (s - (2 ^ 63 - 512)))).
  rewrite Z2Nat.id in Hall by lia.
  replace (2 ^ 63 - 512 + (s - (2 ^ 63 - 512))) with s in Hall by lia.
  apply negb_true_iff. apply Hall. apply in_seq.
  change (2 ^ 63) with 9223372036854775808 in *. lia.
Qed.

Lemma polar_radius_accepted_lcg
    (fuel : nat) (rdata : random_data) (x1 x2 w : double) (rdata' : random_data) :
  geobm_while random_lcg_uniform fuel S754_nan S754_nan dbl_two rdata
    = Returns (x1, x2, w, rdata') ->
  accepted w.
Proof.
  intros Hrun. apply geobm_while_returns in Hrun.
  destruct Hrun as [Hexit [Heq|(rd0 & u1 & rd1 & u2 & rd2 & Hu1 & Hu2 & ->)]].
  - injection Heq as _ _ -> _. discriminate Hexit.
  - rewrite random_lcg_uniform_eq in Hu1. injection Hu1 as <- <-.
    rewrite random_lcg_uniform_eq in Hu2. cbn [r] in Hu2. injection Hu2 as <- <-.
    pose proof (uniform_of_word_deviate _ (lcg_next_range (r rd0))) as [Hd1 Hh1].
    pose proof (uniform_of_word_deviate _ (lcg_next_range (lcg_next (r rd0)))) as [Hd2 Hh2].
    apply accepted_radius; try assumption.
    intros [Hu1 Hu2]. apply Hh1 in Hu1. apply Hh2 in Hu2.
    rewrite (half_window_not_twice _ Hu1) in Hu2. discriminate Hu2.
Qed.

(** *** Over [drand48] *)

(** The deviate made of a 48-bit state is exact; it is [0.5] only for the
    state [2^47]. *)
Lemma double_of_rand48_deviate (x : Z) :
  0 <= x < 2 ^ 48 ->
  unit_deviate (double_of_rand48 x) /\
  (double_of_rand48 x = dbl_half -> x = 2 ^ 47).
Proof.
  intros Hx. destruct x as [|p|p]; try lia.
  - split; [left; reflexivity|]. intros H. discriminate H.
  - unfold double_of_rand48, prec, emax, binary_normalize, binary_round.
    pose proof (digits2_pos_le p 48 ltac:(lia)) as Hd.
    pose proof (digits2_pos_bounds p) as Hp.
    set (d := Zpos (digits2_pos p)) in *. assert (0 < d) by (unfold d; lia).
    rewrite fexp_normal by lia. unfold shl_align.
    destruct (d + -48 - 53 - -48) as [|k|k] eqn:Hk; try lia.
    pose proof (digits2_pos_shift p k) as Hdk. fold d in Hdk.
    rewrite binary_round_aux_53 by lia.
    replace (d + -48 - 53 <=? 971) with true by (symmetry; apply Z.leb_le; lia).
    split.
    + right. eexists _, _. split; [reflexivity|]. split; lia.
    + intros Hhalf. unfold dbl_half in Hhalf. injection Hhalf as Hm He.
      assert (Hd48 : d = 48) by lia. assert (Hk5 : k = 5%positive) by lia.
      apply (f_equal Zpos) in Hm. rewrite pos_iter_xO, Hk5 in Hm.
      change (2 ^ 5) with 32 in Hm. change (2 ^ 47) with 140737488355328. lia.
Qed.

Lemma rand48_half_not_twice : rand48_next (2 ^ 47) <> 2 ^ 47.
Proof. vm_compute. discriminate. Qed.

Lemma polar_radius_accepted_drand48
    {rand48 : Type} (drand48 : rand48 -> double * rand48) (X : rand48 -> Z)
    (fuel : nat) (g : rand48) (x1 x2 w : double) (g' : rand48) :
  posix_drand48 drand48 X ->
  geobm_while (fun g => Returns (drand48 g)) fuel S754_nan S754_nan dbl_two g
    = Returns (x1, x2, w, g') ->
  accepted w.
Proof.
  intros Hposix Hrun. apply geobm_while_returns in Hrun.
  destruct Hrun as [Hexit [Heq|(g0 & u1 & g1 & u2 & g2 & Hu1 & Hu2 & ->)]].
  - injection Heq as _ _ -> _. discriminate Hexit.
  - destruct (Hposix g0) as [HX1 Hv1]. destruct (Hposix g1) as [HX2 Hv2].
    assert (Hg1 : drand48 g0 = (u1, g1)) by congruence.
    assert (Hg2 : drand48 g1 = (u2, g2)) by congruence.
    rewrite Hg1 in HX1, Hv1. rewrite Hg2 in HX2, Hv2. cbn [fst snd] in *.
    assert (Hr1 : 0 <= X g1 < 2 ^ 48)
      by (rewrite HX1; unfold rand48_next; apply Z.mod_pos_bound; reflexivity).
    assert (Hr2 : 0 <= X g2 < 2 ^ 48)
      by (rewrite HX2; unfold rand48_next; apply Z.mod_pos_bound; reflexivity).
    destruct (double_of_rand48_deviate _ Hr1) as [Hd1 Hh1].
    destruct (double_of_rand48_deviate _ Hr2) as [Hd2 Hh2].
    rewrite <- Hv1 in Hd1, Hh1. rewrite <- Hv2 in Hd2, Hh2.
    apply accepted_radius; try assumption.
    intros [Hu1' Hu2']. apply Hh1 in Hu1'. apply Hh2 in Hu2'.
    rewrite HX2, Hu1' in Hu2'. exact (rand48_half_not_twice Hu2').
Qed.

(** C5: whenever the rejection loop of the geometric form returns, the
    radius [w = x1*x1 + x2*x2] that it hands to [sqrt(-2*log(w)/w)] is a
    positive finite double with [w < 1.0]: it is neither [>= 1], nor zero,
    nor NaN.  This holds over the linear-congruential engine, and over
    [drand48] when it is the 48-bit generator of POSIX. *)
Theorem polar_radius_accepted :
  (forall (fuel : nat) (rdata : random_data) (x1 x2 w : double) (rdata' : random_data),
     geobm_while random_lcg_uniform fuel S754_nan S754_nan dbl_two rdata
       = Returns (x1, x2, w, rdata') ->
     dlt w dbl_one = true /\ deq w dbl_zero = false /\
     exists m e, w = S754_finite false m e) /\
  (forall (rand48 : Type) (drand48 : rand48 -> double * rand48) (X : rand48 -> Z),
     posix_drand48 drand48 X ->
     forall (fuel : nat) (g : rand48) (x1 x2 w : double) (g' : rand48),
     geobm_while (fun g => Returns (drand48 g)) fuel S754_nan S754_nan dbl_two g
       = Returns (x1, x2, w, g') ->
     dlt w dbl_one = true /\ deq w dbl_zero = false /\
     exists m e, w = S754_finite false m e).
Proof.
  split.
  - intros fuel rdata x1 x2 w rdata' Hrun.
    exact (polar_radius_accepted_lcg fuel rdata x1 x2 w rdata' Hrun).
  - intros rand48 drand48 X Hposix fuel g x1 x2 w g' Hrun.
    exact (polar_radius_accepted_drand48 drand48 X fuel g x1 x2 w g' Hposix Hrun).
Qed.

(** ** Instances *)

(** The deviates of the words at the two ends of each rounding window. *)
Example uniform_of_word_windows :
  uniform_of_word (2 ^ 64 - 1024) = dbl_one /\
  dlt (uniform_of_word (2 ^ 64 - 1025)) dbl_one = true /\
  uniform_of_word (2 ^ 63 - 512) = dbl_half /\
  uniform_of_word (2 ^ 63 + 1024) = dbl_half /\
  dlt (uniform_of_word (2 ^ 63 - 513)) dbl_half = true /\
  dlt dbl_half (uniform_of_word (2 ^ 63 + 1025)) = true.
Proof. vm_compute. repeat split. Qed.

(** The first three draws from seed 1, scalar and batched. *)
Example three_draws_from_seed_1 :
  uniform_seq 3 (random_lcg_init {| r := 0 |} 1) =
    Returns ([S754_finite false 5591667107060434 (-55);
              S754_finite false 5756066020395170 (-53);
              S754_finite false 7874672983917016 (-53)],
             {| r := 16127330271062048800 |}).
Proof. vm_compute. reflexivity. Qed.

(** The odd requests of the regression test: a guard value placed right
    behind the buffer survives a batch of 1, 3 or 101 values. *)
Example guard_cell_survives
    (log cos : double -> double) (CONST_2PI : double) (A5_CCOL_USE_GEOBM : Z)
    (fuel : nat) (rdata rdata' : random_data) (guard : double)
    (out' : gmap Z double) (n : Z) :
  n = 1 \/ n = 3 \/ n = 101 ->
  random_lcg_normal_simd log cos CONST_2PI A5_CCOL_USE_GEOBM fuel rdata n {[n := guard]}
    = Returns (rdata', out') ->
  out' !! n = Some guard.
Proof.
  intros Hn Hrun. unfold random_lcg_normal_simd in Hrun.
  apply normal_simd_writes_exactly in Hrun; [|unfold INT_MAX; lia].
  destruct Hrun as (_ & Hframe & _).
  rewrite Hframe by lia. apply lookup_singleton_eq.
Qed.

Lemma common_form_pairs_witness :
  0 <> 1 /\ 0 <= 3 < INT_MAX /\
  exists us rdata' out',
    uniform_seq (2 * Z.to_nat ((3 + 1) / 2)) {| r := 1 |} = Returns (us, rdata') /\
    random_lcg_normal_simd (fun x => x) (fun x => x) dbl_one 0 0 {| r := 1 |} 3 ∅
      = Returns (rdata', out') /\
    forall (k : nat) (x1 x2 : double),
      us !! (2 * k)%nat = Some x1 -> us !! (2 * k + 1)%nat = Some x2 ->
      let w := dsqrt (dmul (double_of_Z (-2)) x1) in
      let s := dmul dbl_one x2 in
      (2 * Z.of_nat k < 3 -> out' !! (2 * Z.of_nat k) = Some (dmul w s)) /\
      (2 * Z.of_nat k + 1 < 3 ->
       out' !! (2 * Z.of_nat k + 1) =
         Some (if dlt x2 dbl_half
               then dmul w (dsqrt (dsub (double_of_Z 1) (dmul s s)))
               else dmul (dopp w) (dsqrt (dsub (double_of_Z 1) (dmul s s))))).
Proof.
  assert (Hform : 0 <> 1) by lia.
  assert (Hn : 0 <= 3 < INT_MAX) by (unfold INT_MAX; lia).
  split; [exact Hform|]. split; [exact Hn|].
  exact (common_form_pairs (fun x => x) (fun x => x) dbl_one 0 0 {| r := 1 |} 3 ∅ Hform Hn).
Defined.

Lemma polar_radius_accepted_witness :
  (geobm_while random_lcg_uniform 10 S754_nan S754_nan dbl_two {| r := 1 |}
     = Returns (S754_finite true 6211365701210775 (-53),
                S754_finite false 5009865572098696 (-54),
                S754_finite false 4979988880915728 (-53),
                {| r := 11788423209769308335 |}) /\
   dlt (S754_finite false 4979988880915728 (-53)) dbl_one = true /\
   deq (S754_finite false 4979988880915728 (-53)) dbl_zero = false) /\
  (posix_drand48 (fun x : Z => (double_of_rand48 (rand48_next x), rand48_next x)) (fun x => x) /\
   exists x1 x2 w g',
     geobm_while (fun x : Z => Returns (double_of_rand48 (rand48_next x), rand48_next x))
       10 S754_nan S754_nan dbl_two 78606 = Returns (x1, x2, w, g') /\
     dlt w dbl_one = true /\ deq w dbl_zero = false).
Proof.
  assert (Hrun : geobm_while random_lcg_uniform 10 S754_nan S754_nan dbl_two {| r := 1 |}
                   = Returns (S754_finite true 6211365701210775 (-53),
                              S754_finite false 5009865572098696 (-54),
                              S754_finite false 4979988880915728 (-53),
                              {| r := 11788423209769308335 |}))
    by (vm_compute; reflexivity).
  assert (Hposix : posix_drand48
            (fun x : Z => (double_of_rand48 (rand48_next x), rand48_next x)) (fun x => x))
    by (intros g; split; reflexivity).
  assert (Hrun48 : exists p,
            geobm_while (fun x : Z => Returns (double_of_rand48 (rand48_next x), rand48_next x))
              10 S754_nan S754_nan dbl_two 78606 = Returns p)
    by (vm_compute; eexists; reflexivity).
  destruct Hrun48 as [[[[x1 x2] w] g'] Hrun48].
  split.
  - split; [exact Hrun|].
    destruct (proj1 polar_radius_accepted 10%nat {| r := 1 |} _ _ _ _ Hrun) as (Hlt & Hnz & _).
    split; assumption.
  - split; [exact Hposix|]. exists x1, x2, w, g'. split; [exact Hrun48|].
    destruct (proj2 polar_radius_accepted Z _ _ Hposix 10%nat 78606 _ _ _ _ Hrun48)
      as (Hlt & Hnz & _).
    split; assumption.
Defined.

Lemma empty_or_negative_batch_is_noop_witness :
  INT_MIN <= -5 <= 0 /\
  random_lcg_uniform_simd {| r := 1 |} (-5) ∅ = Returns ({| r := 1 |}, ∅) /\
  random_lcg_normal_simd (fun x => x) (fun x => x) dbl_one 1 10 {| r := 1 |} (-5) ∅
    = Returns ({| r := 1 |}, ∅).
Proof.
  assert (Hn : INT_MIN <= -5 <= 0) by (unfold INT_MIN; lia).
  split; [exact Hn|].
  exact (empty_or_negative_batch_is_noop (fun x => x) (fun x => x) dbl_one 1 10
           {| r := 1 |} (-5) ∅ Hn).
Defined.

Lemma uniform_batch_is_n_scalar_draws_witness :
  0 <= 3 <= INT_MAX /\
  exists xs rdata' out',
    uniform_seq (Z.to_nat 3) {| r := 1 |} = Returns (xs, rdata') /\
    random_lcg_uniform_simd {| r := 1 |} 3 ∅ = Returns (rdata', out') /\
    length xs = Z.to_nat 3 /\
    (forall j : nat, (j < Z.to_nat 3)%nat -> out' !! Z.of_nat j = xs !! j) /\
    (forall j : Z, ~ (0 <= j < 3) -> out' !! j = (∅ : gmap Z double) !! j).
Proof.
  assert (Hn : 0 <= 3 <= INT_MAX) by (unfold INT_MAX; lia).
  split; [exact Hn|].
  exact (proj1 (uniform_batch_is_n_scalar_draws (fun x => x) (fun x => x) dbl_one 1
                  {| r := 1 |} 3 ∅ Hn)).
Defined.

(** * Further properties of the engine *)

(** ** The recurrence as a permutation of the state words *)

Lemma lcg_prev_range (t : Z) : 0 <= lcg_prev t < 2 ^ 64.
Proof. unfold lcg_prev, wrap64. apply Z.mod_pos_bound. reflexivity. Qed.

Lemma lcg_prev_next (s : Z) : 0 <= s < 2 ^ 64 -> lcg_prev (lcg_next s) = s.
Proof.
  intros Hs. unfold lcg_prev, lcg_next, wrap64.
  rewrite <- Zmult_mod_idemp_r, Zminus_mod_idemp_l, Zmult_mod_idemp_r.
  replace (lcg_a_inv * (lcg_a * s + lcg_b - lcg_b)) with ((lcg_a_inv * lcg_a) * s) by ring.
  rewrite <- Zmult_mod_idemp_l.
  change ((lcg_a_inv * lcg_a) mod 2 ^ 64) with 1.
  rewrite Z.mul_1_l. apply Z.mod_small. exact Hs.
Qed.

Lemma lcg_next_prev (t : Z) : 0 <= t < 2 ^ 64 -> lcg_next (lcg_prev t) = t.
Proof.
  intros Ht. unfold lcg_prev, lcg_next, wrap64.
  rewrite <- Zplus_mod_idemp_l, Zmult_mod_idemp_r, Zplus_mod_idemp_l.
  replace (lcg_a * (lcg_a_inv * (t - lcg_b)) + lcg_b)
    with ((lcg_a * lcg_a_inv) * (t - lcg_b) + lcg_b) by ring.
  rewrite <- Zplus_mod_idemp_l, <- Zmult_mod_idemp_l.
  change ((lcg_a * lcg_a_inv) mod 2 ^ 64) with 1.
  rewrite Z.mul_1_l, Zplus_mod_idemp_l.
  replace (t - lcg_b + lcg_b) with t by ring.
  apply Z.mod_small. exact Ht.
Qed.

(** X1: [random_lcg_integer] permutes the 64-bit state words: two engines
    that hold different words still hold different words after the call,
    and every word is the successor of exactly one word, [lcg_prev] of it. *)
Theorem random_lcg_integer_permutes (rdata1 rdata2 : random_data) (t : Z) :
  0 <= r rdata1 < 2 ^ 64 -> 0 <= r rdata2 < 2 ^ 64 -> 0 <= t < 2 ^ 64 ->
  (random_lcg_integer rdata1 = random_lcg_integer rdata2 -> rdata1 = rdata2) /\
  (0 <= lcg_prev t < 2 ^ 64 /\
   random_lcg_integer {| r := lcg_prev t |} = (t, {| r := t |})) /\
  (fst (random_lcg_integer rdata1) = t <-> r rdata1 = lcg_prev t).
Proof.
  intros H1 H2 Ht. split; [|split; [split|]].
  - intros Heq. rewrite !random_lcg_integer_eq in Heq.
    assert (Hn : lcg_next (r rdata1) = lcg_next (r rdata2)) by congruence.
    apply (f_equal lcg_prev) in Hn. rewrite !lcg_prev_next in Hn by assumption.
    destruct rdata1, rdata2. cbn [r] in Hn. now subst.
  - apply lcg_prev_range.
  - rewrite random_lcg_integer_eq. cbn [r]. now rewrite lcg_next_prev.
  - rewrite random_lcg_integer_eq. cbn [fst]. split.
    + intros <-. now rewrite lcg_prev_next.
    + intros ->. now apply lcg_next_prev.
Qed.

(** ** The period of the recurrence *)

Lemma lcg_pow_geom (k : nat) : lcg_a ^ Z.of_nat k = 1 + (lcg_a - 1) * lcg_geom k.
Proof.
  induction k as [|k IH]; [reflexivity|].
  rewrite Nat2Z.inj_succ, Z.pow_succ_r, IH by lia. cbn [lcg_geom]. ring.
Qed.

Lemma lcg_geom_add (j k : nat) :
  lcg_geom (j + k) = lcg_geom j + lcg_a ^ Z.of_nat j * lcg_geom k.
Proof.
  induction j as [|j IH].
  - cbn [Nat.add lcg_geom]. change (lcg_a ^ Z.of_nat 0) with 1. ring.
  - change (S j + k)%nat with (S (j + k)). cbn [lcg_geom].
    rewrite IH, Nat2Z.inj_succ, Z.pow_succ_r by lia. ring.
Qed.

(** [lcg_a - 1] is a multiple of four, which makes the second factor twice
    an odd number. *)
Lemma lcg_geom_double (k : nat) :
  lcg_geom (k + k) = 2 * (lcg_geom k * (1 + 2 * (715733388944485439 * lcg_geom k))).
Proof.
  rewrite lcg_geom_add, lcg_pow_geom.
  replace (lcg_a - 1) with (4 * 715733388944485439) by reflexivity. ring.
Qed.

Lemma lcg_geom_odd (k : nat) : Z.odd (lcg_geom k) = Nat.odd k.
Proof.
  induction k as [|k IH]; [reflexivity|].
  cbn [lcg_geom]. rewrite Z.odd_add, Z.odd_mul, IH, Nat.odd_succ.
  change (Z.odd lcg_a) with true. change (Z.odd 1) with true.
  rewrite <- Nat.negb_odd. now destruct (Nat.odd k).
Qed.

Lemma odd_not_divisible (x : Z) (e : nat) :
  Z.odd x = true -> ((2 ^ Z.of_nat e | x) <-> e = 0%nat).
Proof.
  intros Hodd. split.
  - intros [q Hq]. destruct e as [|e]; [reflexivity|exfalso].
    rewrite Nat2Z.inj_succ, Z.pow_succ_r in Hq by lia.
    replace (q * (2 * 2 ^ Z.of_nat e)) with (2 * (q * 2 ^ Z.of_nat e)) in Hq by ring.
    rewrite Hq, Z.odd_mul in Hodd. discriminate Hodd.
  - intros ->. apply Z.divide_1_l.
Qed.

Lemma divide_pow2_odd_factor (e : nat) : forall x c : Z,
  Z.odd c = true -> ((2 ^ Z.of_nat e | x * c) <-> (2 ^ Z.of_nat e | x)).
Proof.
  induction e as [|e IH]; intros x c Hodd.
  - split; intros _; apply Z.divide_1_l.
  - split; [|intros H; now apply Z.divide_mul_l].
    rewrite Nat2Z.inj_succ, Z.pow_succ_r by lia. intros H.
    assert (Hev : Z.even x = true).
    { destruct H as [q Hq].
      assert (Hxc : Z.even (x * c) = true)
        by (rewrite Hq; replace (q * (2 * 2 ^ Z.of_nat e)) with (2 * (q * 2 ^ Z.of_nat e))
              by ring; now rewrite Z.even_mul).
      rewrite Z.even_mul, <- (Z.negb_odd c), Hodd, orb_false_r in Hxc. exact Hxc. }
    apply Z.even_spec in Hev. destruct Hev as [h ->].
    replace (2 * h * c) with (2 * (h * c)) in H by ring.
    rewrite Z.mul_divide_cancel_l in H |- * by lia.
    now apply (IH h c).
Qed.

(** The power of two in [1 + a + ... + a^(k-1)] is that in [k]. *)
Lemma lcg_geom_two_adic (k : nat) : forall e : nat,
  (2 ^ Z.of_nat e | lcg_geom k) <-> (2 ^ Z.of_nat e | Z.of_nat k).
Proof.
  induction k as [k IH] using lt_wf_ind. intros e.
  destruct (Nat.Even_or_Odd k) as [[h Hh]|[h Hh]].
  - destruct (Nat.eq_dec h 0%nat) as [->|Hnz].
    + subst k. split; intros _; apply Z.divide_0_r.
    + assert (Hk : k = (h + h)%nat) by lia. rewrite Hk, lcg_geom_double.
      destruct e as [|e]; [split; intros _; apply Z.divide_1_l|].
      rewrite Nat2Z.inj_succ, Z.pow_succ_r by lia.
      replace (Z.of_nat (h + h)) with (2 * Z.of_nat h) by lia.
      rewrite !Z.mul_divide_cancel_l by lia.
      rewrite divide_pow2_odd_factor.
      * apply IH. lia.
      * rewrite Z.odd_add, Z.odd_mul. reflexivity.
  - assert (Hodd : Nat.odd k = true) by (apply Nat.odd_spec; exists h; exact Hh).
    rewrite (odd_not_divisible (lcg_geom k)) by (now rewrite lcg_geom_odd).
    rewrite (odd_not_divisible (Z.of_nat k)); [reflexivity|].
    rewrite Hh. rewrite Nat2Z.inj_add, Nat2Z.inj_mul, Z.odd_add, Z.odd_mul. reflexivity.
Qed.

Lemma lcg_iter_closed (k : nat) (s : Z) :
  wrap64 (lcg_iter k s) = wrap64 (s + lcg_geom k * ((lcg_a - 1) * s + lcg_b)).
Proof.
  induction k as [|k IH].
  - change (lcg_iter 0 s) with s. change (lcg_geom 0) with 0. f_equal. ring.
  - rewrite lcg_iter_S. unfold lcg_next at 1. unfold wrap64 in *.
    rewrite Z.mod_mod by lia.
    rewrite <- Zplus_mod_idemp_l, <- Zmult_mod_idemp_r, IH.
    rewrite Zmult_mod_idemp_r, Zplus_mod_idemp_l.
    f_equal. cbn [lcg_geom]. ring.
Qed.

Lemma mod_eq_divide (x y d : Z) : 0 < d -> (x mod d = y mod d <-> (d | x - y)).
Proof.
  intros Hd. split.
  - intros H. exists (x / d - y / d).
    pose proof (Z.div_mod x d ltac:(lia)). pose proof (Z.div_mod y d ltac:(lia)). nia.
  - intros [q Hq]. replace x with (y + q * d) by lia. apply Z.mod_add. lia.
Qed.

Lemma mod_of_wrap64 (x d : Z) : 0 < d -> (d | 2 ^ 64) -> wrap64 x mod d = x mod d.
Proof.
  intros Hd [q Hq]. unfold wrap64. apply mod_eq_divide; [assumption|].
  remember (2 ^ 64) as M eqn:HM.
  assert (HMpos : M <> 0) by (subst M; discriminate).
  exists (- (x / M) * q).
  pose proof (Z.div_mod x M HMpos) as Hx.
  set (y := x / M) in *. set (rm := x mod M) in *. rewrite Hq in Hx. lia.
Qed.

(** X2: the lowest [e] bits of the state word, for every [e <= 64], come
    back to their value after [k] steps exactly when [2^e] divides [k]: the
    state word has the full period [2^64], its lowest bit alternates, and
    its lowest [e] bits repeat every [2^e] draws. *)
Theorem lcg_low_bits_period (e k : nat) (s : Z) :
  (e <= 64)%nat ->
  (lcg_iter k s mod 2 ^ Z.of_nat e = s mod 2 ^ Z.of_nat e <->
   (2 ^ Z.of_nat e | Z.of_nat k)).
Proof.
  intros He.
  assert (Hpos : 0 < 2 ^ Z.of_nat e) by (apply Z.pow_pos_nonneg; lia).
  assert (Hdiv : (2 ^ Z.of_nat e | 2 ^ 64)).
  { exists (2 ^ (64 - Z.of_nat e)). rewrite <- Z.pow_add_r by lia. f_equal. lia. }
  rewrite <- (mod_of_wrap64 (lcg_iter k s)) by assumption.
  rewrite lcg_iter_closed, mod_of_wrap64 by assumption.
  rewrite mod_eq_divide by assumption.
  replace (s + lcg_geom k * ((lcg_a - 1) * s + lcg_b) - s)
    with (lcg_geom k * ((lcg_a - 1) * s + lcg_b)) by ring.
  rewrite divide_pow2_odd_factor.
  - apply lcg_geom_two_adic.
  - rewrite Z.odd_add, Z.odd_mul. reflexivity.
Qed.

(** ** The smallest deviates *)

(** X3: the scalar uniform sampler returns [+0.0] from exactly one state
    word, 17295553536498714127, the one that the recurrence takes to the
    word 0; from every other word it returns at least [2^-64]. *)
Theorem uniform_zero_from_one_word (rdata : random_data) :
  0 <= r rdata < 2 ^ 64 ->
  exists u rdata',
    random_lcg_uniform rdata = Returns (u, rdata') /\
    (u = dbl_zero <-> r rdata = 17295553536498714127) /\
    (u <> dbl_zero -> dle (S754_finite false 4503599627370496 (-116)) u = true).
Proof.
  intros Hr. rewrite random_lcg_uniform_eq. eexists _, _. split; [reflexivity|].
  pose proof (lcg_next_range (r rdata)) as Hx.
  assert (Hzero : lcg_next (r rdata) = 0 <-> r rdata = 17295553536498714127).
  { change 17295553536498714127 with (lcg_prev 0). split.
    - intros H. rewrite <- H. symmetry. now apply lcg_prev_next.
    - intros ->. now apply lcg_next_prev. }
  destruct (Z.eq_dec (lcg_next (r rdata)) 0) as [Hz|Hnz].
  - rewrite Hz, uniform_of_word_0. split; [|congruence].
    split; intros _; [now apply Hzero|reflexivity].
  - destruct (uniform_of_word_pos (lcg_next (r rdata)) ltac:(lia))
      as (m & e & -> & Hd & He & _).
    split.
    + split; [discriminate|]. intros H. now apply Hzero in H.
    + intros _. unfold dle, SFleb, SFcompare.
      destruct (Z.compare_spec (-116) e) as [Heq|Hlt|Hgt]; [|reflexivity|lia].
      pose proof (digits2_pos_bounds m) as Hm. rewrite Hd in Hm.
      change (2 ^ (53 - 1)) with 4503599627370496 in Hm.
      destruct (Pos.compare_cont Eq 4503599627370496 m) eqn:Hc; try reflexivity.
      apply (proj1 (Pos.compare_gt_iff 4503599627370496 m)) in Hc.
      apply Pos2Z.pos_lt_pos in Hc.
      clear -Hc Hm. lia.
Qed.

(** ** How batches compose *)

Lemma lcg_iter_add (j k : nat) (s : Z) : lcg_iter (j + k) s = lcg_iter j (lcg_iter k s).
Proof. unfold lcg_iter. apply Nat.iter_add. Qed.

(** X4: a uniform batch of [n + m] values is a batch of [n] followed by a
    batch of [m] on the engine it leaves: the same values in the same
    order, and the same final engine. *)
Theorem uniform_batch_splits (rdata : random_data) (n m : Z) (out : gmap Z double) :
  0 <= n -> 0 <= m -> n + m <= INT_MAX ->
  exists rdata1 out1 rdata2 out2 out12,
    random_lcg_uniform_simd rdata n out = Returns (rdata1, out1) /\
    random_lcg_uniform_simd rdata1 m ∅ = Returns (rdata2, out2) /\
    random_lcg_uniform_simd rdata (n + m) out = Returns (rdata2, out12) /\
    (forall j, 0 <= j < n -> out12 !! j = out1 !! j) /\
    (forall j, 0 <= j < m -> out12 !! (n + j) = out2 !! j).
Proof.
  intros Hn Hm Hnm.
  destruct (random_lcg_uniform_simd_spec rdata n out ltac:(lia)) as (out1 & Hrun1 & Hout1).
  destruct (random_lcg_uniform_simd_spec {| r := lcg_iter (Z.to_nat n) (r rdata) |} m ∅
              ltac:(lia)) as (out2 & Hrun2 & Hout2).
  destruct (random_lcg_uniform_simd_spec rdata (n + m) out ltac:(lia))
    as (out12 & Hrun12 & Hout12).
  eexists _, out1, _, out2, out12.
  split; [exact Hrun1|]. split; [exact Hrun2|]. split; [|split].
  - rewrite Hrun12. cbn [r]. rewrite <- lcg_iter_add.
    replace (Z.to_nat m + Z.to_nat n)%nat with (Z.to_nat (n + m)) by lia. reflexivity.
  - intros j Hj. rewrite Hout12, Hout1, !decide_True by lia. reflexivity.
  - intros j Hj. rewrite Hout12, Hout2, !decide_True by lia. cbn [r].
    rewrite <- lcg_iter_add.
    replace (S (Z.to_nat j) + Z.to_nat n)%nat with (S (Z.to_nat (n + j))) by lia.
    reflexivity.
Qed.

Section CommonFormComposition.

Variables log cos : double -> double.
Variable CONST_2PI : double.
Variable A5_CCOL_USE_GEOBM : Z.

#[local] Abbreviation normal_simd_lcg :=
  (random_lcg_normal_simd log cos CONST_2PI A5_CCOL_USE_GEOBM).
#[local] Abbreviation pair_of_word k s :=
  (trig_pair log cos CONST_2PI
     (uniform_of_word (lcg_iter (2 * k + 1) s)) (uniform_of_word (lcg_iter (2 * k + 2) s))).

(** X5: with the common form, a normal batch of an odd number [n] of values
    draws as many uniforms as the batch of [n + 1] values: both leave the
    engine in the same state and store the same values in [out[0..n)]; the
    odd batch only leaves [out[n]] alone. *)
Theorem odd_normal_batch_draws_like_next_even
    (fuel : nat) (rdata : random_data) (n : Z) (out : gmap Z double) :
  A5_CCOL_USE_GEOBM <> 1 -> 0 <= n -> Z.odd n = true -> n + 1 < INT_MAX ->
  exists rdata' out1 out2,
    normal_simd_lcg fuel rdata n out = Returns (rdata', out1) /\
    normal_simd_lcg fuel rdata (n + 1) out = Returns (rdata', out2) /\
    (forall j, 0 <= j < n -> out1 !! j = out2 !! j) /\
    out1 !! n = out !! n /\ is_Some (out2 !! n).
Proof.
  intros Hform Hn Hodd Hmax.
  destruct (random_lcg_normal_simd_common log cos CONST_2PI A5_CCOL_USE_GEOBM
              fuel rdata n out Hform ltac:(lia)) as (out1 & Hrun1 & Hval1).
  destruct (random_lcg_normal_simd_common log cos CONST_2PI A5_CCOL_USE_GEOBM
              fuel rdata (n + 1) out Hform ltac:(lia)) as (out2 & Hrun2 & Hval2).
  apply Z.odd_spec in Hodd. destruct Hodd as [h Hh].
  assert (Hpairs : (n + 1 + 1) / 2 = (n + 1) / 2).
  { rewrite Hh. replace (2 * h + 1 + 1 + 1) with (1 + (h + 1) * 2) by lia.
    replace (2 * h + 1 + 1) with (0 + (h + 1) * 2) by lia.
    rewrite !Z.div_add by lia. reflexivity. }
  rewrite Hpairs in Hrun2.
  eexists _, out1, out2. split; [exact Hrun1|]. split; [exact Hrun2|].
  pose proof Hrun1 as Hw1. pose proof Hrun2 as Hw2.
  unfold random_lcg_normal_simd in Hw1, Hw2.
  apply normal_simd_writes_exactly in Hw1; [|lia].
  apply normal_simd_writes_exactly in Hw2; [|lia].
  split; [|split].
  - intros j Hj.
    destruct (Z.even j) eqn:Hev.
    + apply Z.even_spec in Hev. destruct Hev as [q ->].
      destruct (Hval1 (Z.to_nat q)) as [H1 _]. destruct (Hval2 (Z.to_nat q)) as [H2 _].
      rewrite Z2Nat.id in H1, H2 by lia. rewrite H1, H2 by lia. reflexivity.
    + rewrite <- Z.negb_odd in Hev. apply negb_false_iff, Z.odd_spec in Hev.
      destruct Hev as [q ->].
      destruct (Hval1 (Z.to_nat q)) as [_ H1]. destruct (Hval2 (Z.to_nat q)) as [_ H2].
      rewrite Z2Nat.id in H1, H2 by lia. rewrite H1, H2 by lia. reflexivity.
  - destruct Hw1 as (_ & Hframe & _). apply Hframe. lia.
  - destruct Hw2 as (Hsome & _). apply Hsome. lia.
Qed.

(** The scalar normal sampler with the common form: the first value of the
    pair of the next two draws. *)
Lemma random_lcg_normal_common (fuel : nat) (rdata : random_data) :
  A5_CCOL_USE_GEOBM <> 1 ->
  random_lcg_normal log cos CONST_2PI A5_CCOL_USE_GEOBM fuel rdata =
    Returns (fst (pair_of_word 0%nat (r rdata)), {| r := lcg_iter 2 (r rdata) |}).
Proof.
  intros Hform. unfold random_lcg_normal.
  destruct (random_lcg_normal_simd_common log cos CONST_2PI A5_CCOL_USE_GEOBM
              fuel rdata 1 ∅ Hform ltac:(unfold INT_MAX; lia)) as (out' & Hrun & Hval).
  rewrite Hrun. cbn [mbind outcome_bind].
  destruct (Hval 0%nat) as [H0 _]. change (2 * Z.of_nat 0) with 0 in H0.
  rewrite H0 by lia. reflexivity.
Qed.

Lemma normal_seq_common (fuel : nat) (k : nat) : forall rdata,
  A5_CCOL_USE_GEOBM <> 1 ->
  normal_seq log cos CONST_2PI A5_CCOL_USE_GEOBM k fuel rdata =
    Returns (map (fun j => fst (pair_of_word j (r rdata))) (seq 0 k),
             {| r := lcg_iter (2 * k) (r rdata) |}).
Proof.
  induction k as [|k IH]; intros rdata Hform.
  - destruct rdata as [s]. reflexivity.
  - cbn [normal_seq]. rewrite random_lcg_normal_common by assumption.
    cbn [mbind outcome_bind]. rewrite IH by assumption. cbn [mbind outcome_bind r].
    f_equal. f_equal.
    + cbn [seq map]. f_equal.
      rewrite <- seq_shift, map_map. apply map_ext. intros j.
      rewrite <- !lcg_iter_add.
      replace (2 * j + 1 + 2)%nat with (2 * S j + 1)%nat by lia.
      replace (2 * j + 2 + 2)%nat with (2 * S j + 2)%nat by lia. reflexivity.
    + rewrite <- lcg_iter_add. f_equal. f_equal. lia.
Qed.

(** X6: with the common form, [k] calls of the scalar normal sampler draw
    the uniforms of a batch of [2k] values and return only its values of
    even index: each call computes a pair and drops the second value.  The
    batch of [k] values is therefore not [k] scalar calls. *)
Theorem scalar_normals_are_even_cells_of_batch
    (fuel : nat) (rdata : random_data) (k : nat) :
  A5_CCOL_USE_GEOBM <> 1 -> 2 * Z.of_nat k < INT_MAX ->
  exists xs rdata' out',
    normal_seq log cos CONST_2PI A5_CCOL_USE_GEOBM k fuel rdata = Returns (xs, rdata') /\
    normal_simd_lcg fuel rdata (2 * Z.of_nat k) ∅ = Returns (rdata', out') /\
    length xs = k /\
    forall j : nat, (j < k)%nat -> out' !! (2 * Z.of_nat j) = xs !! j.
Proof.
  intros Hform Hk.
  destruct (random_lcg_normal_simd_common log cos CONST_2PI A5_CCOL_USE_GEOBM
              fuel rdata (2 * Z.of_nat k) ∅ Hform ltac:(lia)) as (out' & Hrun & Hval).
  eexists _, _, out'. split; [now apply normal_seq_common|]. split; [|split].
  - rewrite Hrun. f_equal. f_equal. f_equal. f_equal.
    replace (2 * Z.of_nat k + 1) with (1 + Z.of_nat k * 2) by lia.
    rewrite Z.div_add by lia. change (1 / 2) with 0. lia.
  - now rewrite length_map, length_seq.
  - intros j Hj. destruct (Hval j) as [H0 _]. rewrite H0 by lia.
    rewrite list_lookup_fmap, lookup_seq_lt by assumption. reflexivity.
Qed.

End CommonFormComposition.

(** ** The batches over a library generator *)

Section ScalarLoopFacts.

Context {St : Type}.
Variable draw : St -> double * St.

Lemma draw_seq_length (k : nat) : forall st, length (fst (draw_seq draw k st)) = k.
Proof.
  induction k as [|k IH]; intros st; [reflexivity|].
  cbn [draw_seq]. destruct (draw st) as [x st'].
  specialize (IH st'). destruct (draw_seq draw k st') as [xs st''].
  cbn [fst length] in *. now rewrite IH.
Qed.

Lemma scalar_loop_exit steps n i st (out : gmap Z double) :
  n <= i -> scalar_loop draw steps n i st out = Returns (st, out).
Proof.
  intros Hi. apply Z.ltb_ge in Hi.
  destruct steps; cbn [scalar_loop]; now rewrite Hi.
Qed.

(** The loop always returns; it stores in [out[i..n)] the values of
    [n - i] successive scalar calls and leaves the generator where those
    calls leave it. *)
Lemma scalar_loop_spec steps : forall n i st (out : gmap Z double),
  0 <= i -> n <= INT_MAX -> (Z.to_nat (n - i) <= steps)%nat ->
  exists out' : gmap Z double,
    scalar_loop draw steps n i st out =
      Returns (snd (draw_seq draw (Z.to_nat (n - i)) st), out') /\
    forall j, out' !! j =
      if decide (i <= j < n)
      then fst (draw_seq draw (Z.to_nat (n - i)) st) !! Z.to_nat (j - i)
      else out !! j.
Proof.
  induction steps as [|steps IH]; intros n i st out Hi Hn Hsteps;
    destruct (Z_lt_le_dec i n) as [Hlt|Hge]; try lia;
    try (exists out; rewrite scalar_loop_exit by lia;
         replace (Z.to_nat (n - i)) with 0%nat by lia;
         split; [reflexivity|]; intros j; case_decide; [lia|reflexivity]).
  cbn [scalar_loop]. replace (i <? n) with true by (symmetry; apply Z.ltb_lt; lia).
  replace (Z.to_nat (n - i)) with (S (Z.to_nat (n - (i + 1)))) by lia.
  cbn [draw_seq]. destruct (draw st) as [x st'].
  int_in_range. cbn [mbind outcome_bind].
  destruct (IH n (i + 1) st' (<[i := x]> out)) as (out' & Hrun & Hout); [lia|lia|lia|].
  exists out'. destruct (draw_seq draw (Z.to_nat (n - (i + 1))) st') as [xs st''].
  cbn [fst snd] in *. split; [exact Hrun|].
  intros j. rewrite Hout.
  destruct (decide (i + 1 <= j < n)) as [Hj|Hj].
  - rewrite decide_True by lia.
    replace (Z.to_nat (j - i)) with (S (Z.to_nat (j - (i + 1)))) by lia. reflexivity.
  - destruct (decide (j = i)) as [->|Hne].
    + rewrite lookup_insert_eq, decide_True by lia.
      replace (Z.to_nat (i - i)) with 0%nat by lia. reflexivity.
    + rewrite lookup_insert_ne by congruence. rewrite decide_False by lia. reflexivity.
Qed.

Lemma scalar_batch_spec n st (out : gmap Z double) :
  n <= INT_MAX ->
  exists xs st' out',
    draw_seq draw (Z.to_nat n) st = (xs, st') /\
    scalar_loop draw (Z.to_nat n) n 0 st out = Returns (st', out') /\
    length xs = Z.to_nat n /\ stores_list xs out out'.
Proof.
  intros Hn.
  destruct (scalar_loop_spec (Z.to_nat n) n 0 st out) as (out' & Hrun & Hout);
    [lia|lia|lia|].
  rewrite Z.sub_0_r in Hrun, Hout.
  pose proof (draw_seq_length (Z.to_nat n) st) as Hlen.
  destruct (draw_seq draw (Z.to_nat n) st) as [xs st'] eqn:Hseq. cbn [fst snd] in *.
  exists xs, st', out'. split; [reflexivity|]. split; [exact Hrun|].
  split; [exact Hlen|].
  intros j. rewrite Hout, Hlen, Z.sub_0_r.
  destruct (decide (0 <= j < n)); [rewrite decide_True by lia|rewrite decide_False by lia];
    reflexivity.
Qed.

End ScalarLoopFacts.

(** X7: the uniform and the normal batch of the GSL backend and the uniform
    batch of the [drand48] backend return for every [int n], also for
    [INT_MAX]; they store in [out[0..n)] the values that [n] successive
    scalar calls return and leave the generator where those calls leave it;
    for [n <= 0] nothing is stored and the generator is not used. *)
Theorem library_batches_are_scalar_draws
    {gsl_rng rand48 : Type}
    (gsl_rng_uniform : gsl_rng -> double * gsl_rng)
    (gsl_ran_gaussian : gsl_rng -> double -> double * gsl_rng)
    (drand48 : rand48 -> double * rand48)
    (rdata : gsl_rng) (g : rand48) (n : Z) (out : gmap Z double) :
  n <= INT_MAX ->
  (exists xs rdata' out',
     draw_seq (random_gsl_uniform gsl_rng_uniform) (Z.to_nat n) rdata = (xs, rdata') /\
     random_gsl_uniform_simd gsl_rng_uniform rdata n out = Returns (rdata', out') /\
     length xs = Z.to_nat n /\ stores_list xs out out') /\
  (exists xs rdata' out',
     draw_seq (random_gsl_normal gsl_ran_gaussian) (Z.to_nat n) rdata = (xs, rdata') /\
     random_gsl_normal_simd gsl_ran_gaussian rdata n out = Returns (rdata', out') /\
     length xs = Z.to_nat n /\ stores_list xs out out') /\
  (exists xs g' out',
     draw_seq drand48 (Z.to_nat n) g = (xs, g') /\
     random_drand48_uniform_simd drand48 g n out = Returns (g', out') /\
     length xs = Z.to_nat n /\ stores_list xs out out').
Proof.
  intros Hn. split; [|split].
  - exact (scalar_batch_spec gsl_rng_uniform n rdata out Hn).
  - exact (scalar_batch_spec (fun g => gsl_ran_gaussian g dbl_one) n rdata out Hn).
  - exact (scalar_batch_spec drand48 n g out Hn).
Qed.

(** ** The values of the geometric form *)

Section GeometricFormValues.

Variable log : double -> double.

Context {St : Type}.
Variable uniform : St -> outcome (double * St).

Lemma geobm_while_exit fuel x1 x2 w (st : St) :
  dle dbl_one w = false ->
  geobm_while uniform fuel x1 x2 w st = Returns (x1, x2, w, st).
Proof. intros Hw. destruct fuel; cbn [geobm_while]; now rewrite Hw. Qed.

(** The point that the rejection loop hands on is made of the last two
    deviates it drew. *)
Lemma geobm_while_point fuel : forall x1 x2 w st x1' x2' w' st',
  dle dbl_one w = true ->
  geobm_while uniform fuel x1 x2 w st = Returns (x1', x2', w', st') ->
  exists st0 u1 st1 u2,
    uniform st0 = Returns (u1, st1) /\ uniform st1 = Returns (u2, st') /\
    x1' = polar_coordinate u1 /\ x2' = polar_coordinate u2 /\
    w' = polar_radius u1 u2 /\ dle dbl_one w' = false.
Proof.
  induction fuel as [|fuel IH]; intros x1 x2 w st x1' x2' w' st' Hw Hrun;
    cbn [geobm_while] in Hrun; rewrite Hw in Hrun; [discriminate Hrun|].
  destruct (uniform st) as [[u1 st1]| |] eqn:Hu1; cbn [mbind outcome_bind] in Hrun;
    try discriminate Hrun.
  destruct (uniform st1) as [[u2 st2]| |] eqn:Hu2; cbn [mbind outcome_bind] in Hrun;
    try discriminate Hrun.
  fold (polar_coordinate u1) in Hrun. fold (polar_coordinate u2) in Hrun.
  destruct (dle dbl_one (dadd (dmul (polar_coordinate u1) (polar_coordinate u1))
                              (dmul (polar_coordinate u2) (polar_coordinate u2)))) eqn:Hw'.
  - exact (IH _ _ _ _ _ _ _ _ Hw' Hrun).
  - rewrite geobm_while_exit in Hrun by exact Hw'.
    injection Hrun as <- <- <- <-.
    exists st, u1, st1, u2. repeat split; assumption.
Qed.

Lemma geobm_for_pairs steps : forall fuel n i st (out : gmap Z double) st' out',
  0 <= i -> Z.even i = true -> n < INT_MAX ->
  geobm_for log uniform steps fuel n (Z.rem (n + 1) 2) i st out = Returns (st', out') ->
  forall k : nat, i + 2 * Z.of_nat k < n ->
  exists st0 u1 st1 u2 st2,
    uniform st0 = Returns (u1, st1) /\ uniform st1 = Returns (u2, st2) /\
    dle dbl_one (polar_radius u1 u2) = false /\
    let p := polar_pair log (polar_coordinate u1) (polar_coordinate u2)
               (polar_radius u1 u2) in
    out' !! (i + 2 * Z.of_nat k) = Some (fst p) /\
    (i + 2 * Z.of_nat k + 1 < n -> out' !! (i + 2 * Z.of_nat k + 1) = Some (snd p)).
Proof.
  induction steps as [|steps IH]; intros fuel n i st out st' out' Hi Hev Hn Hrun k Hk.
  - cbn [geobm_for] in Hrun.
    replace (i <? n) with true in Hrun by (symmetry; apply Z.ltb_lt; lia).
    discriminate.
  - rewrite geobm_for_step in Hrun by (assumption || lia).
    apply bind_returns in Hrun. destruct Hrun as ([[[x1 x2] w] st1] & Hwh & Hrest).
    assert (Hev2 : Z.even (i + 2) = true)
      by (rewrite Z.even_add, Hev; reflexivity).
    destruct k as [|k].
    + apply geobm_while_point in Hwh; [|reflexivity].
      destruct Hwh as (st0 & u1 & st0' & u2 & Hu1 & Hu2 & -> & -> & -> & Hexit).
      exists st0, u1, st0', u2, st1.
      split; [exact Hu1|]. split; [exact Hu2|]. split; [exact Hexit|].
      apply geobm_for_fills in Hrest; [|lia|assumption|assumption].
      cbv zeta. replace (i + 2 * Z.of_nat 0) with i by lia. split.
      * rewrite (proj2 (Hrest i)) by lia.
        rewrite store_pair_lookup, decide_True by reflexivity. reflexivity.
      * intros Hlt. rewrite (proj2 (Hrest (i + 1))) by lia.
        rewrite store_pair_lookup, decide_False by lia.
        rewrite decide_True by lia. reflexivity.
    + assert (Hi2 : 0 <= i + 2) by lia.
      assert (Hk2 : i + 2 + 2 * Z.of_nat k < n) by lia.
      destruct (IH _ _ _ _ _ _ _ Hi2 Hev2 Hn Hrest k Hk2)
        as (st0 & u1 & st0' & u2 & st2 & Hu1 & Hu2 & Hexit & Hfst & Hsnd).
      exists st0, u1, st0', u2, st2.
      split; [exact Hu1|]. split; [exact Hu2|]. split; [exact Hexit|].
      cbv zeta in *.
      replace (i + 2 * Z.of_nat (S k)) with (i + 2 + 2 * Z.of_nat k) by lia.
      split; [exact Hfst|exact Hsnd].
Qed.

End GeometricFormValues.

(** X8: in the geometric form, when a normal batch of the linear-congruential
    backend returns, every pair of cells [out[2k]], [out[2k+1]] of the
    request holds [x1 * f] and [x2 * f] with [f = sqrt(-2 log(w) / w)],
    where [x1 = 2 u1 - 1] and [x2 = 2 u2 - 1] come from two successive state
    words of the recurrence and [w = x1*x1 + x2*x2] is an accepted radius. *)
Theorem geometric_form_pairs
    (log cos : double -> double) (CONST_2PI : double)
    (fuel : nat) (rdata : random_data) (n : Z) (out : gmap Z double)
    (rdata' : random_data) (out' : gmap Z double) :
  0 <= n < INT_MAX ->
  random_lcg_normal_simd log cos CONST_2PI 1 fuel rdata n out = Returns (rdata', out') ->
  forall k : nat, 2 * Z.of_nat k < n ->
  exists s : Z,
    let u1 := uniform_of_word (lcg_next s) in
    let u2 := uniform_of_word (lcg_next (lcg_next s)) in
    let w := polar_radius u1 u2 in
    let p := polar_pair log (polar_coordinate u1) (polar_coordinate u2) w in
    accepted w /\
    out' !! (2 * Z.of_nat k) = Some (fst p) /\
    (2 * Z.of_nat k + 1 < n -> out' !! (2 * Z.of_nat k + 1) = Some (snd p)).
Proof.
  intros Hn Hrun k Hk.
  unfold random_lcg_normal_simd, normal_simd in Hrun.
  rewrite (int_val_in_range (n + 1)) in Hrun by (unfold INT_MIN, INT_MAX in *; lia).
  cbn [mbind outcome_bind] in Hrun. change (1 =? 1) with true in Hrun. cbv iota in Hrun.
  assert (Hn' : n < INT_MAX) by lia.
  assert (Hk' : 0 + 2 * Z.of_nat k < n) by lia.
  destruct (geobm_for_pairs log random_lcg_uniform _ _ _ _ _ _ _ _
              (Z.le_refl 0) eq_refl Hn' Hrun k Hk')
    as (rd0 & u1 & rd1 & u2 & rd2 & Hu1 & Hu2 & Hexit & Hfst & Hsnd).
  rewrite random_lcg_uniform_eq in Hu1. injection Hu1 as <- <-.
  rewrite random_lcg_uniform_eq in Hu2. cbn [r] in Hu2. injection Hu2 as <- <-.
  exists (r rd0). cbv zeta in *. rewrite !Z.add_0_l in *.
  split; [|split; assumption].
  pose proof (uniform_of_word_deviate _ (lcg_next_range (r rd0))) as [Hd1 Hh1].
  pose proof (uniform_of_word_deviate _ (lcg_next_range (lcg_next (r rd0)))) as [Hd2 Hh2].
  apply accepted_radius; try assumption.
  intros [Ha Hb]. apply Hh1 in Ha. apply Hh2 in Hb.
  rewrite (half_window_not_twice _ Ha) in Hb. discriminate Hb.
Qed.

(** ** The accelerator path *)

Lemma lookup_foldr_insert (vals : Z -> double) (cells : gmap Z double) (l : list Z) (j : Z) :
  foldr (fun i c => <[i := vals i]> c) cells l !! j =
    if decide (j ∈ l) then Some (vals j) else cells !! j.
Proof.
  induction l as [|a l IH]; cbn [foldr].
  - rewrite decide_False by apply not_elem_of_nil. reflexivity.
  - destruct (decide (j = a)) as [->|Hne].
    + rewrite lookup_insert_eq, decide_True by apply list_elem_of_here. reflexivity.
    + rewrite lookup_insert_ne by congruence. rewrite IH.
      destruct (decide (j ∈ l)) as [Hin|Hnin].
      * rewrite decide_True by (apply list_elem_of_further; exact Hin). reflexivity.
      * rewrite decide_False; [reflexivity|].
        intros Hin. apply elem_of_cons in Hin. tauto.
Qed.

(** The bulk call overwrites the cells [0 .. count-1] and no other. *)
Lemma lookup_fill_cells (vals : Z -> double) (count : Z) (cells : gmap Z double) (j : Z) :
  fill_cells vals count cells !! j =
    if decide (0 <= j < count) then Some (vals j) else cells !! j.
Proof.
  unfold fill_cells. rewrite lookup_foldr_insert.
  destruct (decide (0 <= j < count)) as [Hj|Hj].
  - rewrite decide_True; [reflexivity|]. apply elem_of_seqZ. lia.
  - rewrite decide_False; [reflexivity|]. rewrite elem_of_seqZ. lia.
Qed.

Section AcceleratorFacts.

Variables log cos : double -> double.
Variable CONST_2PI : double.

Context {curand_gen : Type}.

Lemma cuda_read_filled (g : curand_gen) vals count cells size j :
  0 <= j < count -> count <= size ->
  cuda_read {| gen := g; r_cuda := fill_cells vals count cells; r_cuda_size := size |} j
    = Returns (vals j).
Proof.
  intros Hj Hsize. unfold cuda_read. cbn [r_cuda r_cuda_size].
  replace (0 <=? j) with true by (symmetry; apply Z.leb_le; lia).
  replace (j <? size) with true by (symmetry; apply Z.ltb_lt; lia).
  cbn [andb]. rewrite lookup_fill_cells, decide_True by lia. reflexivity.
Qed.

Lemma cuda_read_beyond (g : curand_gen) vals count cells size j :
  count <= j ->
  cuda_read {| gen := g; r_cuda := fill_cells vals count cells; r_cuda_size := size |} j
    = if (0 <=? j) && (j <? size)
      then match cells !! j with Some x => Returns x | None => Undefined end
      else Undefined.
Proof.
  intros Hj. unfold cuda_read. cbn [r_cuda r_cuda_size].
  rewrite lookup_fill_cells, decide_False by lia. reflexivity.
Qed.

Lemma cuda_common_for_step steps (data : random_cuda curand_gen) n i (out : gmap Z double) :
  0 <= i < n -> Z.even i = true -> n < INT_MAX ->
  cuda_common_for log cos CONST_2PI (S steps) data n (Z.rem (n + 1) 2) i out =
    (x1 ← cuda_read data i;
     x2 ← cuda_read data (i + 1);
     let p := trig_pair log cos CONST_2PI x1 x2 in
     cuda_common_for log cos CONST_2PI steps data n (Z.rem (n + 1) 2) (i + 2)
       (store_pair n i (fst p) (snd p) out)).
Proof.
  intros Hi Hev Hn. cbn [cuda_common_for].
  replace (i <? n) with true by (symmetry; apply Z.ltb_lt; lia).
  destruct (cuda_read data i) as [x1| |]; cbn [mbind outcome_bind]; try reflexivity.
  rewrite (int_val_in_range (i + 1)) by (unfold INT_MIN, INT_MAX in *; lia).
  cbn [mbind outcome_bind].
  destruct (cuda_read data (i + 1)) as [x2| |]; cbn [mbind outcome_bind]; try reflexivity.
  rewrite (int_val_in_range (n - 2)) by (unfold INT_MIN, INT_MAX in *; lia).
  cbn [mbind outcome_bind].
  rewrite second_store_guard by assumption.
  unfold store_pair, trig_pair. cbn [fst snd].
  destruct (i + 1 <? n);
    cbn [mbind outcome_bind mret outcome_ret];
    [destruct (dlt x2 dbl_half); cbn [mbind outcome_bind mret outcome_ret]|];
    rewrite (int_val_in_range (i + 2)) by (unfold INT_MIN, INT_MAX in *; lia);
    reflexivity.
Qed.

Lemma cuda_geobm_for_step steps fuel (data : random_cuda curand_gen) n i
    (out : gmap Z double) :
  0 <= i < n -> Z.even i = true -> n < INT_MAX ->
  cuda_geobm_for log (S steps) fuel data n (Z.rem (n + 1) 2) i out =
    ('(x1, x2, w) ← cuda_while fuel data i S754_nan S754_nan dbl_two;
     let p := polar_pair log x1 x2 w in
     cuda_geobm_for log steps fuel data n (Z.rem (n + 1) 2) (i + 2)
       (store_pair n i (fst p) (snd p) out)).
Proof.
  intros Hi Hev Hn. cbn [cuda_geobm_for].
  replace (i <? n) with true by (symmetry; apply Z.ltb_lt; lia).
  destruct (cuda_while fuel data i S754_nan S754_nan dbl_two)
    as [[[x1 x2] w]| |]; cbn [mbind outcome_bind]; try reflexivity.
  rewrite (int_val_in_range (n - 2)) by (unfold INT_MIN, INT_MAX in *; lia).
  cbn [mbind outcome_bind].
  rewrite second_store_guard by assumption.
  unfold store_pair, polar_pair. cbn [fst snd].
  destruct (i + 1 <? n);
    rewrite ?(int_val_in_range (i + 1)) by (unfold INT_MIN, INT_MAX in *; lia);
    cbn [mbind outcome_bind mret outcome_ret];
    rewrite (int_val_in_range (i + 2)) by (unfold INT_MIN, INT_MAX in *; lia);
    reflexivity.
Qed.

Lemma cuda_common_for_exit steps (data : random_cuda curand_gen) n e i (out : gmap Z double) :
  n <= i -> cuda_common_for log cos CONST_2PI steps data n e i out = Returns out.
Proof.
  intros Hi. apply Z.ltb_ge in Hi.
  destruct steps; cbn [cuda_common_for]; now rewrite Hi.
Qed.

(** The common form over a buffer whose cells the loop reads hold [cell]:
    the loop returns, every pair of the request is the pair of two
    neighbouring cells, and nothing is stored outside the request.  For an
    odd [n] the cell [n] is among those read. *)
Lemma cuda_common_for_spec (data : random_cuda curand_gen) (cell : Z -> double) steps :
  forall n i (out : gmap Z double),
  0 <= i -> Z.even i = true -> n < INT_MAX -> (Z.to_nat (n - i) <= steps)%nat ->
  (forall j, i <= j <= n -> j < n \/ Z.odd n = true -> cuda_read data j = Returns (cell j)) ->
  exists out' : gmap Z double,
    cuda_common_for log cos CONST_2PI steps data n (Z.rem (n + 1) 2) i out = Returns out' /\
    (forall k : nat, i + 2 * Z.of_nat k < n ->
       let p := trig_pair log cos CONST_2PI (cell (i + 2 * Z.of_nat k))
                  (cell (i + 2 * Z.of_nat k + 1)) in
       out' !! (i + 2 * Z.of_nat k) = Some (fst p) /\
       (i + 2 * Z.of_nat k + 1 < n -> out' !! (i + 2 * Z.of_nat k + 1) = Some (snd p))) /\
    (forall j, ~ (i <= j < n) -> out' !! j = out !! j).
Proof.
  induction steps as [|steps IH]; intros n i out Hi Hev Hn Hsteps Hcells;
    destruct (Z_lt_le_dec i n) as [Hlt|Hge]; try lia;
    try (exists out; rewrite cuda_common_for_exit by assumption;
         split; [reflexivity|]; split; [intros k Hk; lia|reflexivity]).
  rewrite cuda_common_for_step by (assumption || lia).
  assert (Hodd : i + 1 < n \/ Z.odd n = true).
  { destruct (Z.odd n) eqn:Hn2; [now right|left].
    rewrite <- Z.negb_even in Hn2. apply negb_false_iff in Hn2.
    apply Z.even_spec in Hn2, Hev. destruct Hn2 as [p ->], Hev as [q ->]. lia. }
  rewrite (Hcells i) by lia. cbn [mbind outcome_bind].
  rewrite (Hcells (i + 1) ltac:(lia) Hodd). cbn [mbind outcome_bind]. cbv zeta.
  assert (Hev2 : Z.even (i + 2) = true) by (rewrite Z.even_add, Hev; reflexivity).
  destruct (IH n (i + 2)
              (store_pair n i
                 (fst (trig_pair log cos CONST_2PI (cell i) (cell (i + 1))))
                 (snd (trig_pair log cos CONST_2PI (cell i) (cell (i + 1)))) out))
    as (out' & Hrun & Hval & Hframe); [lia|exact Hev2|exact Hn|lia| |].
  { intros j Hj Hj'. apply Hcells; [lia|exact Hj']. }
  exists out'. split; [exact Hrun|]. split.
  - intros [|k] Hk; cbv zeta.
    + replace (i + 2 * Z.of_nat 0) with i by lia. split.
      * rewrite Hframe by lia.
        rewrite store_pair_lookup, decide_True by reflexivity. reflexivity.
      * intros Hlt1. rewrite Hframe by lia.
        rewrite store_pair_lookup, decide_False by lia.
        rewrite decide_True by lia. reflexivity.
    + replace (i + 2 * Z.of_nat (S k)) with (i + 2 + 2 * Z.of_nat k) by lia.
      apply Hval. lia.
  - intros j Hj. rewrite Hframe by lia.
    rewrite store_pair_lookup, decide_False by lia.
    rewrite decide_False by lia. reflexivity.
Qed.

(** A pass whose reads fail, or whose rejection loop does not end, keeps
    the whole loop from returning. *)
Lemma cuda_common_for_stuck (data : random_cuda curand_gen) n i steps :
  forall i0 (out : gmap Z double) r,
  0 <= i0 -> Z.even i0 = true -> Z.even i = true -> i0 <= i < n -> n < INT_MAX ->
  (forall x1 x2, ~ (cuda_read data i = Returns x1 /\ cuda_read data (i + 1) = Returns x2)) ->
  cuda_common_for log cos CONST_2PI steps data n (Z.rem (n + 1) 2) i0 out <> Returns r.
Proof.
  induction steps as [|steps IH]; intros i0 out res Hi0 Hev0 Hev Hi Hn Hstuck Hrun.
  - cbn [cuda_common_for] in Hrun.
    replace (i0 <? n) with true in Hrun by (symmetry; apply Z.ltb_lt; lia).
    discriminate.
  - rewrite cuda_common_for_step in Hrun by (assumption || lia).
    apply bind_returns in Hrun. destruct Hrun as (x1 & Hx1 & Hrun).
    apply bind_returns in Hrun. destruct Hrun as (x2 & Hx2 & Hrun).
    destruct (Z.eq_dec i0 i) as [->|Hne]; [exact (Hstuck x1 x2 (conj Hx1 Hx2))|].
    assert (Hstep : i0 + 2 <= i).
    { apply Z.even_spec in Hev0, Hev. destruct Hev0 as [p ->], Hev as [q ->]. lia. }
    cbv zeta in Hrun. revert Hrun. apply IH; try assumption; try lia.
    rewrite Z.even_add, Hev0. reflexivity.
Qed.

Lemma cuda_geobm_for_stuck (data : random_cuda curand_gen) fuel n i steps :
  forall i0 (out : gmap Z double) r,
  0 <= i0 -> Z.even i0 = true -> Z.even i = true -> i0 <= i < n -> n < INT_MAX ->
  (forall x, cuda_while fuel data i S754_nan S754_nan dbl_two <> Returns x) ->
  cuda_geobm_for log steps fuel data n (Z.rem (n + 1) 2) i0 out <> Returns r.
Proof.
  induction steps as [|steps IH]; intros i0 out res Hi0 Hev0 Hev Hi Hn Hstuck Hrun.
  - cbn [cuda_geobm_for] in Hrun.
    replace (i0 <? n) with true in Hrun by (symmetry; apply Z.ltb_lt; lia).
    discriminate.
  - rewrite cuda_geobm_for_step in Hrun by (assumption || lia).
    apply bind_returns in Hrun. destruct Hrun as ([[x1 x2] w] & Hwh & Hrun).
    destruct (Z.eq_dec i0 i) as [->|Hne]; [exact (Hstuck _ Hwh)|].
    assert (Hstep : i0 + 2 <= i).
    { apply Z.even_spec in Hev0, Hev. destruct Hev0 as [p ->], Hev as [q ->]. lia. }
    cbv zeta in Hrun. revert Hrun. apply IH; try assumption; try lia.
    rewrite Z.even_add, Hev0. reflexivity.
Qed.

(** The rejection loop over the buffer reads the same two cells in every
    pass: a pair it rejects once it rejects for ever. *)
Lemma cuda_while_rereads (data : random_cuda curand_gen) i u1 u2 fuel :
  forall x1 x2 w,
  INT_MIN <= i + 1 <= INT_MAX ->
  cuda_read data i = Returns u1 -> cuda_read data (i + 1) = Returns u2 ->
  dle dbl_one (polar_radius u1 u2) = true ->
  dle dbl_one w = true ->
  cuda_while fuel data i x1 x2 w = Diverges.
Proof.
  induction fuel as [|fuel IH]; intros x1 x2 w Hi Hu1 Hu2 Hrej Hw;
    cbn [cuda_while]; rewrite Hw; [reflexivity|].
  rewrite Hu1. cbn [mbind outcome_bind].
  rewrite (int_val_in_range (i + 1)) by assumption. cbn [mbind outcome_bind].
  rewrite Hu2. cbn [mbind outcome_bind].
  apply IH; assumption.
Qed.

(** A read that fails ends the rejection loop without a result. *)
Lemma cuda_while_bad_read (data : random_cuda curand_gen) i fuel x :
  INT_MIN <= i + 1 <= INT_MAX ->
  cuda_read data (i + 1) = Undefined ->
  cuda_while fuel data i S754_nan S754_nan dbl_two <> Returns x.
Proof.
  intros Hi Hbad. destruct fuel as [|fuel]; cbn [cuda_while];
    change (dle dbl_one dbl_two) with true; cbv iota; [discriminate|].
  destruct (cuda_read data i) as [u1| |]; cbn [mbind outcome_bind]; try discriminate.
  rewrite (int_val_in_range (i + 1)) by assumption. cbn [mbind outcome_bind].
  rewrite Hbad. cbn [mbind outcome_bind]. discriminate.
Qed.

End AcceleratorFacts.

Section AcceleratorBatches.

Variables log cos : double -> double.
Variable CONST_2PI : double.
Variable A5_CCOL_USE_GEOBM : Z.

Context {curand_gen : Type}.
Variable curandCreateGenerator : curand_gen.
Variable curandSetPseudoRandomGeneratorSeed : curand_gen -> Z -> curand_gen.
Variable curandGenerateUniformDouble : curand_gen -> Z -> (Z -> double) * curand_gen.

#[local] Abbreviation normal_cuda :=
  (random_drand48_normal_cuda log cos CONST_2PI A5_CCOL_USE_GEOBM
     curandGenerateUniformDouble).

#[local] Abbreviation trig := (trig_pair log cos CONST_2PI).

(** The call up to its loop, for a request that fits the buffer. *)
Lemma normal_cuda_unfold fuel (data : random_cuda curand_gen) n (out : gmap Z double)
    vals g' :
  0 <= n < INT_MAX -> n <= r_cuda_size data ->
  curandGenerateUniformDouble (gen data) n = (vals, g') ->
  normal_cuda fuel data n out =
    let data' := {| gen := g'; r_cuda := fill_cells vals n (r_cuda data);
                    r_cuda_size := r_cuda_size data |} in
    out' ← (if A5_CCOL_USE_GEOBM =? 1
            then cuda_geobm_for log (Z.to_nat n) fuel data' n (Z.rem (n + 1) 2) 0 out
            else cuda_common_for log cos CONST_2PI (Z.to_nat n) data' n
                   (Z.rem (n + 1) 2) 0 out);
    Returns (data', out').
Proof.
  intros Hn Hsize Hgen. unfold random_drand48_normal_cuda.
  rewrite (int_val_in_range (n + 1)) by (unfold INT_MIN, INT_MAX in *; lia).
  cbn [mbind outcome_bind]. cbv zeta.
  rewrite (Z.mod_small n) by (unfold INT_MAX in *; lia).
  replace (n <=? r_cuda_size data) with true by (symmetry; apply Z.leb_le; lia).
  rewrite Hgen. reflexivity.
Qed.

(** X10: with the common form, an even request [n] that fits the buffer
    returns; the generator has made one bulk call for [n] deviates, which
    fill the cells [0 .. n-1] of the buffer; the cells [out[2k]] and
    [out[2k+1]] hold the pair made of the deviates [2k] and [2k+1] of that
    call, and nothing is stored outside [out[0..n)]. *)
Theorem cuda_even_batch_pairs_deviates
    (fuel : nat) (data : random_cuda curand_gen) (n : Z) (out : gmap Z double)
    (vals : Z -> double) (g' : curand_gen) :
  A5_CCOL_USE_GEOBM <> 1 ->
  0 <= n < INT_MAX -> Z.even n = true -> n <= r_cuda_size data ->
  curandGenerateUniformDouble (gen data) n = (vals, g') ->
  exists out' : gmap Z double,
    normal_cuda fuel data n out =
      Returns ({| gen := g'; r_cuda := fill_cells vals n (r_cuda data);
                  r_cuda_size := r_cuda_size data |}, out') /\
    (forall k : nat, 2 * Z.of_nat k < n ->
       let p := trig (vals (2 * Z.of_nat k)) (vals (2 * Z.of_nat k + 1)) in
       out' !! (2 * Z.of_nat k) = Some (fst p) /\
       out' !! (2 * Z.of_nat k + 1) = Some (snd p)) /\
    (forall j, ~ (0 <= j < n) -> out' !! j = out !! j).
Proof.
  intros Hform Hn Hev Hsize Hgen.
  rewrite (normal_cuda_unfold fuel data n out vals g' Hn Hsize Hgen). cbv zeta.
  replace (A5_CCOL_USE_GEOBM =? 1) with false by (symmetry; apply Z.eqb_neq; assumption).
  destruct (cuda_common_for_spec log cos CONST_2PI
              {| gen := g'; r_cuda := fill_cells vals n (r_cuda data);
                 r_cuda_size := r_cuda_size data |} vals (Z.to_nat n) n 0 out)
    as (out' & Hrun & Hval & Hframe); [lia|reflexivity|lia|lia| |].
  { intros j Hj [Hlt|Hodd].
    - apply cuda_read_filled; lia.
    - rewrite <- Z.negb_even, Hev in Hodd. discriminate Hodd. }
  exists out'. rewrite Hrun. cbn [mbind outcome_bind].
  split; [reflexivity|]. split; [|exact Hframe].
  intros k Hk. specialize (Hval k). rewrite !Z.add_0_l in Hval. cbv zeta in *.
  destruct (Hval Hk) as [Hfst Hsnd]. split; [exact Hfst|]. apply Hsnd.
  apply Z.even_spec in Hev. destruct Hev as [p ->]. lia.
Qed.

(** X12: with the common form, an odd request [n] returns when the buffer
    is longer than [n] cells and an earlier call has left a value [x] in
    the cell [n]; the last number [out[n-1]] is then made of the deviate
    [n-1] of this call and of [x], which this call has not drawn. *)
Theorem cuda_odd_batch_uses_stale_cell
    (fuel : nat) (data : random_cuda curand_gen) (n : Z) (out : gmap Z double)
    (vals : Z -> double) (g' : curand_gen) (x : double) :
  A5_CCOL_USE_GEOBM <> 1 ->
  0 <= n < INT_MAX -> Z.odd n = true -> n < r_cuda_size data ->
  r_cuda data !! n = Some x ->
  curandGenerateUniformDouble (gen data) n = (vals, g') ->
  exists out' : gmap Z double,
    normal_cuda fuel data n out =
      Returns ({| gen := g'; r_cuda := fill_cells vals n (r_cuda data);
                  r_cuda_size := r_cuda_size data |}, out') /\
    r_cuda data !! n = fill_cells vals n (r_cuda data) !! n /\
    out' !! (n - 1) = Some (fst (trig (vals (n - 1)) x)) /\
    (forall k : nat, 2 * Z.of_nat k + 1 < n ->
       let p := trig (vals (2 * Z.of_nat k)) (vals (2 * Z.of_nat k + 1)) in
       out' !! (2 * Z.of_nat k) = Some (fst p) /\
       out' !! (2 * Z.of_nat k + 1) = Some (snd p)).
Proof.
  intros Hform Hn Hodd Hsize Hstale Hgen.
  rewrite (normal_cuda_unfold fuel data n out vals g' Hn ltac:(lia) Hgen). cbv zeta.
  replace (A5_CCOL_USE_GEOBM =? 1) with false by (symmetry; apply Z.eqb_neq; assumption).
  destruct (cuda_common_for_spec log cos CONST_2PI
              {| gen := g'; r_cuda := fill_cells vals n (r_cuda data);
                 r_cuda_size := r_cuda_size data |}
              (fun j => if decide (j < n) then vals j else x) (Z.to_nat n) n 0 out)
    as (out' & Hrun & Hval & _); [lia|reflexivity|lia|lia| |].
  { intros j Hj _. destruct (decide (j < n)) as [Hlt|Hge].
    - apply cuda_read_filled; lia.
    - replace j with n by lia. rewrite cuda_read_beyond by lia.
      replace (0 <=? n) with true by (symmetry; apply Z.leb_le; lia).
      replace (n <? r_cuda_size data) with true by (symmetry; apply Z.ltb_lt; lia).
      cbn [andb]. rewrite Hstale. reflexivity. }
  exists out'. rewrite Hrun. cbn [mbind outcome_bind].
  split; [reflexivity|]. split.
  { rewrite lookup_fill_cells, decide_False by lia. reflexivity. }
  split.
  - apply Z.odd_spec in Hodd. destruct Hodd as [q Hq].
    destruct (Hval (Z.to_nat q)) as [Hfst _]; [lia|].
    cbv zeta in Hfst. rewrite Z.add_0_l in Hfst.
    replace (2 * Z.of_nat (Z.to_nat q)) with (n - 1) in Hfst by lia.
    rewrite decide_True in Hfst by lia.
    replace (n - 1 + 1) with n in Hfst by lia.
    rewrite decide_False in Hfst by lia. exact Hfst.
  - intros k Hk. cbv zeta.
    destruct (Hval k) as [Hfst Hsnd]; [lia|].
    cbv zeta in Hfst, Hsnd. rewrite Z.add_0_l in Hfst, Hsnd.
    rewrite decide_True in Hfst, Hsnd by lia.
    rewrite decide_True in Hfst, Hsnd by lia.
    split; [exact Hfst|apply Hsnd; lia].
Qed.

(** X13: with the geometric form, a request never returns when the bulk
    call has put in two cells [i], [i+1] of the request, [i] even, a pair
    of deviates that the rejection test refuses: the loop reads the same
    two cells again in every pass and draws nothing new. *)
Theorem cuda_geometric_form_rejected_pair_hangs
    (data : random_cuda curand_gen) (n i : Z)
    (vals : Z -> double) (g' : curand_gen) :
  A5_CCOL_USE_GEOBM = 1 ->
  0 <= n < INT_MAX -> n <= r_cuda_size data ->
  curandGenerateUniformDouble (gen data) n = (vals, g') ->
  0 <= i -> Z.even i = true -> i + 1 < n ->
  dle dbl_one (polar_radius (vals i) (vals (i + 1))) = true ->
  forall (fuel : nat) (out : gmap Z double) res,
    normal_cuda fuel data n out <> Returns res.
Proof.
  intros Hform Hn Hsize Hgen Hi Hev Hin Hrej fuel out res Hrun.
  rewrite (normal_cuda_unfold fuel data n out vals g' Hn Hsize Hgen) in Hrun.
  cbv zeta in Hrun. apply bind_returns in Hrun. destruct Hrun as (out' & Hloop & _).
  rewrite Hform in Hloop. change (1 =? 1) with true in Hloop. cbv iota in Hloop.
  revert Hloop.
  apply (cuda_geobm_for_stuck log _ fuel n i); try assumption; try reflexivity; try lia.
  intros r0 Hwh.
  rewrite (cuda_while_rereads _ i (vals i) (vals (i + 1))) in Hwh;
    [discriminate Hwh|unfold INT_MIN, INT_MAX in *; lia| | |exact Hrej|reflexivity].
  - apply cuda_read_filled; lia.
  - apply cuda_read_filled; lia.
Qed.

End AcceleratorBatches.

(** ** Instances of the further statements *)

Lemma random_lcg_integer_permutes_witness :
  (0 <= 1 < 2 ^ 64 /\ 0 <= 2 < 2 ^ 64 /\ 0 <= 0 < 2 ^ 64) /\
  (random_lcg_integer {| r := 1 |} = random_lcg_integer {| r := 2 |} ->
   {| r := 1 |} = {| r := 2 |}) /\
  (0 <= lcg_prev 0 < 2 ^ 64 /\
   random_lcg_integer {| r := lcg_prev 0 |} = (0, {| r := 0 |})) /\
  (fst (random_lcg_integer {| r := 1 |}) = 0 <-> 1 = lcg_prev 0).
Proof.
  assert (H1 : 0 <= 1 < 2 ^ 64) by lia.
  assert (H2 : 0 <= 2 < 2 ^ 64) by lia.
  assert (H0 : 0 <= 0 < 2 ^ 64) by lia.
  split; [exact (conj H1 (conj H2 H0))|].
  exact (random_lcg_integer_permutes {| r := 1 |} {| r := 2 |} 0 H1 H2 H0).
Defined.

Lemma lcg_low_bits_period_witness :
  (3 <= 64)%nat /\
  (lcg_iter 8 5 mod 2 ^ Z.of_nat 3 = 5 mod 2 ^ Z.of_nat 3 <->
   (2 ^ Z.of_nat 3 | Z.of_nat 8)).
Proof.
  assert (He : (3 <= 64)%nat) by lia.
  split; [exact He|]. exact (lcg_low_bits_period 3 8 5 He).
Defined.

Lemma uniform_zero_from_one_word_witness :
  0 <= 1 < 2 ^ 64 /\
  exists u rdata',
    random_lcg_uniform {| r := 1 |} = Returns (u, rdata') /\
    (u = dbl_zero <-> 1 = 17295553536498714127) /\
    (u <> dbl_zero -> dle (S754_finite false 4503599627370496 (-116)) u = true).
Proof.
  assert (H1 : 0 <= 1 < 2 ^ 64) by lia.
  split; [exact H1|]. exact (uniform_zero_from_one_word {| r := 1 |} H1).
Defined.

Lemma uniform_batch_splits_witness :
  (0 <= 2 /\ 0 <= 1 /\ 2 + 1 <= INT_MAX) /\
  exists rdata1 out1 rdata2 out2 out12,
    random_lcg_uniform_simd {| r := 1 |} 2 ∅ = Returns (rdata1, out1) /\
    random_lcg_uniform_simd rdata1 1 ∅ = Returns (rdata2, out2) /\
    random_lcg_uniform_simd {| r := 1 |} (2 + 1) ∅ = Returns (rdata2, out12) /\
    (forall j, 0 <= j < 2 -> out12 !! j = out1 !! j) /\
    (forall j, 0 <= j < 1 -> out12 !! (2 + j) = out2 !! j).
Proof.
  assert (Hn : 0 <= 2) by lia.
  assert (Hm : 0 <= 1) by lia.
  assert (Hnm : 2 + 1 <= INT_MAX) by (unfold INT_MAX; lia).
  split; [exact (conj Hn (conj Hm Hnm))|].
  exact (uniform_batch_splits {| r := 1 |} 2 1 ∅ Hn Hm Hnm).
Defined.

Lemma odd_normal_batch_draws_like_next_even_witness :
  (0 <> 1 /\ 0 <= 3 /\ Z.odd 3 = true /\ 3 + 1 < INT_MAX) /\
  exists rdata' out1 out2,
    random_lcg_normal_simd (fun x => x) (fun x => x) dbl_one 0 0 {| r := 1 |} 3 ∅
      = Returns (rdata', out1) /\
    random_lcg_normal_simd (fun x => x) (fun x => x) dbl_one 0 0 {| r := 1 |} (3 + 1) ∅
      = Returns (rdata', out2) /\
    (forall j, 0 <= j < 3 -> out1 !! j = out2 !! j) /\
    out1 !! 3 = (∅ : gmap Z double) !! 3 /\ is_Some (out2 !! 3).
Proof.
  assert (Hform : 0 <> 1) by lia.
  assert (Hn : 0 <= 3) by lia.
  assert (Hodd : Z.odd 3 = true) by reflexivity.
  assert (Hmax : 3 + 1 < INT_MAX) by (unfold INT_MAX; lia).
  split; [exact (conj Hform (conj Hn (conj Hodd Hmax)))|].
  exact (odd_normal_batch_draws_like_next_even (fun x => x) (fun x => x) dbl_one 0 0
           {| r := 1 |} 3 ∅ Hform Hn Hodd Hmax).
Defined.

Lemma scalar_normals_are_even_cells_of_batch_witness :
  (0 <> 1 /\ 2 * Z.of_nat 2 < INT_MAX) /\
  exists xs rdata' out',
    normal_seq (fun x => x) (fun x => x) dbl_one 0 2 0 {| r := 1 |} = Returns (xs, rdata') /\
    random_lcg_normal_simd (fun x => x) (fun x => x) dbl_one 0 0 {| r := 1 |}
      (2 * Z.of_nat 2) ∅ = Returns (rdata', out') /\
    length xs = 2%nat /\
    forall j : nat, (j < 2)%nat -> out' !! (2 * Z.of_nat j) = xs !! j.
Proof.
  assert (Hform : 0 <> 1) by lia.
  assert (Hk : 2 * Z.of_nat 2 < INT_MAX) by (unfold INT_MAX; lia).
  split; [exact (conj Hform Hk)|].
  exact (scalar_normals_are_even_cells_of_batch (fun x => x) (fun x => x) dbl_one 0 0
           {| r := 1 |} 2 Hform Hk).
Defined.

Lemma library_batches_are_scalar_draws_witness :
  3 <= INT_MAX /\
  exists xs g' out',
    draw_seq (fun x : Z => (double_of_rand48 (rand48_next x), rand48_next x))
      (Z.to_nat 3) 78606 = (xs, g') /\
    random_drand48_uniform_simd
      (fun x : Z => (double_of_rand48 (rand48_next x), rand48_next x)) 78606 3 ∅
      = Returns (g', out') /\
    length xs = Z.to_nat 3 /\ stores_list xs ∅ out'.
Proof.
  assert (Hn : 3 <= INT_MAX) by (unfold INT_MAX; lia).
  split; [exact Hn|].
  exact (proj2 (proj2 (library_batches_are_scalar_draws
                         (fun g : Z => (dbl_half, g + 1))
                         (fun (g : Z) (sigma : double) => (sigma, g + 1))
                         (fun x : Z => (double_of_rand48 (rand48_next x), rand48_next x))
                         0 78606 3 ∅ Hn))).
Defined.

Lemma geometric_form_pairs_witness :
  0 <= 3 < INT_MAX /\
  exists rdata' out',
    random_lcg_normal_simd (fun x => x) (fun x => x) dbl_one 1 10 {| r := 1 |} 3 ∅
      = Returns (rdata', out') /\
    forall k : nat, 2 * Z.of_nat k < 3 ->
    exists s : Z,
      let u1 := uniform_of_word (lcg_next s) in
      let u2 := uniform_of_word (lcg_next (lcg_next s)) in
      let w := polar_radius u1 u2 in
      let p := polar_pair (fun x => x) (polar_coordinate u1) (polar_coordinate u2) w in
      accepted w /\
      out' !! (2 * Z.of_nat k) = Some (fst p) /\
      (2 * Z.of_nat k + 1 < 3 -> out' !! (2 * Z.of_nat k + 1) = Some (snd p)).
Proof.
  assert (Hn : 0 <= 3 < INT_MAX) by (unfold INT_MAX; lia).
  split; [exact Hn|].
  assert (Hrun : exists p,
            random_lcg_normal_simd (fun x => x) (fun x => x) dbl_one 1 10 {| r := 1 |} 3 ∅
              = Returns p)
    by (vm_compute; eexists; reflexivity).
  destruct Hrun as [[rdata' out'] Hrun]. exists rdata', out'. split; [exact Hrun|].
  exact (geometric_form_pairs (fun x => x) (fun x => x) dbl_one 10 {| r := 1 |} 3 ∅
           rdata' out' Hn Hrun).
Defined.

Lemma cuda_even_batch_pairs_deviates_witness :
  (0 <> 1 /\ 0 <= 4 < INT_MAX /\ Z.even 4 = true /\ 4 <= 6) /\
  exists out' : gmap Z double,
    random_drand48_normal_cuda (fun x => x) (fun x => x) dbl_one 0
      (fun (g count : Z) => (fun i => double_of_rand48 (rand48_next (g + i)), g + count))
      0 {| gen := 0; r_cuda := ∅; r_cuda_size := 6 |} 4 ∅ =
      Returns ({| gen := 0 + 4;
                  r_cuda := fill_cells (fun i => double_of_rand48 (rand48_next (0 + i))) 4 ∅;
                  r_cuda_size := 6 |}, out') /\
    (forall k : nat, 2 * Z.of_nat k < 4 ->
       let p := trig_pair (fun x => x) (fun x => x) dbl_one
                  (double_of_rand48 (rand48_next (0 + 2 * Z.of_nat k)))
                  (double_of_rand48 (rand48_next (0 + (2 * Z.of_nat k + 1)))) in
       out' !! (2 * Z.of_nat k) = Some (fst p) /\
       out' !! (2 * Z.of_nat k + 1) = Some (snd p)) /\
    (forall j, ~ (0 <= j < 4) -> out' !! j = (∅ : gmap Z double) !! j).
Proof.
  assert (Hform : 0 <> 1) by lia.
  assert (Hn : 0 <= 4 < INT_MAX) by (unfold INT_MAX; lia).
  assert (Hev : Z.even 4 = true) by reflexivity.
  assert (Hsize : 4 <= 6) by lia.
  split; [exact (conj Hform (conj Hn (conj Hev Hsize)))|].
  exact (cuda_even_batch_pairs_deviates (fun x => x) (fun x => x) dbl_one 0
           (fun (g count : Z) => (fun i => double_of_rand48 (rand48_next (g + i)), g + count))
           0 {| gen := 0; r_cuda := ∅; r_cuda_size := 6 |} 4 ∅
           (fun i => double_of_rand48 (rand48_next (0 + i))) (0 + 4)
           Hform Hn Hev Hsize eq_refl).
Defined.

Lemma cuda_odd_batch_uses_stale_cell_witness :
  (0 <> 1 /\ 0 <= 3 < INT_MAX /\ Z.odd 3 = true /\ 3 < 4 /\
   ({[ 3 := dbl_half ]} : gmap Z double) !! 3 = Some dbl_half) /\
  exists out' : gmap Z double,
    random_drand48_normal_cuda (fun x => x) (fun x => x) dbl_one 0
      (fun (g count : Z) => (fun i => double_of_rand48 (rand48_next (g + i)), g + count))
      0 {| gen := 0; r_cuda := {[ 3 := dbl_half ]}; r_cuda_size := 4 |} 3 ∅ =
      Returns ({| gen := 0 + 3;
                  r_cuda := fill_cells (fun i => double_of_rand48 (rand48_next (0 + i))) 3
                              {[ 3 := dbl_half ]};
                  r_cuda_size := 4 |}, out') /\
    ({[ 3 := dbl_half ]} : gmap Z double) !! 3 =
      fill_cells (fun i => double_of_rand48 (rand48_next (0 + i))) 3 {[ 3 := dbl_half ]} !! 3 /\
    out' !! (3 - 1) =
      Some (fst (trig_pair (fun x => x) (fun x => x) dbl_one
                   (double_of_rand48 (rand48_next (0 + (3 - 1)))) dbl_half)) /\
    (forall k : nat, 2 * Z.of_nat k + 1 < 3 ->
       let p := trig_pair (fun x => x) (fun x => x) dbl_one
                  (double_of_rand48 (rand48_next (0 + 2 * Z.of_nat k)))
                  (double_of_rand48 (rand48_next (0 + (2 * Z.of_nat k + 1)))) in
       out' !! (2 * Z.of_nat k) = Some (fst p) /\
       out' !! (2 * Z.of_nat k + 1) = Some (snd p)).
Proof.
  assert (Hform : 0 <> 1) by lia.
  assert (Hn : 0 <= 3 < INT_MAX) by (unfold INT_MAX; lia).
  assert (Hodd : Z.odd 3 = true) by reflexivity.
  assert (Hsize : 3 < 4) by lia.
  assert (Hstale : ({[ 3 := dbl_half ]} : gmap Z double) !! 3 = Some dbl_half)
    by (vm_compute; reflexivity).
  split; [exact (conj Hform (conj Hn (conj Hodd (conj Hsize Hstale))))|].
  exact (cuda_odd_batch_uses_stale_cell (fun x => x) (fun x => x) dbl_one 0
           (fun (g count : Z) => (fun i => double_of_rand48 (rand48_next (g + i)), g + count))
           0 {| gen := 0; r_cuda := {[ 3 := dbl_half ]}; r_cuda_size := 4 |} 3 ∅
           (fun i => double_of_rand48 (rand48_next (0 + i))) (0 + 3) dbl_half
           Hform Hn Hodd Hsize Hstale eq_refl).
Defined.

Lemma cuda_geometric_form_rejected_pair_hangs_witness :
  (1 = 1 /\ 0 <= 2 < INT_MAX /\ 2 <= 2 /\ 0 <= 0 /\ Z.even 0 = true /\ 0 + 1 < 2 /\
   dle dbl_one (polar_radius dbl_one dbl_one) = true) /\
  forall (fuel : nat) (out : gmap Z double) res,
    random_drand48_normal_cuda (fun x => x) (fun x => x) dbl_one 1
      (fun (g count : Z) => (fun _ : Z => dbl_one, g + count))
      fuel {| gen := 0; r_cuda := ∅; r_cuda_size := 2 |} 2 out <> Returns res.
Proof.
  assert (Hform : 1 = 1) by reflexivity.
  assert (Hn : 0 <= 2 < INT_MAX) by (unfold INT_MAX; lia).
  assert (Hsize : 2 <= 2) by lia.
  assert (Hi : 0 <= 0) by lia.
  assert (Hev : Z.even 0 = true) by reflexivity.
  assert (Hin : 0 + 1 < 2) by lia.
  assert (Hrej : dle dbl_one (polar_radius dbl_one dbl_one) = true)
    by (vm_compute; reflexivity).
  split; [exact (conj Hform (conj Hn (conj Hsize (conj Hi (conj Hev (conj Hin Hrej))))))|].
  exact (cuda_geometric_form_rejected_pair_hangs (fun x => x) (fun x => x) dbl_one 1
           (fun (g count : Z) => (fun _ : Z => dbl_one, g + count))
           {| gen := 0; r_cuda := ∅; r_cuda_size := 2 |} 2 0
           (fun _ : Z => dbl_one) (0 + 2)
           Hform Hn Hsize eq_refl Hi Hev Hin Hrej).
Defined.


(** * The rejection loop ends *)

(** ** Affine recurrences modulo a power of two *)

Section AffineFacts.

Variables a b : Z.
Variable N : nat.

Hypothesis a_mod4 : a mod 4 = 1.
Hypothesis b_odd : Z.odd b = true.

#[local] Abbreviation M := (2 ^ Z.of_nat N).
#[local] Abbreviation next := (affine_next a b N).
#[local] Abbreviation iter := (affine_iter a b N).
#[local] Abbreviation geom := (affine_geom a).

Lemma affine_a_split : a = 4 * (a / 4) + 1.
Proof. pose proof (Z.div_mod a 4 ltac:(lia)) as H. rewrite a_mod4 in H. exact H. Qed.

Lemma affine_a_odd : Z.odd a = true.
Proof. rewrite affine_a_split, Z.odd_add, Z.odd_mul. reflexivity. Qed.

Lemma affine_pow_odd (k : nat) : Z.odd (a ^ Z.of_nat k) = true.
Proof.
  induction k as [|k IH]; [reflexivity|].
  rewrite Nat2Z.inj_succ, Z.pow_succ_r, Z.odd_mul, IH, affine_a_odd by lia. reflexivity.
Qed.

Lemma affine_pow_geom (k : nat) : a ^ Z.of_nat k = 1 + (a - 1) * geom k.
Proof.
  induction k as [|k IH]; [cbn [affine_geom]; rewrite Z.pow_0_r; ring|].
  rewrite Nat2Z.inj_succ, Z.pow_succ_r, IH by lia. cbn [affine_geom]. ring.
Qed.

Lemma affine_geom_add (j k : nat) : geom (j + k) = geom j + a ^ Z.of_nat j * geom k.
Proof.
  induction j as [|j IH].
  - cbn [Nat.add affine_geom]. rewrite Z.pow_0_r. ring.
  - change (S j + k)%nat with (S (j + k)). cbn [affine_geom].
    rewrite IH, Nat2Z.inj_succ, Z.pow_succ_r by lia. ring.
Qed.

Lemma affine_geom_double (k : nat) :
  geom (k + k) = 2 * (geom k * (1 + 2 * (a / 4 * geom k))).
Proof.
  rewrite affine_geom_add, affine_pow_geom.
  replace (a - 1) with (4 * (a / 4)) by (pose proof affine_a_split; lia). ring.
Qed.

(** [1 + a + ... + a^(2^e - 1)] is [2^e] times an odd number. *)
Lemma affine_geom_pow2 (e : nat) :
  exists o : Z, Z.odd o = true /\ geom (2 ^ e)%nat = 2 ^ Z.of_nat e * o.
Proof.
  induction e as [|e (o & Hodd & Ho)].
  - exists 1. split; [reflexivity|]. cbn [Nat.pow affine_geom]. rewrite Z.pow_0_r. ring.
  - exists (o * (1 + 2 * (a / 4 * (2 ^ Z.of_nat e * o)))). split.
    + rewrite Z.odd_mul, Hodd, Z.odd_add, Z.odd_mul. reflexivity.
    + replace (2 ^ S e)%nat with (2 ^ e + 2 ^ e)%nat by (cbn [Nat.pow]; lia).
      rewrite affine_geom_double, Ho, Nat2Z.inj_succ, Z.pow_succ_r by lia. ring.
Qed.

(** Every residue modulo [2^e] is that of some [geom k * c], for [c] odd. *)
Lemma affine_geom_reaches (e : nat) : forall c d : Z,
  Z.odd c = true -> exists k : nat, (2 ^ Z.of_nat e | geom k * c - d).
Proof.
  induction e as [|e IH]; intros c d Hc.
  - exists 0%nat. rewrite Z.pow_0_r. apply Z.divide_1_l.
  - destruct (IH c d Hc) as (k & q & Hq).
    destruct (Z.even q) eqn:Hev.
    + apply Z.even_spec in Hev. destruct Hev as [h ->].
      exists k, h. rewrite Hq, Nat2Z.inj_succ, Z.pow_succ_r by lia. ring.
    + destruct (affine_geom_pow2 e) as (o & Hodd & Ho).
      assert (Hsum : Z.even (q + a ^ Z.of_nat k * o * c) = true).
      { rewrite Z.even_add, Hev, <- Z.negb_odd, !Z.odd_mul, affine_pow_odd, Hodd, Hc.
        reflexivity. }
      apply Z.even_spec in Hsum. destruct Hsum as [h Hh].
      exists (k + 2 ^ e)%nat, h.
      rewrite affine_geom_add, Ho, Nat2Z.inj_succ, Z.pow_succ_r by lia.
      replace ((geom k + a ^ Z.of_nat k * (2 ^ Z.of_nat e * o)) * c - d)
        with (geom k * c - d + 2 ^ Z.of_nat e * (a ^ Z.of_nat k * o * c)) by ring.
      rewrite Hq.
      replace (q * 2 ^ Z.of_nat e + 2 ^ Z.of_nat e * (a ^ Z.of_nat k * o * c))
        with (2 ^ Z.of_nat e * (q + a ^ Z.of_nat k * o * c)) by ring.
      rewrite Hh. ring.
Qed.

Lemma affine_modulus_pos : 0 < M.
Proof. apply Z.pow_pos_nonneg; lia. Qed.

Lemma affine_iter_S (k : nat) (s : Z) : iter (S k) s = next (iter k s).
Proof. reflexivity. Qed.

Lemma affine_next_mod (s : Z) : next (s mod M) = next s.
Proof.
  unfold affine_next.
  rewrite <- Zplus_mod_idemp_l, Zmult_mod_idemp_r, Zplus_mod_idemp_l. reflexivity.
Qed.

Lemma affine_iter_closed (k : nat) (s : Z) :
  iter k s mod M = (s + geom k * ((a - 1) * s + b)) mod M.
Proof.
  induction k as [|k IH].
  - cbn [affine_geom]. change (iter 0 s) with s. f_equal. ring.
  - rewrite affine_iter_S, <- affine_next_mod, IH, affine_next_mod.
    unfold affine_next. rewrite Z.mod_mod by (pose proof affine_modulus_pos; lia).
    f_equal. cbn [affine_geom]. ring.
Qed.

(** The recurrence takes every state word to every other. *)
Lemma affine_reach (s t : Z) : exists k : nat, iter k s mod M = t mod M.
Proof.
  assert (Hc : Z.odd ((a - 1) * s + b) = true).
  { rewrite Z.odd_add, Z.odd_mul, Z.odd_sub, affine_a_odd, b_odd. reflexivity. }
  destruct (affine_geom_reaches N _ (t - s) Hc) as (k & Hk).
  exists k. rewrite affine_iter_closed.
  apply mod_eq_divide; [apply affine_modulus_pos|].
  replace (s + geom k * ((a - 1) * s + b) - t)
    with (geom k * ((a - 1) * s + b) - (t - s)) by ring.
  exact Hk.
Qed.

Hypothesis N_pos : (1 <= N)%nat.

Lemma affine_mod_parity (x : Z) : Z.odd (x mod M) = Z.odd x.
Proof.
  pose proof affine_modulus_pos as HM.
  rewrite (Z.mod_eq x M) by lia.
  rewrite Z.odd_sub, Z.odd_mul.
  replace (Z.odd M) with false; [cbn [andb]; now rewrite xorb_false_r|].
  replace (Z.of_nat N) with (Z.succ (Z.of_nat (N - 1))) by lia.
  rewrite Z.pow_succ_r, Z.odd_mul by lia. reflexivity.
Qed.

Lemma affine_next_parity (s : Z) : Z.odd (next s) = negb (Z.odd s).
Proof.
  unfold affine_next.
  rewrite affine_mod_parity, Z.odd_add, Z.odd_mul, affine_a_odd, b_odd.
  cbn [andb]. now destruct (Z.odd s).
Qed.

Lemma affine_iter_parity (k : nat) (s : Z) :
  Z.odd (iter k s) = xorb (Z.odd s) (Nat.odd k).
Proof.
  induction k as [|k IH]; [now rewrite xorb_false_r|].
  rewrite affine_iter_S, affine_next_parity, IH, Nat.odd_succ, <- Nat.negb_odd.
  now destruct (Z.odd s), (Nat.odd k).
Qed.

(** A state word of the same parity is an even number of steps away. *)
Lemma affine_reach_even (s t : Z) :
  0 <= t < M -> Z.odd t = Z.odd s ->
  exists j : nat, iter (2 * j) s mod M = t.
Proof.
  intros Ht Hpar. destruct (affine_reach s t) as (k & Hk).
  rewrite (Z.mod_small t) in Hk by exact Ht.
  assert (Hodd : Nat.odd k = false).
  { pose proof (affine_mod_parity (iter k s)) as Hp.
    rewrite Hk, affine_iter_parity, Hpar in Hp.
    destruct (Z.odd s), (Nat.odd k); (reflexivity || discriminate Hp). }
  assert (Hev : Nat.even k = true) by (now rewrite <- Nat.negb_odd, Hodd).
  apply Nat.even_spec in Hev. destruct Hev as [j ->]. exists j. exact Hk.
Qed.

End AffineFacts.

(** ** The loop over a source of deviates *)

(** The first index at which a test fails, when it fails somewhere. *)
Lemma first_failure (P : nat -> bool) (j : nat) :
  P j = false ->
  exists j0 : nat, P j0 = false /\ forall i : nat, (i < j0)%nat -> P i = true.
Proof.
  intros Hj.
  assert (Hscan : forall n : nat,
            (forall i : nat, (i < n)%nat -> P i = true) \/
            (exists j0 : nat, P j0 = false /\ forall i : nat, (i < j0)%nat -> P i = true)).
  { induction n as [|n [Hall|Hsome]].
    - left. intros i Hi. lia.
    - destruct (P n) eqn:Hn.
      + left. intros i Hi. destruct (Nat.eq_dec i n) as [->|Hne]; [exact Hn|].
        apply Hall. lia.
      + right. exists n. split; assumption.
    - right. exact Hsome. }
  destruct (Hscan (S j)) as [Hall|Hsome]; [|exact Hsome].
  rewrite Hall in Hj by lia. discriminate Hj.
Qed.

Section RejectionLoopFacts.

Variable log : double -> double.

Context {St : Type}.
Variable uniform : St -> outcome (double * St).
Variable draw : St -> double * St.

Hypothesis uniform_draw : forall st, uniform st = Returns (draw st).

#[local] Abbreviation passes j st := (Nat.iter j (two_draws draw) st).

(** One pass of the loop. *)
Lemma geobm_while_pass fuel x1 x2 w (st : St) :
  dle dbl_one w = true ->
  geobm_while uniform (S fuel) x1 x2 w st =
    geobm_while uniform fuel
      (polar_coordinate (fst (draw st)))
      (polar_coordinate (fst (draw (snd (draw st)))))
      (pair_radius draw st) (two_draws draw st).
Proof.
  intros Hw. cbn [geobm_while]. rewrite Hw, uniform_draw.
  unfold pair_radius, two_draws.
  destruct (draw st) as [u1 st1]. cbn [mbind outcome_bind fst snd].
  rewrite uniform_draw.
  destruct (draw st1) as [u2 st2]. cbn [mbind outcome_bind fst snd].
  reflexivity.
Qed.

(** The loop returns at the first pair it accepts, with the point of that
    pair, and leaves the source after the two draws of that pair. *)
Lemma geobm_while_first_accepted (j : nat) : forall (st : St) fuel x1 x2 w,
  first_accepted draw st j -> (j < fuel)%nat -> dle dbl_one w = true ->
  geobm_while uniform fuel x1 x2 w st =
    Returns (polar_coordinate (fst (draw (passes j st))),
             polar_coordinate (fst (draw (snd (draw (passes j st))))),
             pair_radius draw (passes j st),
             two_draws draw (passes j st)).
Proof.
  induction j as [|j IH]; intros st fuel x1 x2 w [Hrej Hacc] Hfuel Hw;
    (destruct fuel as [|fuel]; [lia|]); rewrite geobm_while_pass by exact Hw.
  - cbn [Nat.iter] in *. apply geobm_while_exit. exact Hacc.
  - rewrite Nat.iter_succ_r in *. apply IH.
    + split; [|exact Hacc].
      intros i Hi. rewrite <- Nat.iter_succ_r. apply Hrej. lia.
    + lia.
    + apply (Hrej 0%nat). lia.
Qed.

Lemma first_accepted_exists (st : St) (j : nat) :
  dle dbl_one (pair_radius draw (passes j st)) = false ->
  exists j0 : nat, first_accepted draw st j0.
Proof.
  intros Hj.
  destruct (first_failure (fun i => dle dbl_one (pair_radius draw (passes i st))) j Hj)
    as (j0 & Hacc & Hrej).
  exists j0. split; assumption.
Qed.

(** Every state of the source is followed by a pair that the test lets
    through. *)
Hypothesis source_ends : forall st : St,
  exists j : nat, dle dbl_one (pair_radius draw (passes j st)) = false.

(** With a budget that covers the rejected pairs of every pass, the outer
    loop returns, and returns the same whatever the budget beyond that. *)
Lemma geobm_for_ends steps : forall n i (st : St) (out : gmap Z double),
  0 <= i -> Z.even i = true -> n < INT_MAX -> (Z.to_nat (n - i) <= steps)%nat ->
  exists (fuel0 : nat) (st' : St) (out' : gmap Z double),
    forall fuel : nat, (fuel0 <= fuel)%nat ->
      geobm_for log uniform steps fuel n (Z.rem (n + 1) 2) i st out = Returns (st', out').
Proof.
  induction steps as [|steps IH]; intros n i st out Hi Hev Hn Hsteps;
    destruct (Z_lt_le_dec i n) as [Hlt|Hge]; try lia;
    try (exists 0%nat, st, out; intros fuel _; now apply geobm_for_exit).
  destruct (source_ends st) as (j & Hj).
  destruct (first_accepted_exists st j Hj) as (j0 & Hfirst).
  assert (Hi2 : 0 <= i + 2) by lia.
  assert (Hev2 : Z.even (i + 2) = true) by (rewrite Z.even_add, Hev; reflexivity).
  destruct (IH n (i + 2) (two_draws draw (passes j0 st))
              (store_pair n i (fst (pair_point draw log (passes j0 st)))
                 (snd (pair_point draw log (passes j0 st))) out)
              Hi2 Hev2 Hn ltac:(lia)) as (fuel1 & st' & out' & Hrest).
  exists (Nat.max (S j0) fuel1), st', out'. intros fuel Hfuel.
  rewrite geobm_for_step by (assumption || lia).
  rewrite (geobm_while_first_accepted j0 st fuel _ _ _ Hfirst) by (lia || reflexivity).
  cbn [mbind outcome_bind]. cbv zeta. apply Hrest. lia.
Qed.

End RejectionLoopFacts.

(** ** The two generators *)

Lemma lcg_uniform_draw (rdata : random_data) :
  random_lcg_uniform rdata = Returns (lcg_draw rdata).
Proof. apply random_lcg_uniform_eq. Qed.

Lemma lcg_iter_affine (k : nat) (s : Z) : lcg_iter k s = affine_iter lcg_a lcg_b 64 k s.
Proof. reflexivity. Qed.

Lemma lcg_passes_word (j : nat) (rdata : random_data) :
  r (Nat.iter j (two_draws lcg_draw) rdata) = lcg_iter (2 * j) (r rdata).
Proof.
  induction j as [|j IH]; [reflexivity|].
  replace (2 * S j)%nat with (S (S (2 * j))) by lia.
  rewrite !lcg_iter_S, <- IH. reflexivity.
Qed.

Lemma lcg_pair_radius_eq (rdata : random_data) :
  pair_radius lcg_draw rdata = lcg_pair_radius (r rdata).
Proof. reflexivity. Qed.

Lemma lcg_next_wrap (s : Z) : lcg_next (wrap64 s) = lcg_next s.
Proof. exact (affine_next_mod lcg_a lcg_b 64 s). Qed.

(** The pairs that follow the state words 1 and 2 are accepted; one of them
    is an even number of steps from any state word. *)
Lemma lcg_source_ends (rdata : random_data) :
  exists j : nat,
    dle dbl_one (pair_radius lcg_draw (Nat.iter j (two_draws lcg_draw) rdata)) = false.
Proof.
  set (t := if Z.odd (r rdata) then 1 else 2).
  assert (Ht : 0 <= t < 2 ^ Z.of_nat 64) by (unfold t; destruct (Z.odd (r rdata)); lia).
  assert (Hpar : Z.odd t = Z.odd (r rdata))
    by (unfold t; destruct (Z.odd (r rdata)); reflexivity).
  destruct (affine_reach_even lcg_a lcg_b 64 eq_refl eq_refl ltac:(lia) (r rdata) t Ht Hpar)
    as (j & Hj).
  exists j. rewrite lcg_pair_radius_eq, lcg_passes_word, lcg_iter_affine.
  unfold lcg_pair_radius.
  rewrite <- (lcg_next_wrap (affine_iter lcg_a lcg_b 64 (2 * j) (r rdata))).
  unfold wrap64. change (2 ^ 64) with (2 ^ Z.of_nat 64). rewrite Hj.
  unfold t. destruct (Z.odd (r rdata)); vm_compute; reflexivity.
Qed.

Section PosixGenerator.

Context {rand48 : Type}.
Variable drand48 : rand48 -> double * rand48.
Variable X : rand48 -> Z.

Hypothesis posix : posix_drand48 drand48 X.

Lemma posix_draw (g : rand48) :
  X (snd (drand48 g)) = rand48_next (X g) /\
  fst (drand48 g) = double_of_rand48 (rand48_next (X g)).
Proof. destruct (posix g) as [HX Hv]. rewrite Hv, HX. split; reflexivity. Qed.

Lemma posix_passes_word (j : nat) (g : rand48) :
  X (Nat.iter j (two_draws drand48) g) = affine_iter 25214903917 11 48 (2 * j) (X g).
Proof.
  induction j as [|j IH]; [reflexivity|].
  replace (2 * S j)%nat with (S (S (2 * j))) by lia.
  rewrite !affine_iter_S, <- IH, Nat.iter_succ. unfold two_draws at 1.
  rewrite (proj1 (posix_draw _)), (proj1 (posix_draw _)). reflexivity.
Qed.

Lemma posix_pair_radius (g : rand48) :
  pair_radius drand48 g =
    polar_radius (double_of_rand48 (rand48_next (X g)))
      (double_of_rand48 (rand48_next (rand48_next (X g)))).
Proof.
  unfold pair_radius.
  rewrite (proj2 (posix_draw g)), (proj2 (posix_draw _)), (proj1 (posix_draw g)).
  reflexivity.
Qed.

(** The pairs that follow the states 1983 and 1998 are accepted. *)
Lemma posix_source_ends (g : rand48) :
  exists j : nat,
    dle dbl_one (pair_radius drand48 (Nat.iter j (two_draws drand48) g)) = false.
Proof.
  set (t := if Z.odd (X g) then 1983 else 1998).
  assert (Ht : 0 <= t < 2 ^ Z.of_nat 48) by (unfold t; destruct (Z.odd (X g)); lia).
  assert (Hpar : Z.odd t = Z.odd (X g)) by (unfold t; destruct (Z.odd (X g)); reflexivity).
  destruct (affine_reach_even 25214903917 11 48 eq_refl eq_refl ltac:(lia) (X g) t Ht Hpar)
    as (j & Hj).
  exists j. rewrite posix_pair_radius, posix_passes_word.
  change rand48_next with (affine_next 25214903917 11 48).
  rewrite <- (affine_next_mod 25214903917 11 48 (affine_iter _ _ _ _ _)), Hj.
  unfold t. destruct (Z.odd (X g)); vm_compute; reflexivity.
Qed.

End PosixGenerator.

(** * The normal batches return *)

Section BatchesReturn.

Variables log cos : double -> double.
Variable CONST_2PI : double.

(** The budget plays no part in the common form. *)
Lemma normal_simd_common_any_fuel {St : Type} (uniform : St -> outcome (double * St))
    (geobm : Z) (fuel fuel' : nat) (st : St) (n : Z) (out : gmap Z double) :
  geobm <> 1 ->
  normal_simd log cos CONST_2PI geobm uniform fuel st n out =
  normal_simd log cos CONST_2PI geobm uniform fuel' st n out.
Proof.
  intros Hform. unfold normal_simd.
  replace (geobm =? 1) with false by (symmetry; apply Z.eqb_neq; assumption).
  reflexivity.
Qed.

Lemma lcg_normal_simd_ends (geobm : Z) (rdata : random_data) (n : Z) (out : gmap Z double) :
  0 <= n < INT_MAX ->
  exists (fuel0 : nat) rdata' out',
    forall fuel : nat, (fuel0 <= fuel)%nat ->
      random_lcg_normal_simd log cos CONST_2PI geobm fuel rdata n out
        = Returns (rdata', out').
Proof.
  intros Hn. destruct (Z.eq_dec geobm 1) as [->|Hform].
  - destruct (geobm_for_ends log random_lcg_uniform lcg_draw lcg_uniform_draw
                lcg_source_ends (Z.to_nat n) n 0 rdata out)
      as (fuel0 & rdata' & out' & Hrun); [lia|reflexivity|lia|lia|].
    exists fuel0, rdata', out'. intros fuel Hfuel.
    unfold random_lcg_normal_simd, normal_simd.
    rewrite (int_val_in_range (n + 1)) by (unfold INT_MIN, INT_MAX in *; lia).
    cbn [mbind outcome_bind]. change (1 =? 1) with true. cbv iota.
    apply Hrun. exact Hfuel.
  - destruct (random_lcg_normal_simd_common log cos CONST_2PI geobm 0 rdata n out Hform Hn)
      as (out' & Hrun & _).
    eexists 0%nat, _, out'. intros fuel _.
    unfold random_lcg_normal_simd in *.
    rewrite (normal_simd_common_any_fuel random_lcg_uniform geobm fuel 0) by exact Hform.
    exact Hrun.
Qed.

Section OverDrand48.

Context {rand48 : Type}.
Variable drand48 : rand48 -> double * rand48.
Variable X : rand48 -> Z.

Hypothesis posix : posix_drand48 drand48 X.

#[local] Abbreviation uniform48 := (fun g : rand48 => Returns (drand48 g)).

Lemma drand48_normal_simd_ends (g : rand48) (n : Z) (out : gmap Z double) :
  0 <= n < INT_MAX ->
  exists (fuel0 : nat) g' out',
    forall fuel : nat, (fuel0 <= fuel)%nat ->
      random_drand48_normal_simd log drand48 fuel g n out = Returns (g', out').
Proof.
  intros Hn.
  destruct (geobm_for_ends log uniform48 drand48 (fun st => eq_refl)
              (posix_source_ends drand48 X posix) (Z.to_nat n) n 0 g out)
    as (fuel0 & g' & out' & Hrun); [lia|reflexivity|lia|lia|].
  exists fuel0, g', out'. intros fuel Hfuel.
  unfold random_drand48_normal_simd.
  rewrite (int_val_in_range (n + 1)) by (unfold INT_MIN, INT_MAX in *; lia).
  cbn [mbind outcome_bind]. apply Hrun. exact Hfuel.
Qed.

Lemma drand48_normal_simd_fills fuel (g : rand48) (n : Z) (out : gmap Z double) g' out' :
  0 <= n < INT_MAX ->
  random_drand48_normal_simd log drand48 fuel g n out = Returns (g', out') ->
  geobm_for log uniform48 (Z.to_nat n) fuel n (Z.rem (n + 1) 2) 0 g out = Returns (g', out').
Proof.
  intros Hn Hrun. unfold random_drand48_normal_simd in Hrun.
  rewrite (int_val_in_range (n + 1)) in Hrun by (unfold INT_MIN, INT_MAX in *; lia).
  exact Hrun.
Qed.

(** A radius that the test lets through is a positive finite double
    below [1.0]. *)
Lemma posix_pair_accepted (g : rand48) :
  dle dbl_one (pair_radius drand48 g) = false -> accepted (pair_radius drand48 g).
Proof.
  rewrite (posix_pair_radius drand48 X posix). intros Hexit.
  assert (Hr1 : 0 <= rand48_next (X g) < 2 ^ 48)
    by (unfold rand48_next; apply Z.mod_pos_bound; reflexivity).
  assert (Hr2 : 0 <= rand48_next (rand48_next (X g)) < 2 ^ 48)
    by (unfold rand48_next; apply Z.mod_pos_bound; reflexivity).
  destruct (double_of_rand48_deviate _ Hr1) as [Hd1 Hh1].
  destruct (double_of_rand48_deviate _ Hr2) as [Hd2 Hh2].
  apply accepted_radius; try assumption.
  intros [Hu1 Hu2]. apply Hh1 in Hu1. apply Hh2 in Hu2.
  rewrite Hu1 in Hu2. exact (rand48_half_not_twice Hu2).
Qed.

End OverDrand48.

End BatchesReturn.

(** C3, amended: for every request [0 <= n < INT_MAX] and every engine
    state, the normal batch returns, given a budget that covers the pairs
    its rejection loop refuses, and has then stored exactly [out[0..n)] and
    no cell at or beyond [n]: for the linear-congruential backend with
    either form, and for the [drand48] backend with the geometric form, the
    one its text has, over the generator of POSIX.  With the common form
    the linear-congruential call needs no budget and returns after
    [2 * ceil(n/2)] draws: for an odd [n] both uniforms of the last pair
    are drawn and only [out[n-1]] is stored. *)
Theorem normal_batch_stores_exactly_n
    (log cos : double -> double) (CONST_2PI : double) (A5_CCOL_USE_GEOBM : Z)
    {rand48 : Type} (drand48 : rand48 -> double * rand48) (X : rand48 -> Z)
    (n : Z) (out : gmap Z double) :
  0 <= n < INT_MAX ->
  (forall rdata, exists (fuel0 : nat) rdata' out',
     (forall fuel : nat, (fuel0 <= fuel)%nat ->
        random_lcg_normal_simd log cos CONST_2PI A5_CCOL_USE_GEOBM fuel rdata n out
          = Returns (rdata', out')) /\
     writes_exactly n out out') /\
  (A5_CCOL_USE_GEOBM <> 1 ->
   forall (fuel : nat) rdata, exists out',
     random_lcg_normal_simd log cos CONST_2PI A5_CCOL_USE_GEOBM fuel rdata n out
       = Returns ({| r := lcg_iter (2 * Z.to_nat ((n + 1) / 2)) (r rdata) |}, out') /\
     writes_exactly n out out') /\
  (posix_drand48 drand48 X ->
   forall g, exists (fuel0 : nat) g' out',
     (forall fuel : nat, (fuel0 <= fuel)%nat ->
        random_drand48_normal_simd log drand48 fuel g n out = Returns (g', out')) /\
     writes_exactly n out out').
Proof.
  intros Hn. split; [|split].
  - intros rdata.
    destruct (lcg_normal_simd_ends log cos CONST_2PI A5_CCOL_USE_GEOBM rdata n out Hn)
      as (fuel0 & rdata' & out' & Hrun).
    exists fuel0, rdata', out'. split; [exact Hrun|].
    specialize (Hrun fuel0 (Nat.le_refl _)). unfold random_lcg_normal_simd in Hrun.
    eapply normal_simd_writes_exactly; [exact Hn|exact Hrun].
  - intros Hform fuel rdata.
    destruct (random_lcg_normal_simd_common log cos CONST_2PI A5_CCOL_USE_GEOBM
                fuel rdata n out Hform Hn) as (out' & Hrun & _).
    exists out'. split; [exact Hrun|]. unfold random_lcg_normal_simd in Hrun.
    eapply normal_simd_writes_exactly; [exact Hn|exact Hrun].
  - intros Hposix g.
    destruct (drand48_normal_simd_ends log drand48 X Hposix g n out Hn)
      as (fuel0 & g' & out' & Hrun).
    exists fuel0, g', out'. split; [exact Hrun|].
    specialize (Hrun fuel0 (Nat.le_refl _)).
    apply drand48_normal_simd_fills in Hrun; [|exact Hn].
    apply fills_writes_exactly.
    eapply geobm_for_fills; [| | |exact Hrun]; [lia|reflexivity|lia].
Qed.

(** * Further properties of the rejection loop *)

(** X14: from every state word the rejection loop of the
    linear-congruential backend ends.  It stops at the first pair of draws
    whose point it accepts: when the pairs [0 .. j-1] that follow the state
    word are refused and the pair [j] is not, the loop returns the point of
    the pair [j] and leaves the state word exactly [2 (j + 1)] steps along
    the recurrence. *)
Theorem rejection_loop_stops_at_first_accepted_pair (rdata : random_data) :
  exists j : nat,
    (forall i : nat, (i < j)%nat ->
       dle dbl_one (lcg_pair_radius (lcg_iter (2 * i) (r rdata))) = true) /\
    dle dbl_one (lcg_pair_radius (lcg_iter (2 * j) (r rdata))) = false /\
    forall fuel : nat, (j < fuel)%nat ->
      geobm_while random_lcg_uniform fuel S754_nan S754_nan dbl_two rdata =
        Returns (polar_coordinate (uniform_of_word (lcg_iter (2 * j + 1) (r rdata))),
                 polar_coordinate (uniform_of_word (lcg_iter (2 * j + 2) (r rdata))),
                 lcg_pair_radius (lcg_iter (2 * j) (r rdata)),
                 {| r := lcg_iter (2 * j + 2) (r rdata) |}).
Proof.
  destruct (lcg_source_ends rdata) as (j1 & Hj1).
  destruct (first_accepted_exists lcg_draw rdata j1 Hj1) as (j & Hfirst).
  exists j. pose proof Hfirst as [Hrej Hacc]. split; [|split].
  - intros i Hi. rewrite <- lcg_passes_word, <- lcg_pair_radius_eq. apply Hrej. exact Hi.
  - rewrite <- lcg_passes_word, <- lcg_pair_radius_eq. exact Hacc.
  - intros fuel Hfuel.
    rewrite (geobm_while_first_accepted random_lcg_uniform lcg_draw lcg_uniform_draw
               j rdata fuel S754_nan S754_nan dbl_two Hfirst Hfuel eq_refl).
    rewrite lcg_pair_radius_eq. unfold two_draws, lcg_draw. cbn [fst snd r].
    rewrite lcg_passes_word.
    replace (2 * j + 1)%nat with (S (2 * j)) by lia.
    replace (2 * j + 2)%nat with (S (S (2 * j))) by lia.
    rewrite !lcg_iter_S. reflexivity.
Qed.

(** X9: in the build that has it, the scalar normal sampler of the
    [drand48] backend, over the generator of POSIX, returns from every
    state of the generator: it stops at the first pair of deviates whose
    point the rejection test accepts, returns the first coordinate of that
    point scaled by [sqrt(-2 log(w) / w)], with [w] a positive finite
    radius below [1.0], and leaves the generator after the two draws of
    that pair; the second coordinate is not kept. *)
Theorem drand48_scalar_normal_first_accepted
    {rand48 : Type} (log : double -> double)
    (drand48 : rand48 -> double * rand48) (X : rand48 -> Z) (g : rand48) :
  posix_drand48 drand48 X ->
  exists j : nat,
    first_accepted drand48 g j /\
    accepted (pair_radius drand48 (Nat.iter j (two_draws drand48) g)) /\
    forall fuel : nat, (j < fuel)%nat ->
      random_drand48_normal log drand48 fuel g =
        Returns (fst (pair_point drand48 log (Nat.iter j (two_draws drand48) g)),
                 two_draws drand48 (Nat.iter j (two_draws drand48) g)).
Proof.
  intros Hposix.
  destruct (posix_source_ends drand48 X Hposix g) as (j1 & Hj1).
  destruct (first_accepted_exists drand48 g j1 Hj1) as (j & Hfirst).
  exists j. split; [exact Hfirst|]. split.
  { apply (posix_pair_accepted drand48 X Hposix). exact (proj2 Hfirst). }
  intros fuel Hfuel.
  unfold random_drand48_normal, random_drand48_normal_simd.
  rewrite (int_val_in_range (1 + 1)) by (unfold INT_MIN, INT_MAX; lia).
  cbn [mbind outcome_bind]. change (Z.to_nat 1) with 1%nat.
  rewrite geobm_for_step; [|lia|reflexivity|unfold INT_MAX; lia].
  rewrite (geobm_while_first_accepted (fun g0 => Returns (drand48 g0)) drand48
             (fun st => eq_refl) j g fuel S754_nan S754_nan dbl_two Hfirst Hfuel eq_refl).
  cbn [mbind outcome_bind]. cbv zeta.
  rewrite geobm_for_exit by lia. cbn [mbind outcome_bind].
  rewrite store_pair_lookup, decide_True by reflexivity. reflexivity.
Qed.

(** X15: the normal batch of the [drand48] backend, over the generator of
    POSIX, returns for every [0 <= n < INT_MAX] given a budget that covers
    the refused pairs; each pair of cells [out[2k]], [out[2k+1]] of the
    request then holds the two coordinates, scaled by
    [sqrt(-2 log(w) / w)], of the point made of two successive deviates of
    [drand48], whose radius [w] is positive, finite and below [1.0]. *)
Theorem drand48_geometric_form_pairs
    {rand48 : Type} (log : double -> double)
    (drand48 : rand48 -> double * rand48) (X : rand48 -> Z)
    (g : rand48) (n : Z) (out : gmap Z double) :
  posix_drand48 drand48 X -> 0 <= n < INT_MAX ->
  exists (fuel0 : nat) g' out',
    (forall fuel : nat, (fuel0 <= fuel)%nat ->
       random_drand48_normal_simd log drand48 fuel g n out = Returns (g', out')) /\
    forall k : nat, 2 * Z.of_nat k < n ->
    exists g0 : rand48,
      accepted (pair_radius drand48 g0) /\
      out' !! (2 * Z.of_nat k) = Some (fst (pair_point drand48 log g0)) /\
      (2 * Z.of_nat k + 1 < n ->
       out' !! (2 * Z.of_nat k + 1) = Some (snd (pair_point drand48 log g0))).
Proof.
  intros Hposix Hn.
  destruct (drand48_normal_simd_ends log drand48 X Hposix g n out Hn)
    as (fuel0 & g' & out' & Hrun).
  exists fuel0, g', out'. split; [exact Hrun|].
  specialize (Hrun fuel0 (Nat.le_refl _)).
  apply drand48_normal_simd_fills in Hrun; [|exact Hn].
  intros k Hk.
  assert (Hn' : n < INT_MAX) by lia.
  assert (Hk' : 0 + 2 * Z.of_nat k < n) by lia.
  destruct (geobm_for_pairs log (fun g0 => Returns (drand48 g0)) _ _ _ _ _ _ _ _
              (Z.le_refl 0) eq_refl Hn' Hrun k Hk')
    as (g0 & u1 & g1 & u2 & g2 & Hu1 & Hu2 & Hexit & Hfst & Hsnd).
  assert (Hd1 : drand48 g0 = (u1, g1)) by congruence.
  assert (Hd2 : drand48 g1 = (u2, g2)) by congruence.
  assert (Hrad : pair_radius drand48 g0 = polar_radius u1 u2).
  { unfold pair_radius. rewrite Hd1. cbn [fst snd]. rewrite Hd2. reflexivity. }
  assert (Hpt : pair_point drand48 log g0 =
                polar_pair log (polar_coordinate u1) (polar_coordinate u2)
                  (polar_radius u1 u2)).
  { unfold pair_point. rewrite Hrad, Hd1. cbn [fst snd]. rewrite Hd2. reflexivity. }
  exists g0. rewrite Hpt. cbv zeta in Hfst, Hsnd. rewrite !Z.add_0_l in Hfst, Hsnd.
  split; [|split; assumption].
  apply (posix_pair_accepted drand48 X Hposix). rewrite Hrad. exact Hexit.
Qed.

(** * The buffer of the accelerator path *)

Section AcceleratorBuffer.

Variables log cos : double -> double.
Variable CONST_2PI : double.
Variable A5_CCOL_USE_GEOBM : Z.

Context {curand_gen : Type}.
Variable curandCreateGenerator : curand_gen.
Variable curandSetPseudoRandomGeneratorSeed : curand_gen -> Z -> curand_gen.
Variable curandGenerateUniformDouble : curand_gen -> Z -> (Z -> double) * curand_gen.
Variable malloc_content : Z -> double.

#[local] Abbreviation normal_cuda :=
  (random_drand48_normal_cuda log cos CONST_2PI A5_CCOL_USE_GEOBM
     curandGenerateUniformDouble).

#[local] Abbreviation cuda_init :=
  (random_drand48_normal_cuda_init curandCreateGenerator
     curandSetPseudoRandomGeneratorSeed malloc_content).

(** The common form over a buffer that ends at the cell [n] of an odd
    request: every pass but the last reads its two cells, the last one
    reads past the end. *)
Lemma cuda_common_for_past_end (data : random_cuda curand_gen) (cell : Z -> double) n steps :
  forall i (out : gmap Z double),
  0 <= i < n -> Z.even i = true -> Z.odd n = true -> n < INT_MAX ->
  (Z.to_nat (n - i) <= steps)%nat ->
  (forall j, i <= j < n -> cuda_read data j = Returns (cell j)) ->
  cuda_read data n = Undefined ->
  cuda_common_for log cos CONST_2PI steps data n (Z.rem (n + 1) 2) i out = Undefined.
Proof.
  induction steps as [|steps IH]; intros i out Hi Hev Hodd Hn Hsteps Hcells Hbad; [lia|].
  rewrite cuda_common_for_step by (assumption || lia).
  rewrite (Hcells i) by lia. cbn [mbind outcome_bind].
  destruct (Z.eq_dec (i + 1) n) as [Hlast|Hmore].
  - rewrite Hlast, Hbad. reflexivity.
  - rewrite (Hcells (i + 1)) by lia. cbn [mbind outcome_bind]. cbv zeta.
    assert (Hnext : i + 2 < n).
    { apply Z.even_spec in Hev. apply Z.odd_spec in Hodd.
      destruct Hev as [p Hp], Hodd as [q Hq]. lia. }
    apply IH; try assumption; try lia.
    + rewrite Z.even_add, Hev. reflexivity.
    + intros j Hj. apply Hcells. lia.
Qed.

Lemma normal_cuda_past_end fuel (data : random_cuda curand_gen) n (out : gmap Z double) :
  0 <= n < INT_MAX -> Z.odd n = true -> r_cuda_size data <= n ->
  (forall res, normal_cuda fuel data n out <> Returns res) /\
  (A5_CCOL_USE_GEOBM <> 1 -> normal_cuda fuel data n out = Undefined).
Proof.
  intros Hn Hodd Hsize.
  assert (Hpos : 0 < n) by (destruct (Z.eq_dec n 0) as [->|]; [discriminate Hodd|lia]).
  destruct (Z_le_gt_dec n (r_cuda_size data)) as [Hfits|Hover].
  - destruct (curandGenerateUniformDouble (gen data) n) as [vals g'] eqn:Hbulk.
    rewrite (normal_cuda_unfold log cos CONST_2PI A5_CCOL_USE_GEOBM
               curandGenerateUniformDouble fuel data n out vals g' Hn Hfits Hbulk).
    cbv zeta.
    set (data' := {| gen := g'; r_cuda := fill_cells vals n (r_cuda data);
                     r_cuda_size := r_cuda_size data |}).
    assert (Hbad : cuda_read data' n = Undefined).
    { unfold data'. rewrite cuda_read_beyond by lia.
      replace (n <? r_cuda_size data) with false by (symmetry; apply Z.ltb_ge; lia).
      rewrite andb_false_r. reflexivity. }
    assert (Hev1 : Z.even (n - 1) = true).
    { rewrite Z.even_sub, <- Z.negb_odd, Hodd. reflexivity. }
    split.
    + intros res Hrun. apply bind_returns in Hrun. destruct Hrun as (out' & Hloop & _).
      revert Hloop. destruct (A5_CCOL_USE_GEOBM =? 1).
      * apply (cuda_geobm_for_stuck log data' fuel n (n - 1));
          try assumption; try reflexivity; try lia.
        intros x. apply cuda_while_bad_read; [unfold INT_MIN, INT_MAX in *; lia|].
        replace (n - 1 + 1) with n by lia. exact Hbad.
      * apply (cuda_common_for_stuck log cos CONST_2PI data' n (n - 1));
          try assumption; try reflexivity; try lia.
        intros x1 x2 [_ Hx2]. replace (n - 1 + 1) with n in Hx2 by lia.
        rewrite Hbad in Hx2. discriminate Hx2.
    + intros Hform.
      replace (A5_CCOL_USE_GEOBM =? 1) with false by (symmetry; apply Z.eqb_neq; assumption).
      rewrite (cuda_common_for_past_end data' vals n (Z.to_nat n) 0 out);
        [reflexivity|lia|reflexivity|exact Hodd|lia|lia| |exact Hbad].
      intros j Hj. unfold data'. apply cuda_read_filled; lia.
  - assert (Hrun : normal_cuda fuel data n out = Undefined).
    { unfold random_drand48_normal_cuda.
      rewrite (int_val_in_range (n + 1)) by (unfold INT_MIN, INT_MAX in *; lia).
      cbn [mbind outcome_bind]. cbv zeta.
      rewrite (Z.mod_small n) by (unfold INT_MAX in *; lia).
      replace (n <=? r_cuda_size data) with false by (symmetry; apply Z.leb_gt; lia).
      reflexivity. }
    rewrite Hrun. split; [intros res; discriminate|reflexivity].
Qed.

(** X11: for an odd request [n] and a buffer of no more than [n] doubles,
    as [random_drand48_normal_cuda_init] makes one for [n] numbers, the
    last pass of either form reads [r_cuda[n]], past the end of the
    buffer, which is undefined behaviour: the call has no defined result,
    and with the common form that read is where it ends. *)
Theorem cuda_odd_batch_reads_past_buffer (n : Z) :
  0 <= n < INT_MAX -> Z.odd n = true ->
  (forall (fuel : nat) (data : random_cuda curand_gen) (out : gmap Z double),
     r_cuda_size data <= n ->
     (forall res, normal_cuda fuel data n out <> Returns res) /\
     (A5_CCOL_USE_GEOBM <> 1 -> normal_cuda fuel data n out = Undefined)) /\
  (forall (fuel : nat) (data0 : random_cuda curand_gen) (out : gmap Z double),
     (forall res, normal_cuda fuel (cuda_init data0 n) n out <> Returns res) /\
     (A5_CCOL_USE_GEOBM <> 1 -> normal_cuda fuel (cuda_init data0 n) n out = Undefined)).
Proof.
  intros Hn Hodd. split.
  - intros fuel data out Hsize. now apply normal_cuda_past_end.
  - intros fuel data0 out. apply normal_cuda_past_end; [exact Hn|exact Hodd|].
    unfold random_drand48_normal_cuda_init. cbn [r_cuda_size]. lia.
Qed.


End AcceleratorBuffer.

(** ** Instances of the statements on the rejection loop and the buffer *)

Lemma normal_batch_stores_exactly_n_witness :
  0 <= 3 < INT_MAX /\
  (exists (fuel0 : nat) rdata' out',
     (forall fuel : nat, (fuel0 <= fuel)%nat ->
        random_lcg_normal_simd (fun x => x) (fun x => x) dbl_one 1 fuel {| r := 1 |} 3 ∅
          = Returns (rdata', out')) /\
     writes_exactly 3 ∅ out') /\
  (0 <> 1 /\
   exists out',
     random_lcg_normal_simd (fun x => x) (fun x => x) dbl_one 0 0 {| r := 1 |} 3 ∅
       = Returns ({| r := lcg_iter (2 * Z.to_nat ((3 + 1) / 2)) 1 |}, out') /\
     writes_exactly 3 ∅ out') /\
  (posix_drand48 (fun x : Z => (double_of_rand48 (rand48_next x), rand48_next x))
     (fun x => x) /\
   exists (fuel0 : nat) g' out',
     (forall fuel : nat, (fuel0 <= fuel)%nat ->
        random_drand48_normal_simd (fun x => x)
          (fun x : Z => (double_of_rand48 (rand48_next x), rand48_next x)) fuel 78606 3 ∅
          = Returns (g', out')) /\
     writes_exactly 3 ∅ out').
Proof.
  assert (Hn : 0 <= 3 < INT_MAX) by (unfold INT_MAX; lia).
  assert (Hform : 0 <> 1) by lia.
  assert (Hposix : posix_drand48
                     (fun x : Z => (double_of_rand48 (rand48_next x), rand48_next x))
                     (fun x => x))
    by (intros g; split; reflexivity).
  destruct (normal_batch_stores_exactly_n (fun x => x) (fun x => x) dbl_one 1
              (fun x : Z => (double_of_rand48 (rand48_next x), rand48_next x))
              (fun x => x) 3 ∅ Hn) as (Hlcg & _ & Hdrand).
  destruct (normal_batch_stores_exactly_n (fun x => x) (fun x => x) dbl_one 0
              (fun x : Z => (double_of_rand48 (rand48_next x), rand48_next x))
              (fun x => x) 3 ∅ Hn) as (_ & Hcommon & _).
  split; [exact Hn|]. split; [exact (Hlcg {| r := 1 |})|].
  split; [split; [exact Hform|exact (Hcommon Hform 0%nat {| r := 1 |})]|].
  split; [exact Hposix|exact (Hdrand Hposix 78606)].
Defined.

Lemma drand48_scalar_normal_first_accepted_witness :
  posix_drand48 (fun x : Z => (double_of_rand48 (rand48_next x), rand48_next x))
    (fun x => x) /\
  exists j : nat,
    first_accepted (fun x : Z => (double_of_rand48 (rand48_next x), rand48_next x)) 78606 j /\
    accepted (pair_radius (fun x : Z => (double_of_rand48 (rand48_next x), rand48_next x))
                (Nat.iter j
                   (two_draws (fun x : Z => (double_of_rand48 (rand48_next x), rand48_next x)))
                   78606)) /\
    forall fuel : nat, (j < fuel)%nat ->
      random_drand48_normal (fun x => x)
        (fun x : Z => (double_of_rand48 (rand48_next x), rand48_next x)) fuel 78606 =
        Returns (fst (pair_point
                        (fun x : Z => (double_of_rand48 (rand48_next x), rand48_next x))
                        (fun x => x)
                        (Nat.iter j
                           (two_draws
                              (fun x : Z => (double_of_rand48 (rand48_next x), rand48_next x)))
                           78606)),
                 two_draws (fun x : Z => (double_of_rand48 (rand48_next x), rand48_next x))
                   (Nat.iter j
                      (two_draws
                         (fun x : Z => (double_of_rand48 (rand48_next x), rand48_next x)))
                      78606)).
Proof.
  assert (Hposix : posix_drand48
                     (fun x : Z => (double_of_rand48 (rand48_next x), rand48_next x))
                     (fun x => x))
    by (intros g; split; reflexivity).
  split; [exact Hposix|].
  exact (drand48_scalar_normal_first_accepted (fun x => x)
           (fun x : Z => (double_of_rand48 (rand48_next x), rand48_next x))
           (fun x => x) 78606 Hposix).
Defined.

Lemma drand48_geometric_form_pairs_witness :
  (posix_drand48 (fun x : Z => (double_of_rand48 (rand48_next x), rand48_next x))
     (fun x => x) /\ 0 <= 3 < INT_MAX) /\
  exists (fuel0 : nat) g' out',
    (forall fuel : nat, (fuel0 <= fuel)%nat ->
       random_drand48_normal_simd (fun x => x)
         (fun x : Z => (double_of_rand48 (rand48_next x), rand48_next x)) fuel 78606 3 ∅
         = Returns (g', out')) /\
    forall k : nat, 2 * Z.of_nat k < 3 ->
    exists g0 : Z,
      accepted (pair_radius
                  (fun x : Z => (double_of_rand48 (rand48_next x), rand48_next x)) g0) /\
      out' !! (2 * Z.of_nat k) =
        Some (fst (pair_point
                     (fun x : Z => (double_of_rand48 (rand48_next x), rand48_next x))
                     (fun x => x) g0)) /\
      (2 * Z.of_nat k + 1 < 3 ->
       out' !! (2 * Z.of_nat k + 1) =
         Some (snd (pair_point
                      (fun x : Z => (double_of_rand48 (rand48_next x), rand48_next x))
                      (fun x => x) g0))).
Proof.
  assert (Hposix : posix_drand48
                     (fun x : Z => (double_of_rand48 (rand48_next x), rand48_next x))
                     (fun x => x))
    by (intros g; split; reflexivity).
  assert (Hn : 0 <= 3 < INT_MAX) by (unfold INT_MAX; lia).
  split; [exact (conj Hposix Hn)|].
  exact (drand48_geometric_form_pairs (fun x => x)
           (fun x : Z => (double_of_rand48 (rand48_next x), rand48_next x))
           (fun x => x) 78606 3 ∅ Hposix Hn).
Defined.

Lemma cuda_odd_batch_reads_past_buffer_witness :
  (0 <= 3 < INT_MAX /\ Z.odd 3 = true /\ 3 <= 3 /\ 0 <> 1) /\
  (forall (fuel : nat) (out : gmap Z double),
     (forall res,
        random_drand48_normal_cuda (fun x => x) (fun x => x) dbl_one 0
          (fun (g count : Z) => (fun i => double_of_rand48 (rand48_next (g + i)), g + count))
          fuel {| gen := 0; r_cuda := ∅; r_cuda_size := 3 |} 3 out <> Returns res) /\
     random_drand48_normal_cuda (fun x => x) (fun x => x) dbl_one 0
       (fun (g count : Z) => (fun i => double_of_rand48 (rand48_next (g + i)), g + count))
       fuel {| gen := 0; r_cuda := ∅; r_cuda_size := 3 |} 3 out = Undefined) /\
  (forall (fuel : nat) (data0 : random_cuda Z) (out : gmap Z double),
     random_drand48_normal_cuda (fun x => x) (fun x => x) dbl_one 0
       (fun (g count : Z) => (fun i => double_of_rand48 (rand48_next (g + i)), g + count))
       fuel
       (random_drand48_normal_cuda_init 0 (fun (g seed : Z) => seed) (fun _ => dbl_half)
          data0 3) 3 out = Undefined).
Proof.
  assert (Hn : 0 <= 3 < INT_MAX) by (unfold INT_MAX; lia).
  assert (Hodd : Z.odd 3 = true) by reflexivity.
  assert (Hsize : 3 <= 3) by lia.
  assert (Hform : 0 <> 1) by lia.
  destruct (cuda_odd_batch_reads_past_buffer (fun x => x) (fun x => x) dbl_one 0
              0 (fun (g seed : Z) => seed)
              (fun (g count : Z) =>
                 (fun i => double_of_rand48 (rand48_next (g + i)), g + count))
              (fun _ => dbl_half) 3 Hn Hodd) as (Hany & Hinit).
  split; [exact (conj Hn (conj Hodd (conj Hsize Hform)))|]. split.
  - intros fuel out.
    destruct (Hany fuel {| gen := 0; r_cuda := ∅; r_cuda_size := 3 |} out Hsize)
      as (Hnot & Hundef).
    split; [exact Hnot|exact (Hundef Hform)].
  - intros fuel data0 out. exact (proj2 (Hinit fuel data0 out) Hform).
Defined.


Lemma rejection_loop_stops_at_first_accepted_pair_witness :
  exists j : nat,
    (forall i : nat, (i < j)%nat ->
       dle dbl_one (lcg_pair_radius (lcg_iter (2 * i) 6)) = true) /\
    dle dbl_one (lcg_pair_radius (lcg_iter (2 * j) 6)) = false /\
    forall fuel : nat, (j < fuel)%nat ->
      geobm_while random_lcg_uniform fuel S754_nan S754_nan dbl_two {| r := 6 |} =
        Returns (polar_coordinate (uniform_of_word (lcg_iter (2 * j + 1) 6)),
                 polar_coordinate (uniform_of_word (lcg_iter (2 * j + 2) 6)),
                 lcg_pair_radius (lcg_iter (2 * j) 6),
                 {| r := lcg_iter (2 * j + 2) 6 |}).
Proof. exact (rejection_loop_stops_at_first_accepted_pair {| r := 6 |}). Defined.
